(** * volk_gen: architecture / machine / kernel catalogs and the template engine

    Shallow embedding of [tools/volk_gen/volk_gen.cpp].  [std::string] is
    [string] (a sequence of 8-bit characters), [std::vector] is [list],
    [std::map] with string keys is [gmap string], [std::set<std::string>] is
    [gset string] iterated in increasing order, pointers into the read-only
    catalogs are the values they point to. *)

From Stdlib Require Import ZArith Ascii.
From stdpp Require Import base gmap sets list strings sorting.

Local Open Scope Z_scope.

(** ** String utilities (the [std::string] operations the source uses) *)

Module Str.

Definition len (s : string) : nat := String.length s.

(** [s.substr(pos)] *)
Fixpoint drop (n : nat) (s : string) : string :=
  match n, s with
  | O, _ => s
  | S n', String _ s' => drop n' s'
  | S _, EmptyString => EmptyString
  end.

(** [s.substr(0, n)] *)
Fixpoint take (n : nat) (s : string) : string :=
  match n, s with
  | O, _ => EmptyString
  | S n', String c s' => String c (take n' s')
  | S _, EmptyString => EmptyString
  end.

(** [s.substr(pos, n)] for [pos <= s.size()] *)
Definition substr (pos n : nat) (s : string) : string := take n (drop pos s).

(** [s.find(p) == 0] *)
Fixpoint starts_with (p s : string) : bool :=
  match p, s with
  | EmptyString, _ => true
  | String a p', String b s' => if decide (a = b) then starts_with p' s' else false
  | String _ _, EmptyString => false
  end.

(** [s.find(p)]: the least position where [p] occurs, [None] for [npos] *)
Fixpoint find (p s : string) : option nat :=
  if starts_with p s then Some O
  else match s with
       | EmptyString => None
       | String _ s' => S <$> find p s'
       end.

(** [s.find(p, pos)] *)
Definition find_from (p s : string) (pos : nat) : option nat :=
  if decide (pos ≤ len s)%nat then (λ i, (pos + i)%nat) <$> find p (drop pos s)
  else None.

(** [s.find(c)] for a character *)
Fixpoint find_char (c : ascii) (s : string) : option nat :=
  match s with
  | EmptyString => None
  | String a s' => if decide (a = c) then Some O else S <$> find_char c s'
  end.

Definition contains_char (c : ascii) (s : string) : bool :=
  match find_char c s with Some _ => true | None => false end.

Fixpoint map (f : ascii → ascii) (s : string) : string :=
  match s with
  | EmptyString => EmptyString
  | String a s' => String (f a) (map f s')
  end.

Fixpoint replicate (n : nat) (c : ascii) : string :=
  match n with
  | O => EmptyString
  | S n' => String c (replicate n' c)
  end.

Fixpoint concat (l : list string) : string :=
  match l with
  | [] => EmptyString
  | s :: l' => s +:+ concat l'
  end.

End Str.

(** Characters of [" \t\r\n"], the set [trim] strips. *)
Definition is_trim_char (c : ascii) : bool :=
  match c with
  | " " | "009" | "013" | "010" => true
  | _ => false
  end%char.

Fixpoint trim_left (s : string) : string :=
  match s with
  | String c s' => if is_trim_char c then trim_left s' else s
  | EmptyString => EmptyString
  end.

(** Strips the trailing run of trim characters: the part up to
    [find_last_not_of]. *)
Fixpoint trim_right (s : string) : string :=
  match s with
  | EmptyString => EmptyString
  | String c s' =>
      match trim_right s' with
      | EmptyString => if is_trim_char c then EmptyString else String c EmptyString
      | t => String c t
      end
  end.

Definition trim (s : string) : string := trim_right (trim_left s).

Definition ascii_in_range (lo hi c : ascii) : bool :=
  (nat_of_ascii lo <=? nat_of_ascii c)%nat && (nat_of_ascii c <=? nat_of_ascii hi)%nat.

Definition is_upper (c : ascii) : bool := ascii_in_range "A" "Z" c.
Definition is_lower (c : ascii) : bool := ascii_in_range "a" "z" c.
Definition is_digit (c : ascii) : bool := ascii_in_range "0" "9" c.
Definition is_alnum (c : ascii) : bool := is_upper c || is_lower c || is_digit c.
(** [std::isspace] in the "C" locale *)
Definition is_space (c : ascii) : bool :=
  match c with
  | " " | "009" | "010" | "011" | "012" | "013" => true
  | _ => false
  end%char.

Definition tolower (c : ascii) : ascii :=
  if is_upper c then ascii_of_nat (nat_of_ascii c + 32) else c.
Definition toupper (c : ascii) : ascii :=
  if is_lower c then ascii_of_nat (nat_of_ascii c - 32) else c.

Definition to_lower (s : string) : string := Str.map tolower s.
Definition to_upper (s : string) : string := Str.map toupper s.

(** [split(s, delim)]: the pieces between the delimiters, a last (possibly
    empty) piece included. *)
Fixpoint split (s : string) (delim : ascii) : list string :=
  match s with
  | EmptyString => [EmptyString]
  | String c s' =>
      if decide (c = delim) then EmptyString :: split s' delim
      else match split s' delim with
           | piece :: rest => String c piece :: rest
           | [] => [String c EmptyString]
           end
  end.

Fixpoint join (v : list string) (delim : string) : string :=
  match v with
  | [] => EmptyString
  | [x] => x
  | x :: v' => x +:+ delim +:+ join v' delim
  end.

(** Iteration order of a [std::set<std::string>]: increasing. *)
Definition set_iter (s : gset string) : list string :=
  merge_sort String.le (elements s).

(** ** Data model *)

Record Arch := mkArch {
  arch_name : string;
  arch_environment : string;
  arch_include : string;
  arch_alignment : Z;
  arch_checks : list (string * list string);
  arch_flags : gmap string (list string)
}.

Record Machine := mkMachine {
  machine_name : string;
  machine_arch_names : list string;
  machine_archs : list Arch;
  machine_alignment : Z
}.

Record Impl := mkImpl {
  impl_name : string;
  impl_deps : gset string;
  impl_args : list (string * string);
  impl_is_aligned : bool
}.

Record Kernel := mkKernel {
  kernel_name : string;
  kernel_pname : string;
  kernel_impls : list Impl;
  kernel_args : list (string * string);
  kernel_arglist_types : string;
  kernel_arglist_full : string;
  kernel_arglist_names : string;
  kernel_has_dispatcher : bool
}.

(** [Arch::is_supported] *)
Definition is_supported (a : Arch) (compiler : string) : bool :=
  if bool_decide (arch_flags a = ∅) then true
  else bool_decide (is_Some (arch_flags a !! compiler)).

(** [Arch::get_flags] *)
Definition get_flags (a : Arch) (compiler : string) : list string :=
  match arch_flags a !! compiler with
  | Some fl => fl
  | None => []
  end.

(** [Kernel::get_impls]: the inner loop leaves at the first dependency that
    is not in [arch_set]. *)
Definition all_deps_satisfied (arch_set : gset string) (impl : Impl) : bool :=
  forallb (λ dep, bool_decide (dep ∈ arch_set)) (set_iter (impl_deps impl)).

Definition get_impls (k : Kernel) (arch_set : gset string) : list Impl :=
  List.filter (all_deps_satisfied arch_set) (kernel_impls k).

(** ** Machine registration ([register_machine], [parse_machines]) *)

Section Machines.

(** [g_arch_dict]: read-only while machines are registered. *)
Variable g_arch_dict : gmap string Arch.

(** [archs[i].find('|') != npos] *)
Definition has_bar (s : string) : bool := Str.contains_char "|" s.

(** The first loop of [register_machine]: the least index [i] whose entry
    holds a ['|'], as the entries before it, the entry, the entries after. *)
Fixpoint find_alternation (archs : list string)
  : option (list string * string * list string) :=
  match archs with
  | [] => None
  | a :: rest =>
      if has_bar a then Some ([], a, rest)
      else match find_alternation rest with
           | Some (before, e, after) => Some (a :: before, e, after)
           | None => None
           end
  end.

(** The loop over [archs] once no ['|'] is left: empty names are skipped,
    the first unknown name abandons the machine. *)
Fixpoint resolve_archs (archs : list string) : option (list string * list Arch) :=
  match archs with
  | [] => Some ([], [])
  | arch_name :: rest =>
      if decide (arch_name = "") then resolve_archs rest
      else match g_arch_dict !! arch_name with
           | Some a =>
               match resolve_archs rest with
               | Some (names, archs') => Some (arch_name :: names, a :: archs')
               | None => None
               end
           | None => None
           end
  end.

(** [max_align = 1; for arch: max_align = max(max_align, arch->alignment)] *)
Definition max_align (archs : list Arch) : Z :=
  fold_left (λ m a, Z.max m (arch_alignment a)) archs 1.

(** Lines 371-397: the machine without alternation. *)
Definition register_plain (name : string) (archs : list string)
    (g_machines : list Machine) : list Machine :=
  match resolve_archs archs with
  | None => g_machines
  | Some (names, resolved) =>
      match resolved with
      | [] => g_machines
      | _ => g_machines ++ [mkMachine name names resolved (max_align resolved)]
      end
  end.

(** [register_machine].  The recursion of the source is on a list with one
    entry holding ['|'] fewer; [fuel] bounds its depth and [None] is the
    exhausted fuel, which [register_machine] below never reaches. *)
Fixpoint register_machine_fuel (fuel : nat) (name : string) (archs : list string)
    (g_machines : list Machine) : option (list Machine) :=
  match fuel with
  | O => None
  | S fuel' =>
      match find_alternation archs with
      | Some (before, e, after) =>
          fold_left
            (λ acc part,
               match acc with
               | None => None
               | Some gm =>
                   if decide (part = "")
                   then register_machine_fuel fuel' name (before ++ after) gm
                   else register_machine_fuel fuel' (name +:+ "_" +:+ part)
                          (before ++ part :: after) gm
               end)
            (split e "|") (Some g_machines)
      | None => Some (register_plain name archs g_machines)
      end
  end.

Definition register_machine (name : string) (archs : list string)
    (g_machines : list Machine) : option (list Machine) :=
  register_machine_fuel (S (length archs)) name archs g_machines.

(** [parse_machines] on the parsed [<machine>] elements, each given by its
    [name] attribute and the whitespace-separated tokens of its [archs]
    child; elements without a name are skipped. *)
Definition parse_machines (elems : list (string * list string))
    (g_machines : list Machine) : option (list Machine) :=
  fold_left
    (λ acc elem,
       match acc with
       | None => None
       | Some gm =>
           if decide (elem.1 = "") then Some gm
           else register_machine elem.1 elem.2 gm
       end)
    elems (Some g_machines).

(** Measure of the recursion: the entries that hold a ['|']. *)
Definition bars (archs : list string) : nat := length (List.filter has_bar archs).

(** What holds of a machine that [register_plain] adds. *)
Definition machine_wf (m : Machine) : Prop :=
  machine_archs m ≠ []
  ∧ Forall2 (λ n a, n ≠ "" ∧ g_arch_dict !! n = Some a)
      (machine_arch_names m) (machine_archs m)
  ∧ machine_alignment m = max_align (machine_archs m).

End Machines.

(** [g_machine_dict]: a later machine of the same name replaces an earlier one. *)
Definition build_machine_dict (g_machines : list Machine) : gmap string Machine :=
  fold_left (λ d m, <[machine_name m := m]> d) g_machines ∅.

(** [g_arch_dict], built the same way from [g_archs]. *)
Definition build_arch_dict (g_archs : list Arch) : gmap string Arch :=
  fold_left (λ d a, <[arch_name a := a]> d) g_archs ∅.

(** ** Kernel assembly ([parse_kernels], from line 699 on) *)

(** A kernel header at line 699: the file stem and, for every candidate
    section in source order, the outcome of [parse_impl] on it. *)
Record KernelHeader := mkKernelHeader {
  header_stem : string;
  header_parsed : list Impl
}.

(** [kern.impls.erase(it)] at the first implementation named [dispatcher]. *)
Fixpoint erase_first_dispatcher (impls : list Impl) : option (list Impl) :=
  match impls with
  | [] => None
  | i :: rest =>
      if decide (impl_name i = "dispatcher") then Some rest
      else (λ r, i :: r) <$> erase_first_dispatcher rest
  end.

(** [std::regex_replace(name, std::regex("^volk_"), "p_")] *)
Definition make_pname (name : string) : string :=
  if Str.starts_with "volk_" name then "p_" +:+ Str.drop 5 name else name.

(** One iteration of the loop over the kernel files: the diagnostics written
    to [std::cerr] and the kernel pushed to [g_kernels], if any. *)
Definition assemble_kernel (h : KernelHeader) : list string * option Kernel :=
  let impls := List.filter (λ i, negb (bool_decide (impl_name i = ""))) (header_parsed h) in
  match impls with
  | [] => ([], None)
  | _ =>
      if negb (existsb (λ i, bool_decide (impl_name i = "generic")) impls)
      then (["Warning: " +:+ header_stem h +:+ " does not have a generic protokernel, skipping."],
            None)
      else
        let '(has_dispatcher, impls) :=
          match erase_first_dispatcher impls with
          | Some rest => (true, rest)
          | None => (false, impls)
          end in
        let args :=
          match impls with
          | first :: _ => impl_args first
          | [] => []
          end in
        ([], Some (mkKernel (header_stem h) (make_pname (header_stem h)) impls args
                     (join (args.*1) ", ")
                     (join ((λ a, a.1 +:+ " " +:+ a.2) <$> args) ", ")
                     (join (args.*2) ", ")
                     has_dispatcher))
  end.

(** [parse_kernels] over the sorted header files: the state is the pair of
    the [std::cerr] log and [g_kernels]. *)
Definition parse_kernels (headers : list KernelHeader)
    (st : list string * list Kernel) : list string * list Kernel :=
  fold_left
    (λ st h,
       let '(diag, k) := assemble_kernel h in
       (st.1 ++ diag, st.2 ++ option_list k))
    headers st.

(** ** Comment removal ([remove_comments]) *)

(** The four flag combinations the scanner is ever in: [in_line_comment],
    [in_block_comment], [in_string] with its [string_char], or none. *)
Inductive ScanMode :=
| InCode
| InLineComment
| InBlockComment
| InString (string_char : ascii).

(** The loop of [remove_comments] from position [i] on, [code] being the text
    from [i]; [++i] inside the body is the recursion on the text after the
    second character.  Returns the text appended to [result] and the flags at
    the end of the text. *)
Fixpoint scan_comments (mode : ScanMode) (code : string) : string * ScanMode :=
  match code with
  | EmptyString => (EmptyString, mode)
  | String c rest =>
      let emit (c : ascii) (r : string * ScanMode) := (String c r.1, r.2) in
      match mode with
      | InLineComment =>
          if decide (c = "010"%char) then emit c (scan_comments InCode rest)
          else scan_comments InLineComment rest
      | InBlockComment =>
          match rest with
          | String c2 rest' =>
              if decide (c = "*"%char ∧ c2 = "/"%char) then scan_comments InCode rest'
              else scan_comments InBlockComment rest
          | EmptyString => scan_comments InBlockComment rest
          end
      | InString q =>
          match rest with
          | String c2 rest' =>
              if decide (c = "\"%char) then emit c (emit c2 (scan_comments (InString q) rest'))
              else if decide (c = q) then emit c (scan_comments InCode rest)
              else emit c (scan_comments (InString q) rest)
          | EmptyString =>
              if decide (c = q) then emit c (scan_comments InCode rest)
              else emit c (scan_comments (InString q) rest)
          end
      | InCode =>
          if decide (c = "034"%char ∨ c = "'"%char) then emit c (scan_comments (InString c) rest)
          else
            match rest with
            | String c2 rest' =>
                if decide (c = "/"%char ∧ c2 = "/"%char) then scan_comments InLineComment rest'
                else if decide (c = "/"%char ∧ c2 = "*"%char) then scan_comments InBlockComment rest'
                else emit c (scan_comments InCode rest)
            | EmptyString => emit c (scan_comments InCode rest)
            end
      end
  end.

Definition remove_comments (code : string) : string := (scan_comments InCode code).1.

(** Predicates the statements on [remove_comments] use. *)

(** The body of a literal delimited by [q]: characters other than [q] and
    the backslash, and backslash escapes of any character. *)
Fixpoint literal_body (q : ascii) (s : string) : bool :=
  match s with
  | EmptyString => true
  | String c rest =>
      if decide (c = "\"%char) then
        match rest with
        | String _ rest' => literal_body q rest'
        | EmptyString => false
        end
      else if decide (c = q) then false
      else literal_body q rest
  end.

(** The text holds the two characters [*/] next to each other. *)
Fixpoint has_block_end (s : string) : bool :=
  match s with
  | EmptyString => false
  | String c rest =>
      match rest with
      | String c2 _ => bool_decide (c = "*"%char ∧ c2 = "/"%char) || has_block_end rest
      | EmptyString => false
      end
  end.

(** The text ends with the character [c]. *)
Fixpoint ends_with_char (c : ascii) (s : string) : bool :=
  match s with
  | EmptyString => false
  | String a rest =>
      match rest with
      | EmptyString => bool_decide (a = c)
      | String _ _ => ends_with_char c rest
      end
  end.

(** The text starts with one of the characters that follow a ['/'] in a
    comment opener. *)
Definition starts_comment_char (s : string) : bool :=
  match s with
  | String c _ => bool_decide (c = "/"%char ∨ c = "*"%char)
  | EmptyString => false
  end.

(** The scanner, started in code on [pre], is in code again at its end. *)
Definition ends_in_code (pre : string) : Prop := (scan_comments InCode pre).2 = InCode.

(** The quote of a literal is never the backslash. *)
Definition mode_ok (m : ScanMode) : Prop :=
  match m with
  | InString q => q ≠ "\"%char
  | _ => True
  end.

(** A plain architecture name: not empty, without alternation. *)
Definition arch_name_ok (n : string) : Prop := n ≠ "" ∧ has_bar n = false.

(** The implementations of a header that [parse_kernels] keeps: those with a
    name. *)
Definition named_impls (h : KernelHeader) : list Impl :=
  List.filter (λ i, negb (bool_decide (impl_name i = ""))) (header_parsed h).

Definition has_generic (impls : list Impl) : Prop :=
  ∃ i, i ∈ impls ∧ impl_name i = "generic".

Definition generic_warning (h : KernelHeader) : string :=
  "Warning: " +:+ header_stem h +:+ " does not have a generic protokernel, skipping.".

(** ** Regular expressions ([std::regex], ECMAScript grammar)

    The constructs the patterns of the source use, matched the way
    [std::regex] matches them: by backtracking, alternatives in priority
    order, a greedy quantifier trying one more iteration first and a lazy
    one trying none first. *)

(** An item of a character class. *)
Inductive ClassItem :=
| CAny                 (* [.]: any character but a line terminator *)
| CSpace               (* [\s] *)
| CWord                (* [\w] *)
| CDigit               (* [\d] *)
| CLit (c : ascii).

Inductive Regex :=
| Eps
| Class (negated : bool) (items : list ClassItem)
| Seq (r1 r2 : Regex)
| Star (greedy : bool) (r : Regex)
| Group (i : nat) (r : Regex)   (* the capturing group number [i] *)
| Bol.                          (* [^] *)

Definition item_matches (c : ascii) (it : ClassItem) : bool :=
  match it with
  | CAny => negb (bool_decide (c = "010"%char ∨ c = "013"%char))
  | CSpace => is_space c
  | CWord => is_alnum c || bool_decide (c = "_"%char)
  | CDigit => is_digit c
  | CLit a => bool_decide (c = a)
  end.

Definition class_matches (negated : bool) (items : list ClassItem) (c : ascii) : bool :=
  xorb negated (existsb (item_matches c) items).

(** The sub-matches, most recent first. *)
Definition Captures := list (nat * string).

Fixpoint capture (i : nat) (caps : Captures) : string :=
  match caps with
  | [] => ""
  | (j, s) :: caps' => if decide (i = j) then s else capture i caps'
  end.

Section Matcher.

Context {A : Type}.

(** A continuation: what is left to match once a piece has matched, given
    whether the position is still the beginning of the input, the rest of
    the input and the sub-matches so far. *)
Definition Cont : Type := bool → string → Captures → option A.

(** The iterations of a quantified piece [step] followed by [k]; every
    iteration consumes at least one character, so that [n], the length of
    the input at the first one, bounds their number. *)
Fixpoint star_iter (greedy : bool) (step : bool → string → Captures → Cont → option A)
    (k : Cont) (n : nat) (start : bool) (s : string) (caps : Captures) : option A :=
  match n with
  | O => k start s caps
  | S n' =>
      let more (_ : unit) :=
        step start s caps
          (λ start' s' caps',
             if decide (Str.len s' < Str.len s)%nat
             then star_iter greedy step k n' start' s' caps' else None) in
      if greedy then
        match more () with
        | Some x => Some x
        | None => k start s caps
        end
      else
        match k start s caps with
        | Some x => Some x
        | None => more ()
        end
  end.

(** [rmatch r start s caps k]: match [r] at the front of [s], [start]
    telling whether this is the beginning of the input, then hand the rest
    to [k]; [None] when every alternative fails. *)
Fixpoint rmatch (r : Regex) (start : bool) (s : string) (caps : Captures)
    (k : Cont) {struct r} : option A :=
  match r with
  | Eps => k start s caps
  | Class negated items =>
      match s with
      | String c s' => if class_matches negated items c then k false s' caps else None
      | EmptyString => None
      end
  | Seq r1 r2 => rmatch r1 start s caps (λ start' s' caps', rmatch r2 start' s' caps' k)
  | Group i r1 =>
      rmatch r1 start s caps
        (λ start' s' caps', k start' s' ((i, Str.take (Str.len s - Str.len s') s) :: caps'))
  | Bol => if start then k start s caps else None
  | Star greedy r1 => star_iter greedy (rmatch r1) k (Str.len s) start s caps
  end.

End Matcher.

(** The result of a match: [prefix()], the sub-matches, [suffix()]. *)
Record MatchResult := mkMatch {
  match_prefix : string;
  match_caps : Captures;
  match_suffix : string
}.

(** [m[i].str()] *)
Definition group (i : nat) (m : MatchResult) : string := capture i (match_caps m).

(** [std::regex_match]: the whole of [s] matches. *)
Definition regex_match (r : Regex) (s : string) : option MatchResult :=
  rmatch r true s []
    (λ _ s' caps, match s' with
                  | EmptyString => Some (mkMatch "" caps "")
                  | _ => None
                  end).

(** [std::regex_search]: the match at the least position. *)
Fixpoint search_from (r : Regex) (start : bool) (before : string) (s : string)
    : option MatchResult :=
  match rmatch r start s [] (λ _ s' caps, Some (mkMatch (String.rev before) caps s')) with
  | Some m => Some m
  | None =>
      match s with
      | String c s' => search_from r false (String c before) s'
      | EmptyString => None
      end
  end.

Definition regex_search (r : Regex) (s : string) : option MatchResult :=
  search_from r true "" s.

(** Pattern combinators, named after the syntax they stand for. *)
Definition chr (c : ascii) : Regex := Class false [CLit c].
Fixpoint lit (s : string) : Regex :=
  match s with
  | EmptyString => Eps
  | String c EmptyString => chr c
  | String c s' => Seq (chr c) (lit s')
  end.
Fixpoint seq (rs : list Regex) : Regex :=
  match rs with
  | [] => Eps
  | [r] => r
  | r :: rs' => Seq r (seq rs')
  end.
Definition plus (r : Regex) : Regex := Seq r (Star true r).
Definition lazy_plus (r : Regex) : Regex := Seq r (Star false r).
Definition ws : Regex := Class false [CSpace].          (* [\s] *)
Definition non_ws : Regex := Class true [CSpace].       (* [\S] *)
Definition word : Regex := Class false [CWord].         (* [\w] *)
Definition digit : Regex := Class false [CDigit].       (* [\d] *)
Definition any : Regex := Class false [CAny].           (* [.] *)
Definition not_chr (c : ascii) : Regex := Class true [CLit c].   (* [[^c]] *)
Definition ws_star : Regex := Star true ws.             (* [\s*] *)
Definition ws_plus : Regex := plus ws.                  (* [\s+] *)

(** ** The template engine ([TemplateEngine]) *)

(** The run of a piece of code that may throw: [Thrown] is a C++ exception
    leaving it, [Starved] the exhausted fuel of a recursion of this model. *)
Inductive Outcome (A : Type) :=
| Done (a : A)
| Thrown (what : string)
| Starved.
Arguments Done {A} a.
Arguments Thrown {A} what.
Arguments Starved {A}.

Global Instance outcome_ret : MRet Outcome := λ A a, Done a.
Global Instance outcome_bind : MBind Outcome := λ A B f m,
  match m with
  | Done a => f a
  | Thrown what => Thrown what
  | Starved => Starved
  end.

(** The catalogs, read-only while a template is rendered. *)
Record Globals := mkGlobals {
  g_archs : list Arch;
  g_machines : list Machine;
  g_machine_dict : gmap string Machine;
  g_kernels : list Kernel
}.

(** The data members of [TemplateEngine]. *)
Record Engine := mkEngine {
  vars_ : gmap string string;
  current_kernel_ : option Kernel;
  current_arch_ : option Arch;
  current_machine_ : option Machine;
  current_impl_ : option Impl;
  current_arg_index_ : Z;
  current_check_index_ : Z;
  current_enum_index_ : Z;
  num_open_parens_ : Z;
  end_open_parens_ : string;
  current_impls_ : list Impl;
  len_archs_ : nat;
  render_depth_ : Z
}.

(** A default-constructed engine. *)
Definition new_engine : Engine :=
  mkEngine ∅ None None None None (-1) (-1) (-1) 0 "" [] 0 0.

Definition max_render_depth_ : Z := 20.

Definition set_vars (v : gmap string string) (e : Engine) : Engine :=
  mkEngine v (current_kernel_ e) (current_arch_ e) (current_machine_ e)
    (current_impl_ e) (current_arg_index_ e) (current_check_index_ e)
    (current_enum_index_ e) (num_open_parens_ e) (end_open_parens_ e)
    (current_impls_ e) (len_archs_ e) (render_depth_ e).
Definition set_current_kernel (v : option Kernel) (e : Engine) : Engine :=
  mkEngine (vars_ e) v (current_arch_ e) (current_machine_ e)
    (current_impl_ e) (current_arg_index_ e) (current_check_index_ e)
    (current_enum_index_ e) (num_open_parens_ e) (end_open_parens_ e)
    (current_impls_ e) (len_archs_ e) (render_depth_ e).
Definition set_current_arch (v : option Arch) (e : Engine) : Engine :=
  mkEngine (vars_ e) (current_kernel_ e) v (current_machine_ e)
    (current_impl_ e) (current_arg_index_ e) (current_check_index_ e)
    (current_enum_index_ e) (num_open_parens_ e) (end_open_parens_ e)
    (current_impls_ e) (len_archs_ e) (render_depth_ e).
Definition set_current_machine (v : option Machine) (e : Engine) : Engine :=
  mkEngine (vars_ e) (current_kernel_ e) (current_arch_ e) v
    (current_impl_ e) (current_arg_index_ e) (current_check_index_ e)
    (current_enum_index_ e) (num_open_parens_ e) (end_open_parens_ e)
    (current_impls_ e) (len_archs_ e) (render_depth_ e).
Definition set_current_arg_index (v : Z) (e : Engine) : Engine :=
  mkEngine (vars_ e) (current_kernel_ e) (current_arch_ e) (current_machine_ e)
    (current_impl_ e) v (current_check_index_ e)
    (current_enum_index_ e) (num_open_parens_ e) (end_open_parens_ e)
    (current_impls_ e) (len_archs_ e) (render_depth_ e).
Definition set_current_check_index (v : Z) (e : Engine) : Engine :=
  mkEngine (vars_ e) (current_kernel_ e) (current_arch_ e) (current_machine_ e)
    (current_impl_ e) (current_arg_index_ e) v
    (current_enum_index_ e) (num_open_parens_ e) (end_open_parens_ e)
    (current_impls_ e) (len_archs_ e) (render_depth_ e).
Definition set_current_enum_index (v : Z) (e : Engine) : Engine :=
  mkEngine (vars_ e) (current_kernel_ e) (current_arch_ e) (current_machine_ e)
    (current_impl_ e) (current_arg_index_ e) (current_check_index_ e)
    v (num_open_parens_ e) (end_open_parens_ e)
    (current_impls_ e) (len_archs_ e) (render_depth_ e).
Definition set_num_open_parens (v : Z) (e : Engine) : Engine :=
  mkEngine (vars_ e) (current_kernel_ e) (current_arch_ e) (current_machine_ e)
    (current_impl_ e) (current_arg_index_ e) (current_check_index_ e)
    (current_enum_index_ e) v (end_open_parens_ e)
    (current_impls_ e) (len_archs_ e) (render_depth_ e).
Definition set_end_open_parens (v : string) (e : Engine) : Engine :=
  mkEngine (vars_ e) (current_kernel_ e) (current_arch_ e) (current_machine_ e)
    (current_impl_ e) (current_arg_index_ e) (current_check_index_ e)
    (current_enum_index_ e) (num_open_parens_ e) v
    (current_impls_ e) (len_archs_ e) (render_depth_ e).
Definition set_current_impls (v : list Impl) (e : Engine) : Engine :=
  mkEngine (vars_ e) (current_kernel_ e) (current_arch_ e) (current_machine_ e)
    (current_impl_ e) (current_arg_index_ e) (current_check_index_ e)
    (current_enum_index_ e) (num_open_parens_ e) (end_open_parens_ e)
    v (len_archs_ e) (render_depth_ e).
Definition set_len_archs (v : nat) (e : Engine) : Engine :=
  mkEngine (vars_ e) (current_kernel_ e) (current_arch_ e) (current_machine_ e)
    (current_impl_ e) (current_arg_index_ e) (current_check_index_ e)
    (current_enum_index_ e) (num_open_parens_ e) (end_open_parens_ e)
    (current_impls_ e) v (render_depth_ e).
Definition set_render_depth (v : Z) (e : Engine) : Engine :=
  mkEngine (vars_ e) (current_kernel_ e) (current_arch_ e) (current_machine_ e)
    (current_impl_ e) (current_arg_index_ e) (current_check_index_ e)
    (current_enum_index_ e) (num_open_parens_ e) (end_open_parens_ e)
    (current_impls_ e) (len_archs_ e) v.

(** [TemplateEngine::set_var] *)
Definition set_var (name value : string) (e : Engine) : Engine :=
  set_vars (<[name := value]> (vars_ e)) e.

(** [std::to_string] of an integer. *)
Fixpoint digits_of (fuel : nat) (n : N) (acc : string) : string :=
  match fuel with
  | O => acc
  | S fuel' =>
      let acc' := String (ascii_of_N (48 + n mod 10)) acc in
      if (n / 10 =? 0)%N then acc' else digits_of fuel' (n / 10)%N acc'
  end.

Definition to_string (z : Z) : string :=
  if z <? 0 then String "-" (digits_of (S (N.size_nat (Z.to_N (- z)))) (Z.to_N (- z)) "")
  else digits_of (S (N.size_nat (Z.to_N z))) (Z.to_N z) "".

(** [std::stoi] on a run of decimal digits: the value, or [std::out_of_range]
    above [INT_MAX]. *)
Definition digit_value (c : ascii) : Z := Z.of_nat (nat_of_ascii c) - 48.

Fixpoint decimal_value (acc : Z) (s : string) : Z :=
  match s with
  | EmptyString => acc
  | String c s' => decimal_value (10 * acc + digit_value c) s'
  end.

Definition stoi (s : string) : Outcome Z :=
  let v := decimal_value 0 s in
  if v <=? 2147483647 then Done v else Thrown "stoi".

(** [value.substr(0, len)] *)
Definition substr0 (len : Z) (value : string) : string :=
  Str.take (Z.to_nat (Z.min len (Z.of_nat (Str.len value)))) value.

(** The banner [render] starts its result with. *)
Definition banner : string :=
  String "010" "/* this file was generated by volk template utils, do not edit! */"
  +:+ String "010" (String "010" "").

(** *** The patterns of [render] *)

(** [^\s*%\s*for\s+(\w+)\s+in\s+([\w.]+)\s*:] *)
Definition for_re : Regex :=
  seq [Bol; ws_star; chr "%"; ws_star; lit "for"; ws_plus; Group 1 (plus word);
       ws_plus; lit "in"; ws_plus; Group 2 (plus (Class false [CWord; CLit "."]));
       ws_star; chr ":"].

(** [^\s*%\s*for\s+(\w+)\s*,\s*(\w+)\s+in\s+enumerate\((\w+)\)\s*:] *)
Definition for_enum_re : Regex :=
  seq [Bol; ws_star; chr "%"; ws_star; lit "for"; ws_plus; Group 1 (plus word);
       ws_star; chr ","; ws_star; Group 2 (plus word); ws_plus; lit "in"; ws_plus;
       lit "enumerate("; Group 3 (plus word); chr ")"; ws_star; chr ":"].

(** [^\s*%\s*for\s+(\w+)\s*,\s*(\w+)\s+in\s+([\w.]+)\s*:] *)
Definition for_tuple_re : Regex :=
  seq [Bol; ws_star; chr "%"; ws_star; lit "for"; ws_plus; Group 1 (plus word);
       ws_star; chr ","; ws_star; Group 2 (plus word); ws_plus; lit "in"; ws_plus;
       Group 3 (plus (Class false [CWord; CLit "."])); ws_star; chr ":"].

(** [^\s*%\s*endfor] *)
Definition endfor_re : Regex := seq [Bol; ws_star; chr "%"; ws_star; lit "endfor"].

(** [^\s*%\s*if\s+(.+?)\s*:] *)
Definition if_re : Regex :=
  seq [Bol; ws_star; chr "%"; ws_star; lit "if"; ws_plus; Group 1 (lazy_plus any);
       ws_star; chr ":"].

(** [^\s*%\s*elif\s+(.+?)\s*:] *)
Definition elif_re : Regex :=
  seq [Bol; ws_star; chr "%"; ws_star; lit "elif"; ws_plus; Group 1 (lazy_plus any);
       ws_star; chr ":"].

(** [^\s*%\s*else\s*:] *)
Definition else_re : Regex :=
  seq [Bol; ws_star; chr "%"; ws_star; lit "else"; ws_star; chr ":"].

(** [^\s*%\s*endif] *)
Definition endif_re : Regex := seq [Bol; ws_star; chr "%"; ws_star; lit "endif"].

(** [<%(.*?)%>] *)
Definition code_block_re : Regex := seq [lit "<%"; Group 1 (Star false any); lit "%>"].

(** [\$\{([^}]+)\}] *)
Definition var_re : Regex := seq [lit "${"; Group 1 (plus (not_chr "}")); chr "}"].

(** *** The patterns of [evaluate_condition] *)

(** A dotted path [\w+(?:\.\w+)*] as group 1, then [\[:(\d+)\]\s*==\s*], then
    a double-quoted text without double quote as group 3. *)
Definition slice_eq_re : Regex :=
  seq [Group 1 (seq [plus word; Star true (seq [chr "."; plus word])]);
       lit "[:"; Group 2 (plus digit); chr "]"; ws_star; lit "=="; ws_star;
       chr "034"; Group 3 (Star true (not_chr "034")); chr "034"].

(** ['([^']+)'\s+in\s+(\w+)] *)
Definition star_re : Regex :=
  seq [chr "'"; Group 1 (plus (not_chr "'")); chr "'"; ws_plus; lit "in"; ws_plus;
       Group 2 (plus word)].

(** [Q([^Q]+)Q\s+in\s+(\S+)], [Q] being the double quote *)
Definition str_in_re : Regex :=
  seq [chr "034"; Group 1 (plus (not_chr "034")); chr "034"; ws_plus; lit "in"; ws_plus;
       Group 2 (plus non_ws)].

(** [(\S+)\s+in\s+(\S+)] *)
Definition in_re : Regex :=
  seq [Group 1 (plus non_ws); ws_plus; lit "in"; ws_plus; Group 2 (plus non_ws)].

(** *** The patterns of [execute_code_block] *)

(** [this_machine\s*=\s*machine_dict\[args\[0\]\]] *)
Definition machine_re : Regex :=
  seq [lit "this_machine"; ws_star; chr "="; ws_star; lit "machine_dict[args[0]]"].
(** [arch_names\s*=\s*this_machine\.arch_names] *)
Definition arch_names_re : Regex :=
  seq [lit "arch_names"; ws_star; chr "="; ws_star; lit "this_machine.arch_names"].
(** [num_open_parens\s*=\s*0] *)
Definition num_parens_re : Regex :=
  seq [lit "num_open_parens"; ws_star; chr "="; ws_star; chr "0"].
(** [num_open_parens\s*\+=\s*1] *)
Definition inc_parens_re : Regex :=
  seq [lit "num_open_parens"; ws_star; lit "+="; ws_star; chr "1"].
(** [end_open_parens\s*=\s*'\)'\*num_open_parens] *)
Definition end_parens_re : Regex :=
  seq [lit "end_open_parens"; ws_star; chr "="; ws_star; lit "')'*num_open_parens"].
(** [impls\s*=\s*kern\.get_impls\(arch_names\)] *)
Definition impls_re : Regex :=
  seq [lit "impls"; ws_star; chr "="; ws_star; lit "kern.get_impls(arch_names)"].
(** [make_arch_have_list\s*=] *)
Definition make_have_re : Regex := seq [lit "make_arch_have_list"; ws_star; chr "="].
(** [this_machine_name\s*=] *)
Definition machine_name_re : Regex := seq [lit "this_machine_name"; ws_star; chr "="].
(** [kern_name\s*=] *)
Definition kern_name_re : Regex := seq [lit "kern_name"; ws_star; chr "="].
(** [make_impl_name_list\s*=] *)
Definition impl_names_re : Regex := seq [lit "make_impl_name_list"; ws_star; chr "="].
(** [make_impl_deps_list\s*=] *)
Definition impl_deps_re : Regex := seq [lit "make_impl_deps_list"; ws_star; chr "="].
(** [make_impl_align_list\s*=] *)
Definition impl_align_re : Regex := seq [lit "make_impl_align_list"; ws_star; chr "="].
(** [make_impl_fcn_list\s*=] *)
Definition impl_fcn_re : Regex := seq [lit "make_impl_fcn_list"; ws_star; chr "="].
(** [len_impls\s*=] *)
Definition len_impls_re : Regex := seq [lit "len_impls"; ws_star; chr "="].
(** [len_archs\s*=\s*len\(archs\)] *)
Definition len_archs_re : Regex :=
  seq [lit "len_archs"; ws_star; chr "="; ws_star; lit "len(archs)"].

Definition matches (r : Regex) (s : string) : bool := bool_decide (is_Some (regex_match r s)).
Definition found (r : Regex) (s : string) : bool := bool_decide (is_Some (regex_search r s)).

(** *** [evaluate_expression] *)

Definition dq : string := String "034" "".

Section Render.

Variable G : Globals.
(** [extra_args] *)
Variable extra_args : list string.

Definition nth_arg (l : list (string * string)) (i : Z) : option (string * string) :=
  if (0 <=? i) && (i <? Z.of_nat (length l)) then l !! Z.to_nat i else None.

Definition evaluate_expression (e : Engine) (expr : string) : string :=
  let x := trim expr in
  match vars_ e !! x with
  | Some v => v
  | None =>
  if decide (x = "end_open_parens") then end_open_parens_ e else
  let kern_field :=
    match current_kernel_ e with
    | Some k =>
        if decide (x = "kern.name") then Some (kernel_name k)
        else if decide (x = "kern.pname") then Some (kernel_pname k)
        else if decide (x = "kern.arglist_full") then Some (kernel_arglist_full k)
        else if decide (x = "kern.arglist_names") then Some (kernel_arglist_names k)
        else if decide (x = "kern.arglist_types") then Some (kernel_arglist_types k)
        else if decide (x = "kern.has_dispatcher")
             then Some (if kernel_has_dispatcher k then "1" else "")
        else None
    | None => None
    end in
  match kern_field with
  | Some v => v
  | None =>
  let arch_field :=
    match current_arch_ e with
    | Some a =>
        if decide (x = "arch.name") then Some (arch_name a)
        else if decide (x = "arch.name.upper()") then Some (to_upper (arch_name a))
        else None
    | None => None
    end in
  match arch_field with
  | Some v => v
  | None =>
  let machine_field :=
    match current_machine_ e with
    | Some m =>
        if decide (x = "this_machine.alignment") then Some (to_string (machine_alignment m))
        else if decide (x = "this_machine.name") then Some (machine_name m)
        else if decide (x = "machine.name") then Some (machine_name m)
        else if decide (x = "machine.name.upper()") then Some (to_upper (machine_name m))
        else None
    | None => None
    end in
  match machine_field with
  | Some v => v
  | None =>
  let arg_field :=
    match current_kernel_ e with
    | Some k =>
        match nth_arg (kernel_args k) (current_arg_index_ e) with
        | Some a =>
            if decide (x = "arg_type") then Some a.1
            else if decide (x = "arg_name") then Some a.2
            else None
        | None => None
        end
    | None => None
    end in
  match arg_field with
  | Some v => v
  | None =>
  let check_field :=
    match current_arch_ e with
    | Some a =>
        if (0 <=? current_check_index_ e)
           && (current_check_index_ e <? Z.of_nat (length (arch_checks a)))
        then match arch_checks a !! Z.to_nat (current_check_index_ e) with
             | Some ck => if decide (x = "check") then Some ck.1 else None
             | None => None
             end
        else None
    | None => None
    end in
  match check_field with
  | Some v => v
  | None =>
  if bool_decide (x = "i") && (0 <=? current_enum_index_ e) then to_string (current_enum_index_ e)
  else if bool_decide (x = "len_archs") && (0 <? len_archs_ e)%nat
       then to_string (Z.of_nat (len_archs_ e))
  else ""
  end end end end end
  end.

(** *** [evaluate_condition] *)

(** The fixed list of deprecated kernels. *)
Definition deprecated : list string :=
  ["volk_16i_x5_add_quad_16i_x4"; "volk_16i_branch_4_state_8";
   "volk_16i_max_star_16i"; "volk_16i_max_star_horizontal_16i";
   "volk_16i_permute_and_scalar_add"; "volk_16i_x4_quad_max_star_16i";
   "volk_32fc_s32fc_multiply_32fc"; "volk_32fc_s32fc_x2_rotator_32fc";
   "volk_32fc_x2_s32fc_multiply_conjugate_add_32fc"].

(** [haystack.find(needle) != npos] *)
Definition str_contains (needle haystack : string) : bool :=
  bool_decide (is_Some (Str.find needle haystack)).

(** The recursion is on the two sides of the first [" or "] (or [" and "]),
    both shorter than the condition; [fuel] bounds its depth. *)
Fixpoint evaluate_condition_fuel (fuel : nat) (e : Engine) (cond : string) : Outcome bool :=
  match fuel with
  | O => Starved
  | S fuel' =>
      let c := trim cond in
      match Str.find " or " c with
      | Some or_pos =>
          l ← evaluate_condition_fuel fuel' e (Str.take or_pos c);
          if (l : bool) then Done true
          else evaluate_condition_fuel fuel' e (Str.drop (or_pos + 4) c)
      | None =>
      match Str.find " and " c with
      | Some and_pos =>
          l ← evaluate_condition_fuel fuel' e (Str.take and_pos c);
          if (l : bool) then evaluate_condition_fuel fuel' e (Str.drop (and_pos + 5) c)
          else Done false
      | None =>
      match regex_match slice_eq_re c with
      | Some m =>
          len ← stoi (group 2 m);
          Done (bool_decide (substr0 len (evaluate_expression e (group 1 m)) = group 3 m))
      | None =>
      match regex_match star_re c with
      | Some m => Done (str_contains (group 1 m) (evaluate_expression e (group 2 m)))
      | None =>
      match regex_match str_in_re c with
      | Some m => Done (str_contains (group 1 m) (evaluate_expression e (group 2 m)))
      | None =>
      match regex_match in_re c with
      | Some m =>
          if decide (group 2 m = "deprecated_kernels")
          then Done (bool_decide (evaluate_expression e (group 1 m) ∈ deprecated))
          else Done false
      | None =>
          if Str.contains_char "." c then
            let value := evaluate_expression e c in
            Done (negb (bool_decide (value = "")) && negb (bool_decide (value = "0"))
                  && negb (bool_decide (value = "false")))
          else Done false
      end end end end end end
  end.

Definition evaluate_condition (e : Engine) (cond : string) : Outcome bool :=
  evaluate_condition_fuel (S (Str.len cond)) e cond.

(** *** [execute_code_block] *)

Definition have_bit (name : string) : string := "(1 << LV_" +:+ to_upper name +:+ ")".

Definition braces (items : list string) : string := "{" +:+ join items ", " +:+ "}".

(** The replacement text and the engine after the statement. *)
Definition execute_code_block (e : Engine) (code : string) : string * Engine :=
  let c := trim code in
  if found machine_re c then
    match extra_args with
    | arg0 :: _ =>
        match g_machine_dict G !! arg0 with
        | Some m => ("", set_current_machine (Some m) e)
        | None => ("", e)
        end
    | [] => ("", e)
    end
  else if found arch_names_re c then ("", e)
  else if found num_parens_re c then ("", set_num_open_parens 0 e)
  else if found inc_parens_re c then ("", set_num_open_parens (num_open_parens_ e + 1) e)
  else if found end_parens_re c
       then ("", set_end_open_parens (Str.replicate (Z.to_nat (num_open_parens_ e)) ")") e)
  else
  let impls :=
    if found impls_re c then
      match current_kernel_ e, current_machine_ e with
      | Some k, Some m =>
          Some ("", set_current_impls
                      (get_impls k (list_to_set (machine_arch_names m))) e)
      | _, _ => None
      end
    else None in
  match impls with
  | Some r => r
  | None =>
  let have :=
    if found make_have_re c then
      match current_machine_ e with
      | Some m => Some (join ((λ a, have_bit (arch_name a)) <$> machine_archs m) " | ", e)
      | None => None
      end
    else None in
  match have with
  | Some r => r
  | None =>
  let mname :=
    if found machine_name_re c then
      match current_machine_ e with
      | Some m => Some (dq +:+ machine_name m +:+ dq, e)
      | None => None
      end
    else None in
  match mname with
  | Some r => r
  | None =>
  let kname :=
    if found kern_name_re c then
      match current_kernel_ e with
      | Some k => Some (dq +:+ kernel_name k +:+ dq, e)
      | None => None
      end
    else None in
  match kname with
  | Some r => r
  | None =>
  if found impl_names_re c
  then (braces ((λ i, dq +:+ impl_name i +:+ dq) <$> current_impls_ e), e)
  else if found impl_deps_re c
  then (braces ((λ i, match have_bit <$> set_iter (impl_deps i) with
                      | [] => "0"
                      | dep_parts => join dep_parts " | "
                      end) <$> current_impls_ e), e)
  else if found impl_align_re c
  then (braces ((λ i, if impl_is_aligned i then "true" else "false") <$> current_impls_ e), e)
  else
  let fcns :=
    if found impl_fcn_re c then
      match current_kernel_ e with
      | Some k =>
          Some (braces ((λ i, kernel_name k +:+ "_" +:+ impl_name i) <$> current_impls_ e), e)
      | None => None
      end
    else None in
  match fcns with
  | Some r => r
  | None =>
  if found len_impls_re c then (to_string (Z.of_nat (length (current_impls_ e))), e)
  else if found len_archs_re c then ("", set_len_archs (length (g_archs G)) e)
  else ("", e)
  end end end end end.

(** *** [render] *)

(** [LoopState] and [IfState], the local structures of [render]. *)
Record LoopState := mkLoop {
  loop_var_name : string;
  loop_index_var_name : string;
  loop_collection : string;
  loop_index : nat;
  loop_body : string;
  loop_collecting : bool;
  loop_is_enumerate : bool;
  loop_depth : Z
}.

Record IfState := mkIf {
  if_condition_met : bool;
  if_in_else : bool;
  if_depth : Z
}.

(** What [process_line] reads and writes: the engine, [std::cerr], and the
    locals of [render] it captures by reference.  The back of a
    [std::vector] used as a stack is the head of the list. *)
Record RenderState := mkRenderState {
  rs_engine : Engine;
  rs_cerr : list string;
  rs_loop_stack : list LoopState;
  rs_if_stack : list IfState;
  rs_in_multiline_block : bool;
  rs_multiline_block_content : string
}.

Definition with_engine (e : Engine) (cerr : list string) (st : RenderState) : RenderState :=
  mkRenderState e cerr (rs_loop_stack st) (rs_if_stack st)
    (rs_in_multiline_block st) (rs_multiline_block_content st).
Definition with_loop_stack (ls : list LoopState) (st : RenderState) : RenderState :=
  mkRenderState (rs_engine st) (rs_cerr st) ls (rs_if_stack st)
    (rs_in_multiline_block st) (rs_multiline_block_content st).
Definition with_if_stack (ifs : list IfState) (st : RenderState) : RenderState :=
  mkRenderState (rs_engine st) (rs_cerr st) (rs_loop_stack st) ifs
    (rs_in_multiline_block st) (rs_multiline_block_content st).
Definition with_multiline (on : bool) (content : string) (st : RenderState) : RenderState :=
  mkRenderState (rs_engine st) (rs_cerr st) (rs_loop_stack st) (rs_if_stack st) on content.

Definition with_loop_depth (d : Z) (l : LoopState) : LoopState :=
  mkLoop (loop_var_name l) (loop_index_var_name l) (loop_collection l) (loop_index l)
    (loop_body l) (loop_collecting l) (loop_is_enumerate l) d.
Definition with_loop_body (b : string) (l : LoopState) : LoopState :=
  mkLoop (loop_var_name l) (loop_index_var_name l) (loop_collection l) (loop_index l)
    b (loop_collecting l) (loop_is_enumerate l) (loop_depth l).

Definition newline : string := String "010" "".

(** [std::getline] over the template: the lines, without their newline. *)
Fixpoint getlines (s : string) : list string :=
  match s with
  | EmptyString => []
  | String c rest =>
      if decide (c = "010"%char) then EmptyString :: getlines rest
      else match getlines rest with
           | [] => [String c EmptyString]
           | l :: ls => String c l :: ls
           end
  end.

(** The [while (std::regex_search(processed, code_match, code_block_re))]
    loop; [remaining] is [max_code_iterations - code_iterations]. *)
Fixpoint code_block_loop (remaining : nat) (processed : string) (e : Engine)
    (cerr : list string) : string * Engine * list string :=
  match regex_search code_block_re processed with
  | None => (processed, e, cerr)
  | Some m =>
      match remaining with
      | O => (processed, e,
              cerr ++ ["Error: Code block substitution exceeded max iterations"])
      | S remaining' =>
          let r := execute_code_block e (group 1 m) in
          code_block_loop remaining' (match_prefix m +:+ r.1 +:+ match_suffix m) r.2 cerr
      end
  end.

(** The [while (std::regex_search(processed, var_match, var_re))] loop;
    [remaining] is [max_var_iterations - var_iterations]. *)
Fixpoint var_loop (remaining : nat) (processed : string) (e : Engine)
    (cerr : list string) : string * list string :=
  match regex_search var_re processed with
  | None => (processed, cerr)
  | Some m =>
      match remaining with
      | O => (processed, cerr ++ ["Error: Variable substitution exceeded max iterations"])
      | S remaining' =>
          let value := evaluate_expression e (group 1 m) in
          var_loop remaining' (match_prefix m +:+ value +:+ match_suffix m) e cerr
      end
  end.

(** The last part of [process_line]: the two substitution passes and the
    [##] test. *)
Definition substitute_line (st : RenderState) (input_line : string) : string * RenderState :=
  let '(processed, e, cerr) :=
    code_block_loop (Str.len input_line + 100) input_line (rs_engine st) (rs_cerr st) in
  let '(processed, cerr) := var_loop (Str.len processed + 100) processed e cerr in
  if Str.starts_with "##" processed then ("", with_engine e cerr st)
  else (processed +:+ newline, with_engine e cerr st).

(** The loop openers, in the order [process_line] tries them. *)
Definition open_loop (input_line : string) : option LoopState :=
  match regex_match for_enum_re input_line with
  | Some m => Some (mkLoop (group 2 m) (group 1 m) (group 3 m) 0 "" true true 1)
  | None =>
  match regex_match for_tuple_re input_line with
  | Some m => Some (mkLoop (group 2 m) (group 1 m) (group 3 m) 0 "" true false 1)
  | None =>
  match regex_match for_re input_line with
  | Some m => Some (mkLoop (group 1 m) "" (group 2 m) 0 "" true false 1)
  | None => None
  end end end.

Definition is_loop_opener (input_line : string) : bool :=
  matches for_re input_line || matches for_enum_re input_line
  || matches for_tuple_re input_line.

Section Lines.

(** [render_block], which [render] below defines: the text, the engine
    after it and what it wrote to [std::cerr]. *)
Variable render_block : Engine → string → Outcome (string * Engine * list string).

(** One [for] statement of the source over [items], [i] the index of the
    first: [select] sets the selection, the body is rendered, the outputs
    are appended. *)
Fixpoint loop_over {A : Type} (select : Z → A → Engine → Engine) (body : string)
    (i : Z) (items : list A) (e : Engine) : Outcome (string * Engine * list string) :=
  match items with
  | [] => Done ("", e, [])
  | x :: items' =>
      '(out1, e1, cerr1) ← render_block (select i x e) body;
      '(out2, e2, cerr2) ← loop_over select body (i + 1) items' e1;
      Done (out1 +:+ out2, e2, cerr1 ++ cerr2)
  end.

Definition select_enum (is_enumerate : bool) (i : Z) (e : Engine) : Engine :=
  if is_enumerate then set_current_enum_index i e else e.

(** The execution of a loop whose [endfor] brought its depth to zero. *)
Definition execute_loop (state : LoopState) (e : Engine)
    : Outcome (string * Engine * list string) :=
  let body := loop_body state in
  let collection := loop_collection state in
  if decide (collection = "kernels") then
    '(out, e', cerr') ←
      loop_over (λ i k e, select_enum (loop_is_enumerate state) i
                            (set_current_kernel (Some k) e))
        body 0 (g_kernels G) e;
    Done (out, set_current_enum_index (-1) (set_current_kernel None e'), cerr')
  else if decide (collection = "archs") then
    '(out, e', cerr') ←
      loop_over (λ i a e, select_enum (loop_is_enumerate state) i
                            (set_current_arch (Some a) e))
        body 0 (g_archs G) e;
    Done (out, set_current_enum_index (-1) (set_current_arch None e'), cerr')
  else if decide (collection = "machines") then
    '(out, e', cerr') ←
      loop_over (λ _ m e, set_current_machine (Some m) e) body 0 (g_machines G) e;
    Done (out, set_current_machine None e', cerr')
  else
  match (if decide (collection = "this_machine.archs") then current_machine_ e else None) with
  | Some m =>
      '(out, e', cerr') ←
        loop_over (λ _ a e, set_current_arch (Some a) e) body 0 (machine_archs m) e;
      Done (out, set_current_arch None e', cerr')
  | None =>
  match (if decide (collection = "kern.args") then current_kernel_ e else None) with
  | Some k =>
      '(out, e', cerr') ←
        loop_over (λ i _ e, set_current_arg_index i e) body 0 (kernel_args k) e;
      Done (out, set_current_arg_index (-1) e', cerr')
  | None =>
  match (if decide (collection = "arch.checks") then current_arch_ e else None) with
  | Some a =>
      '(out, e', cerr') ←
        loop_over (λ i _ e, set_current_check_index i e) body 0 (arch_checks a) e;
      Done (out, set_current_check_index (-1) e', cerr')
  | None => Done ("", e, [])
  end end end.

(** The [if]/[elif]/[else]/[endif] part of [process_line] and what follows
    it. *)
Definition process_conditional (st : RenderState) (input_line : string)
    : Outcome (string * RenderState) :=
  match regex_match if_re input_line with
  | Some m =>
      b ← evaluate_condition (rs_engine st) (group 1 m);
      Done ("", with_if_stack (mkIf b false 1 :: rs_if_stack st) st)
  | None =>
  match regex_match elif_re input_line, rs_if_stack st with
  | Some m, state :: rest =>
      if negb (if_condition_met state) then
        b ← evaluate_condition (rs_engine st) (group 1 m);
        Done ("", with_if_stack (mkIf b false (if_depth state) :: rest) st)
      else
        Done ("", with_if_stack (mkIf (if_condition_met state) true (if_depth state) :: rest) st)
  | _, _ =>
  match matches else_re input_line, rs_if_stack st with
  | true, state :: rest =>
      if negb (if_condition_met state)
      then Done ("", with_if_stack (mkIf true false (if_depth state) :: rest) st)
      else Done ("", with_if_stack (mkIf (if_condition_met state) true (if_depth state) :: rest) st)
  | _, _ =>
  match matches endif_re input_line, rs_if_stack st with
  | true, _ :: rest => Done ("", with_if_stack rest st)
  | _, _ =>
  match rs_if_stack st with
  | state :: _ =>
      if negb (if_condition_met state) || if_in_else state then Done ("", st)
      else Done (substitute_line st input_line)
  | [] => Done (substitute_line st input_line)
  end end end end end.

(** The part of [process_line] from the [endfor] test on. *)
Definition process_loop_line (st : RenderState) (input_line : string)
    : Outcome (string * RenderState) :=
  let is_endfor := matches endfor_re input_line in
  (* [state.depth--] *)
  let stack :=
    match rs_loop_stack st with
    | state :: rest =>
        if is_endfor then with_loop_depth (loop_depth state - 1) state :: rest
        else state :: rest
    | [] => []
    end in
  match stack with
  | state :: rest =>
      if is_endfor && bool_decide (loop_depth state = 0) then
        '(loop_output, e, cerr) ← execute_loop state (rs_engine st);
        Done (loop_output, with_loop_stack rest (with_engine e (rs_cerr st ++ cerr) st))
      else if loop_collecting state then
        let state :=
          if is_loop_opener input_line
          then with_loop_depth (loop_depth state + 1) state else state in
        let state :=
          if negb is_endfor
          then with_loop_body (loop_body state +:+ input_line +:+ newline) state
          else if 0 <? loop_depth state
          then with_loop_body (loop_body state +:+ input_line +:+ newline) state
          else state in
        Done ("", with_loop_stack (state :: rest) st)
      else process_conditional (with_loop_stack stack st) input_line
  | [] => process_conditional st input_line
  end.

(** The start of a multi-line statement block: a [<%] without a [%>] after
    it on the line. *)
Definition multiline_start (input_line : string) : option nat :=
  match Str.find "<%" input_line with
  | Some block_start =>
      match Str.find_from "%>" input_line (block_start + 2) with
      | Some _ => None
      | None => Some block_start
      end
  | None => None
  end.

(** [process_line] *)
Definition process_line (st : RenderState) (input_line : string)
    : Outcome (string * RenderState) :=
  if rs_in_multiline_block st then
    match Str.find "%>" input_line with
    | Some end_pos =>
        let r := execute_code_block (rs_engine st)
                   (rs_multiline_block_content st +:+ Str.take end_pos input_line) in
        Done (r.1, with_multiline false "" (with_engine r.2 (rs_cerr st) st))
    | None =>
        Done ("", with_multiline true
                    (rs_multiline_block_content st +:+ input_line +:+ newline) st)
    end
  else
  match multiline_start input_line with
  | Some block_start =>
      Done (Str.take block_start input_line,
            with_multiline true (Str.drop (block_start + 2) input_line +:+ newline) st)
  | None =>
  let opened :=
    match rs_loop_stack st with
    | state :: _ => if loop_collecting state then None else open_loop input_line
    | [] => open_loop input_line
    end in
  match opened with
  | Some state => Done ("", with_loop_stack (state :: rs_loop_stack st) st)
  | None => process_loop_line st input_line
  end end.

(** The [while (std::getline(stream, line))] loop. *)
Fixpoint process_lines (st : RenderState) (lines : list string)
    : Outcome (string * RenderState) :=
  match lines with
  | [] => Done ("", st)
  | line :: lines' =>
      '(out1, st1) ← process_line st line;
      '(out2, st2) ← process_lines st1 lines';
      Done (out1 +:+ out2, st2)
  end.

(** The body of [render]: the result, the engine after it and what was
    written to [std::cerr]. *)
Definition render_with (e : Engine) (tmpl : string)
    : Outcome (string * Engine * list string) :=
  '(out, st) ← process_lines (mkRenderState e [] [] [] false "") (getlines tmpl);
  Done (banner +:+ out, rs_engine st, rs_cerr st).

End Lines.

(** The engine [render_block] builds and what it copies back. *)
Definition sub_engine (e : Engine) : Engine :=
  set_render_depth (render_depth_ e + 1) (set_current_impls [] e).

Definition copy_back (sub e : Engine) : Engine :=
  set_current_impls (current_impls_ sub)
    (set_end_open_parens (end_open_parens_ sub)
       (set_num_open_parens (num_open_parens_ sub) e)).

Definition strip_banner (result : string) : string :=
  if Str.starts_with banner result then Str.drop (Str.len banner) result else result.

(** [render_block], given [render] for the nested engine when the model
    still has fuel for one. *)
Definition render_block_of
    (render_sub : option (Engine → string → Outcome (string * Engine * list string)))
    (e : Engine) (block : string) : Outcome (string * Engine * list string) :=
  if max_render_depth_ <=? render_depth_ e then
    Done ("", e, ["Error: Template render depth exceeded maximum (20)"])
  else
    match render_sub with
    | None => Starved
    | Some render_sub =>
        '(result, sub, cerr) ← render_sub (sub_engine e) block;
        Done (strip_banner result, copy_back sub e, cerr)
    end.

(** [render] and [render_block] are mutually recursive in the source;
    [render_block] refuses to nest deeper than [max_render_depth_], and
    [fuel] is the number of nestings still allowed. *)
Fixpoint render_fuel (fuel : nat) (e : Engine) (tmpl : string)
    : Outcome (string * Engine * list string) :=
  render_with
    (render_block_of match fuel with
                     | O => None
                     | S fuel' => Some (render_fuel fuel')
                     end)
    e tmpl.

Definition render_block (fuel : nat)
    : Engine → string → Outcome (string * Engine * list string) :=
  render_block_of match fuel with
                  | O => None
                  | S fuel' => Some (render_fuel fuel')
                  end.

(** [TemplateEngine::render] *)
Definition render (e : Engine) (tmpl : string) : Outcome (string * Engine * list string) :=
  render_fuel (Z.to_nat (max_render_depth_ - render_depth_ e)) e tmpl.

End Render.

(** ** Definitions the statements on the engine use *)

(** The template of the loop/conditional nesting property, and the loop body
    the engine buffers from it. *)
Definition nesting_body : string :=
  "%if i == 0:" +:+ newline +:+ "FIRST" +:+ newline +:+ "%else:" +:+ newline
  +:+ "OTHER" +:+ newline +:+ "%endif" +:+ newline.

Definition nesting_template : string :=
  "%for i, m in enumerate(machines):" +:+ newline +:+ nesting_body
  +:+ "%endfor" +:+ newline.

(** The lines of [out] equal to [text]. *)
Definition count_lines (text out : string) : nat :=
  length (List.filter (λ l, bool_decide (l = text)) (getlines out)).

(** The positions of [s] at which [needle] occurs. *)
Fixpoint count_occurrences (needle s : string) : nat :=
  ((if Str.starts_with needle s then 1 else 0)
   + match s with
     | EmptyString => 0
     | String _ s' => count_occurrences needle s'
     end)%nat.

(** [n] copies of [s]. *)
Fixpoint repeat_string (n : nat) (s : string) : string :=
  match n with
  | O => ""
  | S n' => s +:+ repeat_string n' s
  end.

(** The names [evaluate_expression] compares an expression with. *)
Definition known_fields : list string :=
  ["end_open_parens"; "kern.name"; "kern.pname"; "kern.arglist_full";
   "kern.arglist_names"; "kern.arglist_types"; "kern.has_dispatcher";
   "arch.name"; "arch.name.upper()"; "this_machine.alignment"; "this_machine.name";
   "machine.name"; "machine.name.upper()"; "arg_type"; "arg_name"; "check"; "i";
   "len_archs"].

(** The collections a loop can run over. *)
Definition known_collections : list string :=
  ["kernels"; "archs"; "machines"; "this_machine.archs"; "kern.args"; "arch.checks"].

(** The loop names a collection that is not known, or one whose selection
    is not active in [e]. *)
Definition loop_inactive (e : Engine) (collection : string) : Prop :=
  collection ∉ known_collections
  ∨ (collection = "this_machine.archs" ∧ current_machine_ e = None)
  ∨ (collection = "kern.args" ∧ current_kernel_ e = None)
  ∨ (collection = "arch.checks" ∧ current_arch_ e = None).

(** The strings a pattern matches, whatever the order in which the matcher
    tries them. *)
Inductive Matches : Regex → string → Prop :=
| M_eps : Matches Eps ""
| M_class negated items c :
    class_matches negated items c = true → Matches (Class negated items) (String c "")
| M_seq r1 r2 s1 s2 : Matches r1 s1 → Matches r2 s2 → Matches (Seq r1 r2) (s1 +:+ s2)
| M_star_nil greedy r : Matches (Star greedy r) ""
| M_star_cons greedy r s1 s2 :
    Matches r s1 → Matches (Star greedy r) s2 → Matches (Star greedy r) (s1 +:+ s2)
| M_group i r s : Matches r s → Matches (Group i r) s
| M_bol : Matches Bol "".

(** Every character of [s] satisfies [P]. *)
Fixpoint all_chars (P : ascii → Prop) (s : string) : Prop :=
  match s with
  | EmptyString => True
  | String c s' => P c ∧ all_chars P s'
  end.

(** Every character class of [r] holds characters satisfying [P] only. *)
Fixpoint classes_within (P : ascii → Prop) (r : Regex) : Prop :=
  match r with
  | Eps | Bol => True
  | Class negated items => ∀ c, class_matches negated items c = true → P c
  | Seq r1 r2 => classes_within P r1 ∧ classes_within P r2
  | Star _ r1 | Group _ r1 => classes_within P r1
  end.

(** What a successful run of a piece followed by [k] tells: the input splits
    into a part the piece matches and a rest on which [k] succeeded. *)
Definition sound_step {A : Type} (r : Regex)
    (step : bool → string → Captures → @Cont A → option A) : Prop :=
  ∀ start s caps k x, step start s caps k = Some x →
    ∃ s1 s2 start' caps', s = s1 +:+ s2 ∧ Matches r s1 ∧ k start' s2 caps' = Some x.

(** ** Concrete inputs used by the examples *)

Definition demo_generic : Arch := mkArch "generic" "" "" 1 [] ∅.
Definition demo_sse : Arch :=
  mkArch "sse" "" "xmmintrin.h" 16 [("cpuid_x86_bit", ["3"; "0x00000001"; "25"])]
    {[ "gnu" := ["-msse"]; "clang" := ["-msse"] ]}.
Definition demo_avx : Arch :=
  mkArch "avx" "" "immintrin.h" 32 [] {[ "gnu" := ["-mavx"]; "msvc" := ["/arch:AVX"] ]}.
Definition demo_orc : Arch := mkArch "orc" "" "" 1 [] ∅.

Definition demo_archs : list Arch := [demo_generic; demo_sse; demo_avx; demo_orc].
Definition demo_arch_dict : gmap string Arch := build_arch_dict demo_archs.

Definition demo_machine_generic : Machine :=
  mkMachine "generic" ["generic"; "orc"] [demo_generic; demo_orc] 1.
Definition demo_machine_avx : Machine :=
  mkMachine "avx" ["generic"; "sse"; "avx"] [demo_generic; demo_sse; demo_avx] 32.
Definition demo_machines : list Machine := [demo_machine_generic; demo_machine_avx].

Definition demo_impl_generic : Impl := mkImpl "generic" {[ "generic" ]} [("float*", "out")] false.
Definition demo_impl_a_sse : Impl :=
  mkImpl "a_sse" {[ "sse" ]} [("float*", "out")] true.
Definition demo_impl_plain : Impl := mkImpl "plain" ∅ [("float*", "out")] false.
Definition demo_kernel : Kernel :=
  mkKernel "volk_32f_demo" "p_32f_demo" [demo_impl_generic; demo_impl_a_sse; demo_impl_plain]
    [("float*", "out")] "float*" "float* out" "out" false.

Definition demo_globals : Globals :=
  mkGlobals demo_archs demo_machines (build_machine_dict demo_machines) [demo_kernel].

Definition demo_elems : list (string * list string) :=
  [("base", ["generic"; "sse|avx"; "orc"]); ("", ["generic"]);
   ("neon", ["generic"; "neon"]); ("bare", ["generic"; "|sse"])].

Definition demo_header_ok : KernelHeader :=
  mkKernelHeader "volk_32f_demo"
    [demo_impl_generic; mkImpl "" ∅ [] false; mkImpl "dispatcher" ∅ [] false; demo_impl_a_sse].
Definition demo_header_no_generic : KernelHeader :=
  mkKernelHeader "volk_32f_other" [demo_impl_a_sse].
Definition demo_header_empty : KernelHeader :=
  mkKernelHeader "volk_32f_empty" [mkImpl "" {[ "sse" ]} [] false].

(** A literal body with a line comment opener, a block comment and an
    escaped quote in it. *)
Definition demo_literal_body : string :=
  "http://volk /* not a comment */ \" +:+ dq +:+ " end".

Definition demo_bogus_loop : LoopState :=
  mkLoop "x" "" "bogus" 0 ("BODY ${x}" +:+ newline) true false 1.
Definition demo_collecting : RenderState :=
  mkRenderState new_engine [] [demo_bogus_loop] [] false "".

(** ** Definitions the statements on repeated rendering use *)

(** A line, or a template, without the opener [<%] of a statement block. *)
Definition line_ok (l : string) : Prop := Str.find "<%" l = None.
Definition lines_ok (tmpl : string) : Prop := Forall line_ok (getlines tmpl).

(** A buffered loop body: whole lines, each with its newline, none of them
    with a statement block. *)
Definition nl_terminated (b : string) : Prop := b = "" ∨ ends_with_char "010" b = true.
Definition body_ok (b : string) : Prop := lines_ok b ∧ nl_terminated b.

(** [e'] is [e] but for selections that were cleared and an implementation
    list that was emptied. *)
Definition preserved (e e' : Engine) : Prop :=
  vars_ e' = vars_ e
  ∧ current_impl_ e' = current_impl_ e
  ∧ num_open_parens_ e' = num_open_parens_ e
  ∧ end_open_parens_ e' = end_open_parens_ e
  ∧ len_archs_ e' = len_archs_ e
  ∧ render_depth_ e' = render_depth_ e
  ∧ (current_impls_ e' = current_impls_ e ∨ current_impls_ e' = [])
  ∧ (current_kernel_ e' = current_kernel_ e ∨ current_kernel_ e' = None)
  ∧ (current_arch_ e' = current_arch_ e ∨ current_arch_ e' = None)
  ∧ (current_machine_ e' = current_machine_ e ∨ current_machine_ e' = None)
  ∧ (current_arg_index_ e' = current_arg_index_ e ∨ current_arg_index_ e' = -1)
  ∧ (current_check_index_ e' = current_check_index_ e ∨ current_check_index_ e' = -1)
  ∧ (current_enum_index_ e' = current_enum_index_ e ∨ current_enum_index_ e' = -1).

(** An engine without selection and without implementation list, as a
    default-constructed one is, whatever its variables and scratch values. *)
Definition unselected (e : Engine) : Prop :=
  current_kernel_ e = None ∧ current_arch_ e = None ∧ current_machine_ e = None
  ∧ current_arg_index_ e = -1 ∧ current_check_index_ e = -1
  ∧ current_enum_index_ e = -1 ∧ current_impls_ e = [].

(** A [render_block] that preserves the engine on bodies without statement
    block. *)
Definition block_preserving
    (rb : Engine → string → Outcome (string * Engine * list string)) : Prop :=
  ∀ e body out e' cerr, lines_ok body → rb e body = Done (out, e', cerr) → preserved e e'.

(** The locals of [render] on a template without statement block. *)
Definition state_inv (st : RenderState) : Prop :=
  rs_in_multiline_block st = false
  ∧ Forall (λ l, body_ok (loop_body l)) (rs_loop_stack st).

(** A template that reads the cached architecture count before the
    statement that sets it. *)
Definition count_template : string :=
  "archs: ${len_archs}" +:+ newline +:+ "<% len_archs=len(archs) %>" +:+ newline.

Ltac preserved_setter :=
  unfold preserved; simpl; intros;
  repeat match goal with H : _ ∧ _ |- _ => destruct H end;
  repeat split; try done; try (left; done); try (right; done); tauto.

(** The run did not exhaust the fuel of the model. *)
Definition returns {A : Type} (o : Outcome A) : Prop := o ≠ Starved.

(** A [render_block] for engines at nesting depth [d]: it returns, and
    leaves the depth as it is. *)
Definition block_returning (d : Z)
    (rb : Engine → string → Outcome (string * Engine * list string)) : Prop :=
  ∀ e body, render_depth_ e = d →
    returns (rb e body)
    ∧ ∀ out e' cerr, rb e body = Done (out, e', cerr) → render_depth_ e' = d.

(** ** Further text utilities *)

(** [iss >> token]: the stream skips white space, then reads up to the next
    white space or the end of the text. *)
Fixpoint skip_space (s : string) : string :=
  match s with
  | String c s' => if is_space c then skip_space s' else s
  | EmptyString => EmptyString
  end.

(** The token at the front of [s] and what follows it. *)
Fixpoint read_token (s : string) : string * string :=
  match s with
  | String c s' =>
      if is_space c then (EmptyString, s)
      else let r := read_token s' in (String c r.1, r.2)
  | EmptyString => (EmptyString, EmptyString)
  end.

(** [split_whitespace]: the loop [while (iss >> token)] ends when an
    extraction reads no character; every iteration but the last consumes
    one, so that the length of the text bounds their number. *)
Fixpoint split_whitespace_fuel (fuel : nat) (s : string) : list string :=
  match fuel with
  | O => []
  | S fuel' =>
      let r := read_token (skip_space s) in
      if decide (r.1 = "") then [] else r.1 :: split_whitespace_fuel fuel' r.2
  end.

Definition split_whitespace (s : string) : list string :=
  split_whitespace_fuel (S (Str.len s)) s.

(** [strip_xml_comments]: [xml] is the text from [pos] on, the returned
    text what the loop appends to [result] from there.  Every iteration
    that goes on consumes a comment, so that the length of the text bounds
    their number. *)
Fixpoint strip_xml_comments_fuel (fuel : nat) (xml : string) : string :=
  match fuel with
  | O => ""
  | S fuel' =>
      if decide (xml = "") then ""
      else
        match Str.find "<!--" xml with
        | None => xml
        | Some comment_start =>
            Str.take comment_start xml +:+
            match Str.find "-->" (Str.drop comment_start xml) with
            | None => ""
            | Some off =>
                strip_xml_comments_fuel fuel' (Str.drop (comment_start + off + 3) xml)
            end
        end
  end.

Definition strip_xml_comments (xml : string) : string :=
  strip_xml_comments_fuel (S (Str.len xml)) xml.

(** Every character of the text is white space for [std::isspace], or none
    is. *)
Fixpoint all_space (s : string) : bool :=
  match s with
  | String c s' => is_space c && all_space s'
  | EmptyString => true
  end.

Fixpoint no_space (s : string) : bool :=
  match s with
  | String c s' => negb (is_space c) && no_space s'
  | EmptyString => true
  end.

(** Every character of the text is one of those [trim] strips. *)
Fixpoint all_trim_chars (s : string) : bool :=
  match s with
  | String c s' => is_trim_char c && all_trim_chars s'
  | EmptyString => true
  end.

(** The first and the last character of a text. *)
Definition first_char (s : string) : option ascii :=
  match s with
  | String c _ => Some c
  | EmptyString => None
  end.

Fixpoint last_char (s : string) : option ascii :=
  match s with
  | EmptyString => None
  | String c EmptyString => Some c
  | String _ s' => last_char s'
  end.


(** ** Definitions the statements on the catalogs use *)

(** The choices of one alternative in every entry that holds ['|'], entries
    taken from left to right and the alternatives of an entry in their
    order: for each choice the machine name (the base name and ['_'] with
    every non-empty alternative chosen) and the entry list (the chosen
    alternatives in place of their entries, the empty ones left out). *)
Fixpoint expansions (name : string) (archs : list string) : list (string * list string) :=
  match archs with
  | [] => [(name, [])]
  | a :: rest =>
      if has_bar a then
        flat_map
          (λ part,
             if decide (part = "") then expansions name rest
             else (λ nl, (nl.1, part :: nl.2)) <$> expansions (name +:+ "_" +:+ part) rest)
          (split a "|")
      else (λ nl, (nl.1, a :: nl.2)) <$> expansions name rest
  end.

(** The last machine, or architecture, of a list that has the name [n]. *)
Definition last_machine_named (n : string) (ms : list Machine) : option Machine :=
  last (List.filter (λ m, bool_decide (machine_name m = n)) ms).

Definition last_arch_named (n : string) (archs : list Arch) : option Arch :=
  last (List.filter (λ a, bool_decide (arch_name a = n)) archs).

(** Registering one plain machine for every choice of a list, in order. *)
Definition register_all (dict : gmap string Arch) (choices : list (string * list string))
    (gm : list Machine) : list Machine :=
  fold_left (λ gm nl, register_plain dict nl.1 nl.2 gm) choices gm.

(** What holds of a machine that [register_machine] adds for the base name
    [name], whatever the alignments of the architectures are. *)
Definition added_by (name : string) (m : Machine) : Prop :=
  Str.starts_with name (machine_name m) = true
  ∧ machine_archs m ≠ []
  ∧ 1 ≤ machine_alignment m
  ∧ Forall (λ a, arch_alignment a ≤ machine_alignment m) (machine_archs m).

(** ** The modes of [main]

    [args] is [argv] from index 2 on; a mode returns what it writes to
    [std::cout]. *)

(** Mode [arch_flags]: the loop over the options; the value of the last
    [--compiler] that has one is kept, in lower case. *)
Fixpoint arch_flags_compiler (args : list string) (compiler : string) : string :=
  match args with
  | a :: rest =>
      match rest with
      | v :: rest' =>
          if decide (a = "--compiler") then arch_flags_compiler rest' (to_lower v)
          else arch_flags_compiler rest compiler
      | [] => compiler
      end
  | [] => compiler
  end.

(** The architectures the compiler supports, each with its flags. *)
Definition arch_flags_output (archs : list Arch) (compiler : string) : string :=
  join ((λ a, join (arch_name a :: get_flags a compiler) ",")
          <$> List.filter (λ a, is_supported a compiler) archs) ";".

Definition mode_arch_flags (archs : list Arch) (args : list string) : string :=
  arch_flags_output archs (arch_flags_compiler args "") +:+ newline.

(** Mode [machines]: every [--archs] option adds the pieces of its value. *)
Fixpoint machines_arch_names (args : list string) (arch_names : gset string) : gset string :=
  match args with
  | a :: rest =>
      match rest with
      | v :: rest' =>
          if decide (a = "--archs")
          then machines_arch_names rest' (arch_names ∪ list_to_set (split v ";"))
          else machines_arch_names rest arch_names
      | [] => arch_names
      end
  | [] => arch_names
  end.

(** [all_present]: every architecture name of the machine is available. *)
Definition all_present (arch_names : gset string) (machine : Machine) : bool :=
  forallb (λ ma, bool_decide (ma ∈ arch_names))
    (set_iter (list_to_set (machine_arch_names machine))).

Definition machines_output (machines : list Machine) (arch_names : gset string) : string :=
  join (machine_name <$> List.filter (all_present arch_names) machines) ";".

Definition mode_machines (machines : list Machine) (args : list string) : string :=
  machines_output machines (machines_arch_names args ∅) +:+ newline.

(** Mode [machine_flags]: the options, then the flags of the architectures
    of the machine; an unknown machine is reported on [std::cerr] and ends
    the program with status 1. *)
Fixpoint machine_flags_options (args : list string) (machine_name compiler : string)
    : string * string :=
  match args with
  | a :: rest =>
      match rest with
      | v :: rest' =>
          if decide (a = "--machine") then machine_flags_options rest' v compiler
          else if decide (a = "--compiler")
               then machine_flags_options rest' machine_name (to_lower v)
          else machine_flags_options rest machine_name compiler
      | [] => (machine_name, compiler)
      end
  | [] => (machine_name, compiler)
  end.

(** What a run writes to [std::cout] and [std::cerr], and its status. *)
Record Run := mkRun {
  run_cout : string;
  run_cerr : list string;
  run_status : Z
}.

Definition mode_machine_flags (machine_dict : gmap string Machine) (args : list string)
    : Run :=
  let opts := machine_flags_options args "" "" in
  match machine_dict !! opts.1 with
  | None => mkRun "" ["Unknown machine: " +:+ opts.1] 1
  | Some m =>
      mkRun (join (mjoin ((λ a, get_flags a opts.2) <$> machine_archs m)) " " +:+ newline)
        [] 0
  end.

(** Mode [render]: the options [--input] and [--output], every other
    argument that does not start with ['-'] is an extra argument. *)
Fixpoint render_options (args : list string) (input_file output_file : string)
    (extra_args : list string) : string * string * list string :=
  let other (a : string) :=
    if bool_decide (first_char a = Some "-"%char) then extra_args else extra_args ++ [a] in
  match args with
  | a :: rest =>
      match rest with
      | v :: rest' =>
          if decide (a = "--input") then render_options rest' v output_file extra_args
          else if decide (a = "--output") then render_options rest' input_file v extra_args
          else render_options rest input_file output_file (other a)
      | [] => (input_file, output_file, other a)
      end
  | [] => (input_file, output_file, extra_args)
  end.

(** The text holds no upper-case letter: [to_lower] leaves it as it is. *)
Definition lower_case (s : string) : Prop := to_lower s = s.

(** ** Definitions the further statements on the engine use *)

(** The one text a pattern without choice matches, if it is such a pattern. *)
Fixpoint fixed_text (r : Regex) : option string :=
  match r with
  | Eps | Bol => Some ""
  | Class false [CLit c] => Some (String c "")
  | Class _ _ => None
  | Seq r1 r2 =>
      match fixed_text r1, fixed_text r2 with
      | Some t1, Some t2 => Some (t1 +:+ t2)
      | _, _ => None
      end
  | Group _ r1 => fixed_text r1
  | Star _ _ => None
  end.

(** A sufficient test for: every text the pattern matches holds [needle]. *)
Fixpoint requires (needle : string) (r : Regex) : bool :=
  match fixed_text r with
  | Some t => str_contains needle t
  | None =>
      match r with
      | Seq r1 r2 => requires needle r1 || requires needle r2
      | Group _ r1 => requires needle r1
      | _ => false
      end
  end.

(** Whether [process_line] drops a text line because of the conditionals
    that are open: the innermost one alone decides. *)
Definition skipping (ifs : list IfState) : bool :=
  match ifs with
  | state :: _ => negb (if_condition_met state) || if_in_else state
  | [] => false
  end.

(** A line that is text for the engine: no ['%'], so that it neither is a
    control line nor holds a statement block. *)
Definition text_line (l : string) : Prop := Str.contains_char "%" l = false.

(** A line the engine copies: text without ['$'] that is no template
    comment. *)
Definition plain_line (l : string) : Prop :=
  Str.contains_char "%" l = false ∧ Str.contains_char "$" l = false
  ∧ Str.starts_with "##" l = false.

(** The lines of a text, each with a newline after it. *)
Definition with_newlines (tmpl : string) : string :=
  Str.concat ((λ l, l +:+ newline) <$> getlines tmpl).

(** The state [render] starts with. *)
Definition initial_state (e : Engine) : RenderState := mkRenderState e [] [] [] false "".

(** The only exception that leaves the run is the one [std::stoi] throws. *)
Definition throws_stoi_only {A : Type} (o : Outcome A) : Prop :=
  ∀ what, o = Thrown what → what = "stoi".

(** ** Kernel headers ([split_ifdef_sections], [flatten_sections], [parse_impl]) *)

(** [std::sregex_iterator]: the successive matches of a pattern that
    matches no empty text, each searched in what follows the one before;
    every match consumes a character, so that the length of the text bounds
    their number. *)
Fixpoint regex_iter (fuel : nat) (r : Regex) (start : bool) (s : string)
    : list MatchResult :=
  match fuel with
  | O => []
  | S fuel' =>
      match search_from r start "" s with
      | None => []
      | Some m => m :: regex_iter fuel' r false (match_suffix m)
      end
  end.

Definition regex_all (r : Regex) (s : string) : list MatchResult :=
  regex_iter (S (Str.len s)) r true s.

#[warnings="-register-all"] Inductive IfdefSection := mkSection {
  sec_header : string;
  sec_body : string;
  sec_subsections : list IfdefSection;
  sec_is_text : bool
}.

(** The pattern of a directive line: [^\s*#\s*(\w+)], then a second group
    that takes the rest of the line, then [$].  It is used with
    [std::regex_match]: the final [$] holds where that match ends, at the
    end of the line. *)
Definition ifdef_re : Regex :=
  seq [Bol; ws_star; chr "#"; ws_star; Group 1 (plus word); Group 2 (Star true any)].

(** [line_type] of a line of code. *)
Definition line_type (line : string) : string :=
  match regex_match ifdef_re line with
  | Some m =>
      let directive := group 1 m in
      if decide (directive = "if" ∨ directive = "ifndef" ∨ directive = "ifdef") then "if"
      else if decide (directive = "else" ∨ directive = "elif") then "else"
      else if decide (directive = "endif") then "end"
      else "normal"
  | None => "normal"
  end.

(** The locals of the loop over the lines. *)
Record SplitState := mkSplit {
  ss_sections : list IfdefSection;
  ss_current_section : string;
  ss_header : string;
  ss_depth : Z
}.

(** [if (!trim(current_section).empty()) sections.push_back(sec)] *)
Definition push_section (st : SplitState) : list IfdefSection :=
  if decide (trim (ss_current_section st) = "") then ss_sections st
  else ss_sections st
       ++ [mkSection (ss_header st) (ss_current_section st) []
             (bool_decide (ss_header st = "text"))].

(** One iteration of the loop over the lines. *)
Definition split_line (st : SplitState) (line : string) : SplitState :=
  let lt := line_type line in
  let depth := if decide (lt = "if") then ss_depth st + 1 else ss_depth st in
  let depth := if decide (lt = "end") then depth - 1 else depth in
  if bool_decide (depth = 1) && bool_decide (lt = "if")
  then mkSplit (push_section st) "" line depth
  else if bool_decide (depth = 1) && bool_decide (lt = "else")
  then mkSplit (push_section st) "" line depth
  else if bool_decide (depth = 0) && bool_decide (lt = "end")
  then mkSplit (push_section st) "" "text" depth
  else mkSplit (ss_sections st) (ss_current_section st +:+ line +:+ newline)
         (ss_header st) depth.

(** The sections of one level: the loop and the section after it. *)
Definition split_level (code : string) : list IfdefSection :=
  push_section (fold_left split_line (split code "010") (mkSplit [] "" "text" 0)).

Definition with_subsections (subs : list IfdefSection) (sec : IfdefSection) : IfdefSection :=
  mkSection (sec_header sec) (sec_body sec) subs (sec_is_text sec).

(** [split_ifdef_sections] at a recursion depth that leaves [levels]
    levels before [max_recursion_depth] is exceeded: the sections and what
    is written to [std::cerr]. *)
Fixpoint split_ifdef_sections_at (levels : nat) (code : string)
    : list IfdefSection * list string :=
  match levels with
  | O => ([], ["Warning: #ifdef recursion depth exceeded, stopping"])
  | S levels' =>
      fold_left
        (λ acc sec,
           if negb (sec_is_text sec) && negb (bool_decide (sec_body sec = ""))
           then let r := split_ifdef_sections_at levels' (sec_body sec) in
                (acc.1 ++ [with_subsections r.1 sec], acc.2 ++ r.2)
           else (acc.1 ++ [sec], acc.2))
        (split_level code) ([], [])
  end.

(** [recursion_depth = 0] and [max_recursion_depth = 50]: the depths 0 to
    50 are accepted. *)
Definition split_ifdef_sections (code : string) : list IfdefSection * list string :=
  split_ifdef_sections_at 51 code.

(** [flatten_sections], with the same bound. *)
Fixpoint flatten_sections_at (levels : nat) (sections : list IfdefSection)
    : string * list string :=
  match levels with
  | O => ("", ["Warning: flatten_sections recursion depth exceeded"])
  | S levels' =>
      fold_left
        (λ acc sec,
           if sec_is_text sec then (acc.1 +:+ sec_body sec, acc.2)
           else let r := flatten_sections_at levels' (sec_subsections sec) in
                (acc.1 +:+ r.1, acc.2 ++ r.2))
        sections ("", [])
  end.

Definition flatten_sections (sections : list IfdefSection) : string * list string :=
  flatten_sections_at 51 sections.

(** *** [parse_impl]

    The kernel name is spliced into the patterns; for a name of letters,
    digits and ['_'], as the kernel files have, it stands for itself. *)

(** [LV_HAVE_(\w+)] *)
Definition lv_have_re : Regex := seq [lit "LV_HAVE_"; Group 1 (plus word)].

(** [kern_name] followed by [_(\w+)\s*\(] *)
Definition name_re (kern_name : string) : Regex :=
  seq [lit kern_name; chr "_"; Group 1 (plus word); ws_star; chr "("].

(** [kern_name] followed by [\w*\s*\(], a group of characters other than
    the closing parenthesis, and that parenthesis *)
Definition args_re (kern_name : string) : Regex :=
  seq [lit kern_name; Star true word; ws_star; chr "(";
       Group 1 (Star true (not_chr ")")); chr ")"].

Definition is_ident_char (c : ascii) : bool := is_alnum c || bool_decide (c = "_"%char).

Fixpoint all_ident (s : string) : bool :=
  match s with
  | String c s' => is_ident_char c && all_ident s'
  | EmptyString => true
  end.

(** The two loops that walk back from [end_pos] while the character in
    front of it satisfies [P]. *)
Fixpoint scan_back (P : ascii → bool) (s : string) (end_pos : nat) : nat :=
  match end_pos with
  | O => O
  | S n =>
      match String.get n s with
      | Some c => if P c then scan_back P s n else end_pos
      | None => end_pos
      end
  end.

(** One piece of the argument list: its type and its name, if it has
    both. *)
Definition parse_arg (arg : string) : option (string * string) :=
  let trimmed := trim arg in
  if decide (trimmed = "") then None
  else
    let name_end := scan_back is_space trimmed (Str.len trimmed) in
    let end_pos := scan_back is_ident_char trimmed name_end in
    if decide (end_pos < name_end)%nat then
      let arg_name := Str.substr end_pos (name_end - end_pos) trimmed in
      let arg_type := trim (Str.take end_pos trimmed) in
      if decide (arg_type = "") then None else Some (arg_type, arg_name)
    else None.

(** [parse_impl]: the implementation, and what [flatten_sections] writes
    to [std::cerr]. *)
Definition parse_impl (kern_name header : string) (body_sections : list IfdefSection)
    : Impl * list string :=
  let deps : gset string :=
    list_to_set ((λ m, to_lower (group 1 m)) <$> regex_all lv_have_re header) in
  let body := flatten_sections body_sections in
  let pre_brace :=
    match Str.find_char "{" body.1 with
    | Some brace_pos => Str.take brace_pos body.1
    | None => body.1
    end in
  let name :=
    match regex_search (name_re kern_name) pre_brace with
    | Some m => group 1 m
    | None =>
        match set_iter deps with
        | first :: _ => first
        | [] => ""
        end
    end in
  let args :=
    match regex_search (args_re kern_name) pre_brace with
    | Some m => omap parse_arg (split (group 1 m) ",")
    | None => []
    end in
  (mkImpl name deps args (Str.starts_with "a_" name), body.2).

(** The part of [parse_kernels] in front of the assembly of the kernel:
    the candidate sections of the code of a header, in source order, each
    parsed; what is written to [std::cerr] on the way. *)
Definition candidate_impls (kern_name code : string) : list Impl * list string :=
  let sections := split_ifdef_sections (remove_comments code) in
  fold_left
    (λ acc sec,
       if negb (str_contains "ifndef" (to_lower (sec_header sec))) then acc
       else
         fold_left
           (λ acc sub,
              if negb (str_contains "if" (to_lower (sec_header sub))) then acc
              else if negb (str_contains "LV_HAVE_" (sec_header sub)) then acc
              else let r := parse_impl kern_name (sec_header sub) (sec_subsections sub) in
                   (acc.1 ++ [r.1], acc.2 ++ r.2))
           (sec_subsections sec) acc)
    sections.1 ([], sections.2).

Definition kernel_header (kern_name code : string) : KernelHeader :=
  mkKernelHeader kern_name (candidate_impls kern_name code).1.

(** The sections of all levels are as [split_ifdef_sections] builds them:
    the body is not blank; a text section has the header ["text"] and no
    subsections; the header of another section is the [#if] or [#else] line
    that opened it. *)
Fixpoint section_ok (sec : IfdefSection) : Prop :=
  trim (sec_body sec) ≠ ""
  ∧ (if sec_is_text sec then sec_header sec = "text" ∧ sec_subsections sec = []
     else line_type (sec_header sec) = "if" ∨ line_type (sec_header sec) = "else")
  ∧ (fix all_ok (l : list IfdefSection) : Prop :=
       match l with
       | [] => True
       | s :: l' => section_ok s ∧ all_ok l'
       end) (sec_subsections sec).

Definition sections_ok (l : list IfdefSection) : Prop := Forall section_ok l.

(** A section as the loop over the lines of one level pushes it. *)
Definition flat_ok (sec : IfdefSection) : Prop :=
  trim (sec_body sec) ≠ ""
  ∧ sec_subsections sec = []
  ∧ (if sec_is_text sec then sec_header sec = "text"
     else line_type (sec_header sec) = "if" ∨ line_type (sec_header sec) = "else").

(** The header the loop holds: ["text"], or the line that opened the
    section. *)
Definition header_ok (header : string) : Prop :=
  header = "text" ∨ line_type header = "if" ∨ line_type header = "else".

(** An example header, as the kernels directory holds them. *)
Definition demo_header_code : string :=
  Str.concat ((λ l, l +:+ newline) <$>
    ["/* demo kernel */";
     "#ifndef INCLUDED_volk_32f_demo_a_H";
     "#define INCLUDED_volk_32f_demo_a_H";
     "";
     "#ifdef LV_HAVE_GENERIC";
     "static inline void volk_32f_demo_generic(float* out, const float* in,";
     "                                         unsigned int num_points)";
     "{";
     "    for (unsigned int i = 0; i < num_points; i++) { out[i] = in[i]; } // copy";
     "}";
     "#endif /* LV_HAVE_GENERIC */";
     "";
     "#ifdef LV_HAVE_SSE";
     "#include <xmmintrin.h>";
     "static inline void volk_32f_demo_a_sse(float* out, const float* in, unsigned int num_points)";
     "{";
     "}";
     "#endif";
     "";
     "#endif /* INCLUDED_volk_32f_demo_a_H */"]).

(** ** The XML reader ([parse_xml_elements]) and [parse_archs] *)

#[warnings="-register-all"] Inductive XmlElement := mkXml {
  xml_tag : string;
  xml_attrs : gmap string string;
  xml_text : string;
  xml_children : list XmlElement
}.

(** The pattern of an attribute: [(\w+)\s*=\s*Q], a group of characters
    other than the double quote [Q], and [Q]. *)
Definition attr_re : Regex :=
  seq [Group 1 (plus word); ws_star; chr "="; ws_star; chr "034";
       Group 2 (Star true (not_chr "034")); chr "034"].

(** The loop over the matches in the opening tag: the first group is the
    key, the second the value, a later match of a key replaces an earlier
    one. *)
Definition parse_attrs (tag_content : string) : gmap string string :=
  fold_left (λ attrs m, <[group 1 m := group 2 m]> attrs) (regex_all attr_re tag_content) ∅.

(** The child tags [parse_xml_elements] looks for, in its order. *)
Definition child_tags : list string :=
  ["flag"; "check"; "param"; "alignment"; "environment"; "include"; "archs"].

Section XmlLoop.

(** [parse_xml_elements] on the text inside an element, which
    [parse_xml_elements] below defines. *)
Variable parse_inner : string → string → Outcome (list XmlElement * list string).
Variable tag_name : string.

(** The loop over the child tags: the children are grouped by tag, in
    the order of [child_tags]. *)
Fixpoint parse_children (inner : string) (tags : list string)
    : Outcome (list XmlElement * list string) :=
  match tags with
  | [] => Done ([], [])
  | child_tag :: tags' =>
      '(c1, cerr1) ← parse_inner inner child_tag;
      '(c2, cerr2) ← parse_children inner tags';
      Done (c1 ++ c2, cerr1 ++ cerr2)
  end.

(** The loop of [parse_xml_elements]: [xml] is the text from [pos] on,
    [remaining] is [max_iterations - iterations]. *)
Fixpoint xml_loop (remaining : nat) (xml : string)
    : Outcome (list XmlElement * list string) :=
  match Str.find ("<" +:+ tag_name) xml with
  | None => Done ([], [])
  | Some i =>
      match remaining with
      | O => Done ([], ["Error: XML parsing exceeded maximum iterations for tag: "
                        +:+ tag_name])
      | S remaining' =>
          let at_tag := Str.drop i xml in
          match Str.find_char ">" at_tag with
          | None => Done ([], [])
          | Some tag_end =>
              let attrs := parse_attrs (Str.take (tag_end + 1) at_tag) in
              if bool_decide (String.get (tag_end - 1) at_tag = Some "/"%char) then
                '(rest, cerr) ← xml_loop remaining' (Str.drop (tag_end + 1) at_tag);
                Done (mkXml tag_name attrs "" [] :: rest, cerr)
              else
                let close_tag := "</" +:+ tag_name +:+ ">" in
                match Str.find close_tag (Str.drop tag_end at_tag) with
                | None => xml_loop remaining' (Str.drop (tag_end + 1) at_tag)
                | Some k =>
                    let inner := Str.take (k - 1) (Str.drop (tag_end + 1) at_tag) in
                    '(children, cerr1) ← parse_children inner child_tags;
                    '(rest, cerr2) ←
                      xml_loop remaining'
                        (Str.drop (tag_end + k + Str.len close_tag) at_tag);
                    Done (mkXml tag_name attrs (trim inner) children :: rest,
                          cerr1 ++ cerr2)
                end
          end
      end
  end.

End XmlLoop.

(** [parse_xml_elements]: the text inside an element is shorter than the
    text it is in, so that the length of the text bounds the depth of the
    recursion; [Starved] is the exhausted bound. *)
Fixpoint parse_xml_elements_fuel (fuel : nat) (xml tag_name : string)
    : Outcome (list XmlElement * list string) :=
  match fuel with
  | O => Starved
  | S fuel' => xml_loop (parse_xml_elements_fuel fuel') tag_name (S (Str.len xml)) xml
  end.

Definition parse_xml_elements (xml tag_name : string)
    : Outcome (list XmlElement * list string) :=
  parse_xml_elements_fuel (S (Str.len xml)) xml tag_name.

(** [elem.attrs.count(name) ? elem.attrs.at(name) : ""] *)
Definition attr (name : string) (elem : XmlElement) : string :=
  default "" (xml_attrs elem !! name).

(** [std::stoi]: white space, an optional sign and decimal digits; what
    follows the digits is ignored.  It throws [std::invalid_argument]
    where there is no digit and [std::out_of_range] where the value does not
    fit an [int]; [what()] is the name of the function for both. *)
Fixpoint leading_digits (s : string) : string :=
  match s with
  | String c s' => if is_digit c then String c (leading_digits s') else EmptyString
  | EmptyString => EmptyString
  end.

Definition stoi_text (s : string) : Outcome Z :=
  let s := skip_space s in
  let '(negative, s) :=
    match s with
    | String "-" s' => (true, s')
    | String "+" s' => (false, s')
    | _ => (false, s)
    end in
  let digits := leading_digits s in
  if decide (digits = "") then Thrown "stoi"
  else
    let v := if (negative : bool) then - decimal_value 0 digits else decimal_value 0 digits in
    if (-2147483648 <=? v) && (v <=? 2147483647) then Done v else Thrown "stoi".

Definition with_arch_flags (flags : gmap string (list string)) (a : Arch) : Arch :=
  mkArch (arch_name a) (arch_environment a) (arch_include a) (arch_alignment a)
    (arch_checks a) flags.
Definition with_arch_checks (checks : list (string * list string)) (a : Arch) : Arch :=
  mkArch (arch_name a) (arch_environment a) (arch_include a) (arch_alignment a)
    checks (arch_flags a).
Definition with_arch_alignment (alignment : Z) (a : Arch) : Arch :=
  mkArch (arch_name a) (arch_environment a) (arch_include a) alignment
    (arch_checks a) (arch_flags a).
Definition with_arch_environment (environment : string) (a : Arch) : Arch :=
  mkArch (arch_name a) environment (arch_include a) (arch_alignment a)
    (arch_checks a) (arch_flags a).
Definition with_arch_include (include : string) (a : Arch) : Arch :=
  mkArch (arch_name a) (arch_environment a) include (arch_alignment a)
    (arch_checks a) (arch_flags a).

(** One iteration of the loop over the children of an [arch] element. *)
Definition parse_arch_child (arch : Arch) (child : XmlElement) : Outcome Arch :=
  if decide (xml_tag child = "flag") then
    let compiler := attr "compiler" child in
    if negb (bool_decide (compiler = "")) && negb (bool_decide (xml_text child = ""))
    then Done (with_arch_flags
                 (<[compiler := default [] (arch_flags arch !! compiler) ++ [xml_text child]]>
                    (arch_flags arch)) arch)
    else Done arch
  else if decide (xml_tag child = "check") then
    let check_name := attr "name" child in
    let params :=
      xml_text <$>
        List.filter (λ param, bool_decide (xml_tag param = "param")
                              && negb (bool_decide (xml_text param = "")))
          (xml_children child) in
    if negb (bool_decide (check_name = ""))
    then Done (with_arch_checks (arch_checks arch ++ [(check_name, params)]) arch)
    else Done arch
  else if decide (xml_tag child = "alignment") then
    alignment ← stoi_text (xml_text child);
    Done (with_arch_alignment alignment arch)
  else if decide (xml_tag child = "environment") then
    Done (with_arch_environment (xml_text child) arch)
  else if decide (xml_tag child = "include") then
    Done (with_arch_include (xml_text child) arch)
  else Done arch.

Fixpoint parse_arch_children (arch : Arch) (children : list XmlElement) : Outcome Arch :=
  match children with
  | [] => Done arch
  | child :: children' =>
      arch' ← parse_arch_child arch child;
      parse_arch_children arch' children'
  end.

(** The loop of [parse_archs] over the [arch] elements: [g_archs] after
    it, or the exception that ended it. *)
Fixpoint parse_arch_elements (elems : list XmlElement) (g_archs : list Arch)
    : Outcome (list Arch) :=
  match elems with
  | [] => Done g_archs
  | elem :: elems' =>
      let name := attr "name" elem in
      if decide (name = "") then parse_arch_elements elems' g_archs
      else
        arch ← parse_arch_children (mkArch name "" "" 1 [] ∅) (xml_children elem);
        parse_arch_elements elems' (g_archs ++ [arch])
  end.

(** [parse_archs] on the text of [archs.xml]: [g_archs], [g_arch_dict] and
    what was written to [std::cerr]. *)
Definition parse_archs (xml : string) (g_archs : list Arch)
    : Outcome (list Arch * gmap string Arch * list string) :=
  '(elems, cerr) ← parse_xml_elements (strip_xml_comments xml) "arch";
  archs ← parse_arch_elements elems g_archs;
  Done (archs, build_arch_dict archs, cerr).

(** What [parse_machines] reads of a [machine] element: its name and the
    tokens of its first [archs] child. *)
Definition machine_entry (elem : XmlElement) : string * list string :=
  (attr "name" elem,
   match List.filter (λ child, bool_decide (xml_tag child = "archs")) (xml_children elem) with
   | child :: _ => split_whitespace (xml_text child)
   | [] => []
   end).

(** [parse_machines] on the text of [machines.xml]. *)
Definition parse_machines_xml (g_arch_dict : gmap string Arch) (xml : string)
    (g_machines : list Machine)
    : Outcome (list Machine * gmap string Machine * list string) :=
  '(elems, cerr) ← parse_xml_elements (strip_xml_comments xml) "machine";
  match parse_machines g_arch_dict (machine_entry <$> elems) g_machines with
  | Some machines => Done (machines, build_machine_dict machines, cerr)
  | None => Starved
  end.

(** The elements [parse_xml_elements] returns, which it always does. *)
Definition xml_elements (xml tag_name : string) : list XmlElement :=
  match parse_xml_elements xml tag_name with
  | Done r => r.1
  | _ => []
  end.

(** Example documents. *)
Definition demo_archs_xml : string :=
  Str.concat ((λ l, l +:+ newline) <$>
    ["<!-- archs -->";
     "<grammar>";
     "<arch name=" +:+ dq +:+ "generic" +:+ dq +:+ "> <!-- always there -->";
     "</arch>";
     "<arch name=" +:+ dq +:+ "sse" +:+ dq +:+ ">";
     "  <check name=" +:+ dq +:+ "cpuid_x86_bit" +:+ dq +:+ ">";
     "    <param>3</param><param>0x00000001</param><param>25</param>";
     "  </check>";
     "  <flag compiler=" +:+ dq +:+ "gnu" +:+ dq +:+ ">-msse</flag>";
     "  <flag compiler=" +:+ dq +:+ "clang" +:+ dq +:+ ">-msse</flag>";
     "  <alignment>16</alignment>";
     "  <include>xmmintrin.h</include>";
     "</arch>";
     "</grammar>"]).

Definition demo_machines_xml : string :=
  Str.concat ((λ l, l +:+ newline) <$>
    ["<grammar>";
     "<machine name=" +:+ dq +:+ "generic" +:+ dq +:+ ">";
     "<archs>generic</archs>";
     "</machine>";
     "<machine name=" +:+ dq +:+ "sse" +:+ dq +:+ ">";
     "<archs>generic sse|</archs>";
     "</machine>";
     "</grammar>"]).

(** An element as [parse_xml_elements] builds it: the tags of its children,
    at every level, are child tags. *)
Fixpoint xml_wf (e : XmlElement) : Prop :=
  (fix all_wf (l : list XmlElement) : Prop :=
     match l with
     | [] => True
     | c :: l' => (xml_tag c ∈ child_tags ∧ xml_wf c) ∧ all_wf l'
     end) (xml_children e).
(** ** Lemmas on the data model *)

Lemma elem_of_set_iter (s : gset string) (x : string) : x ∈ set_iter s ↔ x ∈ s.
Proof.
  unfold set_iter. rewrite merge_sort_Permutation. apply elem_of_elements.
Qed.

Lemma all_deps_satisfied_subseteq (arch_set : gset string) (impl : Impl) :
  all_deps_satisfied arch_set impl = true ↔ impl_deps impl ⊆ arch_set.
Proof.
  unfold all_deps_satisfied. rewrite forallb_forall. split.
  - intros H x Hx. apply elem_of_set_iter, list_elem_of_In, H in Hx.
    by apply bool_decide_eq_true in Hx.
  - intros H x Hx. apply bool_decide_eq_true, H.
    by apply elem_of_set_iter, list_elem_of_In.
Qed.

Lemma get_impls_elem_of (k : Kernel) (S : gset string) (i : Impl) :
  i ∈ get_impls k S ↔ i ∈ kernel_impls k ∧ impl_deps i ⊆ S.
Proof.
  unfold get_impls. rewrite !list_elem_of_In, filter_In.
  by rewrite all_deps_satisfied_subseteq.
Qed.

(** C9: [is_supported] holds exactly when the architecture declares no flags
    at all or declares flags for the compiler; [get_flags] is the stored flag
    list when there is one and the empty list otherwise. *)
Theorem C9_is_supported_get_flags (a : Arch) (c : string) :
  (is_supported a c = true ↔ arch_flags a = ∅ ∨ is_Some (arch_flags a !! c))
  ∧ (∀ fl, arch_flags a !! c = Some fl → get_flags a c = fl)
  ∧ (arch_flags a !! c = None → get_flags a c = []).
Proof.
  split; [|split].
  - unfold is_supported. case_bool_decide as He.
    + split; auto.
    + rewrite bool_decide_eq_true. split; [auto|]. by intros [?|?].
  - intros fl Hfl. unfold get_flags. by rewrite Hfl.
  - intros Hn. unfold get_flags. by rewrite Hn.
Qed.

(** C2: [get_impls] keeps, in declaration order, exactly the implementations
    whose dependency set is included in the architecture set; one without
    dependencies is kept for every architecture set. *)
Theorem C2_get_impls_subset_filter (k : Kernel) (S : gset string) :
  get_impls k S = List.filter (λ i, bool_decide (impl_deps i ⊆ S)) (kernel_impls k)
  ∧ (∀ i, i ∈ get_impls k S ↔ i ∈ kernel_impls k ∧ impl_deps i ⊆ S)
  ∧ sublist (get_impls k S) (kernel_impls k)
  ∧ (∀ i, i ∈ kernel_impls k → impl_deps i = ∅ → i ∈ get_impls k S).
Proof.
  split; [|split; [|split]].
  - unfold get_impls. induction (kernel_impls k) as [|i l IH]; [done|].
    simpl. rewrite IH.
    destruct (all_deps_satisfied S i) eqn:Hi.
    + apply all_deps_satisfied_subseteq in Hi. by rewrite bool_decide_eq_true_2.
    + rewrite bool_decide_eq_false_2; [done|].
      intros Hs. apply all_deps_satisfied_subseteq in Hs. congruence.
  - apply get_impls_elem_of.
  - unfold get_impls. induction (kernel_impls k) as [|i l IH]; simpl; [done|].
    destruct (all_deps_satisfied S i); by constructor.
  - intros i Hi He. apply get_impls_elem_of. split; [done|]. rewrite He. set_solver.
Qed.
(** ** Strings: append, split and the search for a character *)

Lemma app_cons (a : ascii) (s t : string) : String a s +:+ t = String a (s +:+ t).
Proof. reflexivity. Qed.

Lemma app_empty_l (s : string) : "" +:+ s = s.
Proof. reflexivity. Qed.

Lemma app_empty_r (s : string) : s +:+ "" = s.
Proof. induction s as [|a s IH]; [done|]. by rewrite app_cons, IH. Qed.

Lemma app_assoc_str (s t u : string) : (s +:+ t) +:+ u = s +:+ t +:+ u.
Proof. induction s as [|a s IH]; [done|]. by rewrite !app_cons, IH. Qed.

Lemma len_app (s t : string) : Str.len (s +:+ t) = (Str.len s + Str.len t)%nat.
Proof. induction s as [|a s IH]; [done|]. rewrite app_cons. simpl. by rewrite IH. Qed.

Lemma contains_char_cons (c a : ascii) (s : string) :
  Str.contains_char c (String a s) = if decide (a = c) then true else Str.contains_char c s.
Proof.
  unfold Str.contains_char. simpl. destruct (decide (a = c)); [done|].
  by destruct (Str.find_char c s).
Qed.

Lemma contains_char_app (c : ascii) (s t : string) :
  Str.contains_char c (s +:+ t) = Str.contains_char c s || Str.contains_char c t.
Proof.
  induction s as [|a s IH]; [done|].
  rewrite app_cons, !contains_char_cons. by destruct (decide (a = c)).
Qed.

Lemma split_no_delim (c : ascii) (s : string) :
  Str.contains_char c s = false → split s c = [s].
Proof.
  induction s as [|a s IH]; [done|].
  rewrite contains_char_cons. simpl. destruct (decide (a = c)); [done|].
  intros H. by rewrite (IH H).
Qed.

Lemma split_app_delim (c : ascii) (s t : string) :
  Str.contains_char c s = false → split (s +:+ String c t) c = s :: split t c.
Proof.
  induction s as [|a s IH].
  - intros _. rewrite app_empty_l. simpl. by rewrite decide_True.
  - rewrite contains_char_cons, app_cons. simpl.
    destruct (decide (a = c)); [done|]. intros H. by rewrite (IH H).
Qed.

Lemma split_pieces_no_delim (c : ascii) (s : string) :
  Forall (λ piece, Str.contains_char c piece = false) (split s c).
Proof.
  induction s as [|a s IH]; simpl.
  - by constructor.
  - destruct (decide (a = c)).
    + by constructor.
    + destruct (split s c) as [|piece rest].
      * constructor; [|constructor]. rewrite contains_char_cons. by rewrite decide_False.
      * inversion IH; subst. constructor; [|done].
        rewrite contains_char_cons. by rewrite decide_False.
Qed.

(** ** Machine registration *)

Section MachineFacts.

Variable g_arch_dict : gmap string Arch.

Lemma bars_app (l1 l2 : list string) : bars (l1 ++ l2) = (bars l1 + bars l2)%nat.
Proof. unfold bars. by rewrite List.filter_app, length_app. Qed.

Lemma bars_le_length (l : list string) : (bars l ≤ length l)%nat.
Proof. apply List.filter_length_le. Qed.

Lemma find_alternation_Some (archs before after : list string) (e : string) :
  find_alternation archs = Some (before, e, after) →
  archs = before ++ e :: after ∧ has_bar e = true ∧ bars before = O.
Proof.
  revert before. induction archs as [|a rest IH]; intros before; simpl; [done|].
  destruct (has_bar a) eqn:Ha.
  - intros [= <- <- <-]. done.
  - destruct (find_alternation rest) as [[[b e'] a']|]; [|done].
    intros [= <- <- <-]. destruct (IH b eq_refl) as (-> & He & Hb).
    split; [done|]. split; [done|].
    unfold bars in *. simpl. by rewrite Ha.
Qed.

Lemma find_alternation_None (archs : list string) :
  find_alternation archs = None ↔ Forall (λ a, has_bar a = false) archs.
Proof.
  induction archs as [|a rest IH]; simpl.
  - split; [by constructor | done].
  - destruct (has_bar a) eqn:Ha.
    + split; [done|]. inversion 1; congruence.
    + destruct (find_alternation rest) as [[[b e'] a']|].
      * split; [done|]. inversion 1 as [|? ? _ Hrest]; subst.
        by apply IH in Hrest.
      * split; [|done]. intros _. constructor; [done|]. by apply IH.
Qed.

Lemma find_alternation_middle (x e : string) (after : list string) :
  has_bar x = false → has_bar e = true →
  find_alternation (x :: e :: after) = Some ([x], e, after).
Proof. intros Hx He. simpl. by rewrite Hx, He. Qed.

(** Enough fuel: the recursion always returns. *)
Lemma register_machine_fuel_total (fuel : nat) :
  ∀ name archs gm, (bars archs < fuel)%nat →
    is_Some (register_machine_fuel g_arch_dict fuel name archs gm).
Proof.
  induction fuel as [|fuel IH]; intros name archs gm Hlt; [lia|].
  simpl. destruct (find_alternation archs) as [[[before e] after]|] eqn:Hf; [|by eexists].
  apply find_alternation_Some in Hf as (-> & He & Hb).
  assert (Hmeasure : (bars (before ++ after) < fuel)%nat).
  { rewrite bars_app in *. unfold bars in Hlt |- *. simpl in Hlt.
    rewrite He in Hlt. simpl in Hlt. unfold bars in Hb. lia. }
  pose proof (split_pieces_no_delim "|" e) as Hparts.
  revert gm. induction Hparts as [|part parts Hp _ IHparts]; intros gm; simpl; [by eexists|].
  destruct (decide (part = "")) as [->|Hne].
  - destruct (IH name (before ++ after) gm Hmeasure) as [gm' ->]. apply IHparts.
  - destruct (IH (name +:+ "_" +:+ part) (before ++ part :: after) gm) as [gm' ->].
    + rewrite bars_app in *. unfold bars in Hlt, Hmeasure |- *. simpl in *.
      rewrite He in Hlt. unfold has_bar in *. rewrite Hp. simpl in *. lia.
    + apply IHparts.
Qed.

Lemma register_machine_total (name : string) (archs : list string) (gm : list Machine) :
  is_Some (register_machine g_arch_dict name archs gm).
Proof.
  apply register_machine_fuel_total. pose proof (bars_le_length archs). lia.
Qed.

Lemma register_machine_no_bar (name : string) (archs : list string) (gm : list Machine) :
  Forall (λ a, has_bar a = false) archs →
  register_machine g_arch_dict name archs gm = Some (register_plain g_arch_dict name archs gm).
Proof.
  intros H. apply find_alternation_None in H.
  unfold register_machine. simpl. by rewrite H.
Qed.

Lemma resolve_archs_Some (archs names : list string) (resolved : list Arch) :
  resolve_archs g_arch_dict archs = Some (names, resolved) →
  Forall2 (λ n a, n ≠ "" ∧ g_arch_dict !! n = Some a) names resolved
  ∧ names = List.filter (λ n, negb (bool_decide (n = ""))) archs.
Proof.
  revert names resolved. induction archs as [|a rest IH]; intros names resolved; simpl.
  - intros [= <- <-]. by split; [constructor|].
  - destruct (decide (a = "")) as [->|Hne].
    + intros H. destruct (IH _ _ H) as [? ?]. by split.
    + rewrite bool_decide_eq_false_2 by done. simpl.
      destruct (g_arch_dict !! a) as [A|] eqn:HA; [|done].
      destruct (resolve_archs g_arch_dict rest) as [[ns As]|]; [|done].
      intros [= <- <-]. destruct (IH _ _ eq_refl) as [? ->].
      split; [by constructor|done].
Qed.

Lemma resolve_archs_unknown (archs : list string) (a : string) :
  a ∈ archs → a ≠ "" → g_arch_dict !! a = None →
  resolve_archs g_arch_dict archs = None.
Proof.
  intros Hin Hne Hnone. induction archs as [|b rest IH]; [by inversion Hin|].
  simpl. destruct (decide (b = "")) as [->|Hb].
  - apply IH. inversion Hin; subst; done.
  - destruct (g_arch_dict !! b) eqn:Hd; [|done].
    rewrite IH; [done|]. inversion Hin; subst; [congruence|done].
Qed.

Lemma resolve_archs_all_empty (archs : list string) :
  Forall (λ a, a = "") archs → resolve_archs g_arch_dict archs = Some ([], []).
Proof.
  induction 1 as [|a rest -> _ IH]; [done|]. simpl. done.
Qed.

Lemma resolve_archs_known (archs : list string) (resolved : list Arch) :
  Forall2 (λ n a, n ≠ "" ∧ g_arch_dict !! n = Some a) archs resolved →
  resolve_archs g_arch_dict archs = Some (archs, resolved).
Proof.
  induction 1 as [|n a ns As [Hne Hn] _ IH]; [done|].
  simpl. rewrite decide_False by done. by rewrite Hn, IH.
Qed.

Lemma register_plain_wf (name : string) (archs : list string) (gm : list Machine) :
  Forall (machine_wf g_arch_dict) gm → Forall (machine_wf g_arch_dict) (register_plain g_arch_dict name archs gm).
Proof.
  intros Hgm. unfold register_plain.
  destruct (resolve_archs g_arch_dict archs) as [[names resolved]|] eqn:Hr; [|done].
  destruct resolved as [|a resolved]; [done|].
  apply Forall_app. split; [done|]. constructor; [|constructor].
  apply resolve_archs_Some in Hr as [HF _]. by repeat split.
Qed.

Lemma register_machine_fuel_wf (fuel : nat) :
  ∀ name archs gm gm', Forall (machine_wf g_arch_dict) gm →
    register_machine_fuel g_arch_dict fuel name archs gm = Some gm' →
    Forall (machine_wf g_arch_dict) gm'.
Proof.
  induction fuel as [|fuel IH]; intros name archs gm gm' Hgm; [done|].
  simpl. destruct (find_alternation archs) as [[[before e] after]|].
  - generalize (split e "|"). intros parts. revert gm Hgm.
    induction parts as [|part parts IHparts]; intros gm Hgm; simpl.
    + by intros [= <-].
    + destruct (decide (part = "")).
      * destruct (register_machine_fuel g_arch_dict fuel name (before ++ after) gm)
          as [gm1|] eqn:H1.
        -- apply IHparts. by eapply IH.
        -- clear. induction parts; simpl; [done|]. done.
      * destruct (register_machine_fuel g_arch_dict fuel (name +:+ "_" +:+ part)
                    (before ++ part :: after) gm) as [gm1|] eqn:H1.
        -- apply IHparts. by eapply IH.
        -- clear. induction parts; simpl; [done|]. done.
  - intros [= <-]. by apply register_plain_wf.
Qed.

Lemma parse_machines_wf (elems : list (string * list string)) :
  ∀ gm gm', Forall (machine_wf g_arch_dict) gm →
    parse_machines g_arch_dict elems gm = Some gm' → Forall (machine_wf g_arch_dict) gm'.
Proof.
  unfold parse_machines.
  induction elems as [|[name archs] elems IH]; intros gm gm' Hgm; simpl.
  - by intros [= <-].
  - destruct (decide (name = "")); [by apply IH|].
    destruct (register_machine g_arch_dict name archs gm) as [gm1|] eqn:H1.
    + apply IH. by eapply register_machine_fuel_wf.
    + clear. induction elems; simpl; [done|]. done.
Qed.

Lemma parse_machines_total (elems : list (string * list string)) (gm : list Machine) :
  is_Some (parse_machines g_arch_dict elems gm).
Proof.
  unfold parse_machines. revert gm.
  induction elems as [|[name archs] elems IH]; intros gm; simpl; [by eexists|].
  destruct (decide (name = "")); [apply IH|].
  destruct (register_machine_total name archs gm) as [gm1 ->]. apply IH.
Qed.

Lemma max_align_fold_ge (l : list Arch) (m : Z) :
  m ≤ fold_left (λ m a, Z.max m (arch_alignment a)) l m
  ∧ ∀ a, a ∈ l → arch_alignment a ≤ fold_left (λ m a, Z.max m (arch_alignment a)) l m.
Proof.
  revert m. induction l as [|b l IH]; intros m; simpl.
  - split; [lia|]. intros a Ha. inversion Ha.
  - destruct (IH (Z.max m (arch_alignment b))) as [H1 H2]. split; [lia|].
    intros a Ha. inversion Ha; subst; [lia|]. by apply H2.
Qed.

Lemma max_align_fold_attained (l : list Arch) (m : Z) :
  fold_left (λ m a, Z.max m (arch_alignment a)) l m = m
  ∨ ∃ a, a ∈ l ∧ arch_alignment a = fold_left (λ m a, Z.max m (arch_alignment a)) l m.
Proof.
  revert m. induction l as [|b l IH]; intros m; simpl; [by left|].
  destruct (IH (Z.max m (arch_alignment b))) as [H|(a & Ha & H)].
  - rewrite H. destruct (Z.max_spec m (arch_alignment b)) as [[_ ->]|[_ ->]].
    + right. exists b. split; [by left|done].
    + by left.
  - right. exists a. split; [by right|done].
Qed.

(** [max_align] is the greatest alignment of a non-empty list of
    architectures of alignment at least 1. *)
Lemma max_align_is_max (l : list Arch) :
  l ≠ [] → Forall (λ a, 1 ≤ arch_alignment a) l →
  (∀ a, a ∈ l → arch_alignment a ≤ max_align l)
  ∧ (∃ a, a ∈ l ∧ arch_alignment a = max_align l).
Proof.
  intros Hne Hpos. unfold max_align. split.
  - apply max_align_fold_ge.
  - destruct (max_align_fold_attained l 1) as [H|H]; [|done].
    destruct l as [|b l]; [done|]. inversion Hpos; subst.
    pose proof (proj2 (max_align_fold_ge (b :: l) 1) b (list_elem_of_here _ _)) as Hb.
    exists b. split; [by left|]. lia.
Qed.

End MachineFacts.
(** ** Claims on machine registration *)

Lemma register_machine_fuel_S (dict : gmap string Arch) (fuel : nat) (name : string)
    (archs : list string) (gm : list Machine) :
  register_machine_fuel dict (S fuel) name archs gm =
  match find_alternation archs with
  | Some (before, e, after) =>
      fold_left
        (λ acc part,
           match acc with
           | None => None
           | Some gm =>
               if decide (part = "")
               then register_machine_fuel dict fuel name (before ++ after) gm
               else register_machine_fuel dict fuel (name +:+ "_" +:+ part)
                      (before ++ part :: after) gm
           end)
        (split e "|") (Some gm)
  | None => Some (register_plain dict name archs gm)
  end.
Proof. reflexivity. Qed.

Lemma register_machine_fuel_plain (dict : gmap string Arch) (fuel : nat) (name : string)
    (archs : list string) (resolved : list Arch) (gm : list Machine) :
  Forall (λ a, has_bar a = false) archs →
  Forall2 (λ n a, n ≠ "" ∧ dict !! n = Some a) archs resolved →
  resolved ≠ [] →
  register_machine_fuel dict (S fuel) name archs gm
  = Some (gm ++ [mkMachine name archs resolved (max_align resolved)]).
Proof.
  intros Hbar Hres Hne. rewrite register_machine_fuel_S.
  apply find_alternation_None in Hbar. rewrite Hbar.
  unfold register_plain. rewrite (resolve_archs_known _ _ _ Hres).
  by destruct resolved.
Qed.

Lemma has_bar_alternation (p r : string) : has_bar (p +:+ String "|" r) = true.
Proof.
  unfold has_bar. rewrite contains_char_app, contains_char_cons.
  rewrite decide_True by done. apply orb_true_r.
Qed.

(** C3: the entry list [x; p|q; y] over known plain names registers exactly
    the two machines [B_p] on [x; p; y] and [B_q] on [x; q; y], in this order;
    with an empty alternative ([p|] or [|q]) the machine for the empty branch
    keeps the name [B] and its list is [x; y], the entry left out. *)
Theorem C3_alternation_expansion (dict : gmap string Arch) (B x p q y : string)
    (Ax Ap Aq Ay : Arch) (gm : list Machine) :
  arch_name_ok x → arch_name_ok p → arch_name_ok q → arch_name_ok y →
  dict !! x = Some Ax → dict !! p = Some Ap →
  dict !! q = Some Aq → dict !! y = Some Ay →
  register_machine dict B [x; p +:+ "|" +:+ q; y] gm
  = Some (gm ++ [mkMachine (B +:+ "_" +:+ p) [x; p; y] [Ax; Ap; Ay] (max_align [Ax; Ap; Ay]);
                 mkMachine (B +:+ "_" +:+ q) [x; q; y] [Ax; Aq; Ay] (max_align [Ax; Aq; Ay])])
  ∧ register_machine dict B [x; p +:+ "|"; y] gm
    = Some (gm ++ [mkMachine (B +:+ "_" +:+ p) [x; p; y] [Ax; Ap; Ay] (max_align [Ax; Ap; Ay]);
                   mkMachine B [x; y] [Ax; Ay] (max_align [Ax; Ay])])
  ∧ register_machine dict B [x; "|" +:+ q; y] gm
    = Some (gm ++ [mkMachine B [x; y] [Ax; Ay] (max_align [Ax; Ay]);
                   mkMachine (B +:+ "_" +:+ q) [x; q; y] [Ax; Aq; Ay] (max_align [Ax; Aq; Ay])]).
Proof.
  intros [Hx Hxb] [Hp Hpb] [Hq Hqb] [Hy Hyb] Dx Dp Dq Dy.
  assert (Hplain3 : ∀ n a name gm', n ≠ "" → has_bar n = false → dict !! n = Some a →
    register_machine_fuel dict 3 name [x; n; y] gm'
    = Some (gm' ++ [mkMachine name [x; n; y] [Ax; a; Ay] (max_align [Ax; a; Ay])])).
  { intros n a name gm' Hn Hnb Dn. apply register_machine_fuel_plain; [| |done].
    - by repeat constructor.
    - by repeat constructor. }
  assert (Hplain2 : ∀ name gm',
    register_machine_fuel dict 3 name [x; y] gm'
    = Some (gm' ++ [mkMachine name [x; y] [Ax; Ay] (max_align [Ax; Ay])])).
  { intros name gm'. apply register_machine_fuel_plain; [| |done].
    - by repeat constructor.
    - by repeat constructor. }
  unfold register_machine. simpl length.
  change ("|" +:+ q) with (String "|" q).
  split; [|split]; rewrite register_machine_fuel_S.
  - rewrite find_alternation_middle by (done || apply has_bar_alternation).
    rewrite split_app_delim by done. rewrite split_no_delim by done.
    cbn [fold_left app].
    rewrite (decide_False (P := p = "")) by done. rewrite (Hplain3 p Ap) by done.
    rewrite (decide_False (P := q = "")) by done. rewrite (Hplain3 q Aq) by done.
    by rewrite <- app_assoc.
  - rewrite find_alternation_middle by (done || apply has_bar_alternation).
    rewrite split_app_delim by done.
    cbn [split fold_left app].
    rewrite (decide_False (P := p = "")) by done. rewrite (Hplain3 p Ap) by done.
    rewrite (decide_True (P := "" = "")) by done. rewrite Hplain2.
    by rewrite <- app_assoc.
  - rewrite find_alternation_middle by (done || apply (has_bar_alternation "")).
    change (String "|" q) with ("" +:+ String "|" q).
    rewrite split_app_delim by done. rewrite split_no_delim by done.
    cbn [fold_left app].
    rewrite (decide_True (P := "" = "")) by done. rewrite Hplain2.
    rewrite (decide_False (P := q = "")) by done. rewrite (Hplain3 q Aq) by done.
    by rewrite <- app_assoc.
Qed.

(** ** Comment removal *)

Lemma scan_comments_nil (mode : ScanMode) : scan_comments mode "" = ("", mode).
Proof. reflexivity. Qed.

Lemma ends_with_char_cons2 (c a b : ascii) (s : string) :
  ends_with_char c (String a (String b s)) = ends_with_char c (String b s).
Proof. reflexivity. Qed.

(** One step of the scanner with at least two characters left. *)
Lemma scan_code_cons2 (c c2 : ascii) (rest : string) :
  scan_comments InCode (String c (String c2 rest)) =
  if decide (c = "034"%char ∨ c = "'"%char)
  then (String c (scan_comments (InString c) (String c2 rest)).1,
        (scan_comments (InString c) (String c2 rest)).2)
  else if decide (c = "/"%char ∧ c2 = "/"%char) then scan_comments InLineComment rest
  else if decide (c = "/"%char ∧ c2 = "*"%char) then scan_comments InBlockComment rest
  else (String c (scan_comments InCode (String c2 rest)).1,
        (scan_comments InCode (String c2 rest)).2).
Proof. reflexivity. Qed.

Lemma scan_line_cons (c : ascii) (rest : string) :
  scan_comments InLineComment (String c rest) =
  if decide (c = "010"%char)
  then (String c (scan_comments InCode rest).1, (scan_comments InCode rest).2)
  else scan_comments InLineComment rest.
Proof. reflexivity. Qed.

Lemma scan_block_cons2 (c c2 : ascii) (rest : string) :
  scan_comments InBlockComment (String c (String c2 rest)) =
  if decide (c = "*"%char ∧ c2 = "/"%char) then scan_comments InCode rest
  else scan_comments InBlockComment (String c2 rest).
Proof. reflexivity. Qed.

Lemma scan_string_cons2 (q c c2 : ascii) (rest : string) :
  scan_comments (InString q) (String c (String c2 rest)) =
  if decide (c = "\"%char)
  then (String c (String c2 (scan_comments (InString q) rest).1),
        (scan_comments (InString q) rest).2)
  else if decide (c = q)
  then (String c (scan_comments InCode (String c2 rest)).1,
        (scan_comments InCode (String c2 rest)).2)
  else (String c (scan_comments (InString q) (String c2 rest)).1,
        (scan_comments (InString q) (String c2 rest)).2).
Proof. reflexivity. Qed.

(** The scanner on [pre +:+ rest], when [pre] leaves it in code and no
    comment opener straddles the boundary: it scans [pre], then [rest] from
    code. *)
Lemma scan_comments_app (n : nat) :
  ∀ pre, (Str.len pre ≤ n)%nat → ∀ mode rest,
    mode_ok mode →
    (scan_comments mode pre).2 = InCode →
    ends_with_char "/" pre = false ∨ starts_comment_char rest = false →
    scan_comments mode (pre +:+ rest)
    = ((scan_comments mode pre).1 +:+ (scan_comments InCode rest).1,
       (scan_comments InCode rest).2).
Proof.
  induction n as [|n IH]; intros pre Hlen mode rest Hok Hend Hb.
  { destruct pre; [|simpl in Hlen; lia]. simpl in Hend. subst mode.
    rewrite app_empty_l. by destruct (scan_comments InCode rest). }
  destruct pre as [|c pre]; [apply (IH ""); simpl; try done; lia|].
  simpl in Hlen.
  assert (IH1 : ∀ mode', mode_ok mode' →
    (scan_comments mode' pre).2 = InCode →
    scan_comments mode' (pre +:+ rest)
    = ((scan_comments mode' pre).1 +:+ (scan_comments InCode rest).1,
       (scan_comments InCode rest).2)).
  { intros mode' Hok' Hend'. apply IH; [lia|done|done|].
    destruct Hb as [Hb|Hb]; [|by right]. left.
    destruct pre as [|c2 pre]; [done|]. by rewrite ends_with_char_cons2 in Hb. }
  rewrite app_cons.
  destruct pre as [|c2 pre].
  - (* the last character of [pre] *)
    rewrite app_empty_l. clear IH IH1.
    destruct mode as [| | |q]; simpl in Hend |- *.
    + destruct (decide (c = "034"%char ∨ c = "'"%char)) as [Hq|Hq]; [done|].
      destruct rest as [|c2 rest]; [done|].
      destruct (decide (c = "/"%char ∧ c2 = "/"%char)) as [[-> ->]|H1].
      { destruct Hb as [Hb|Hb]; by vm_compute in Hb. }
      destruct (decide (c = "/"%char ∧ c2 = "*"%char)) as [[-> ->]|H2].
      { destruct Hb as [Hb|Hb]; by vm_compute in Hb. }
      by destruct (scan_comments InCode (String c2 rest)).
    + destruct (decide (c = "010"%char)); [|done].
      by destruct (scan_comments InCode rest).
    + done.
    + simpl in Hok. destruct (decide (c = q)) as [Hcq|Hcq]; [|done].
      destruct rest as [|c2 rest]; [done|].
      rewrite decide_False by congruence.
      by destruct (scan_comments InCode (String c2 rest)).
  - (* at least two characters left in [pre] *)
    rewrite app_cons in *.
    assert (IH2 : ∀ mode', mode_ok mode' →
      (scan_comments mode' pre).2 = InCode →
      scan_comments mode' (pre +:+ rest)
      = ((scan_comments mode' pre).1 +:+ (scan_comments InCode rest).1,
         (scan_comments InCode rest).2)).
    { intros mode' Hok' Hend'. apply IH; [simpl in Hlen; lia|done|done|].
      destruct Hb as [Hb|Hb]; [|by right]. left.
      rewrite ends_with_char_cons2 in Hb.
      destruct pre as [|c3 pre]; [done|]. by rewrite ends_with_char_cons2 in Hb. }
    destruct mode as [| | |q].
    + rewrite (scan_code_cons2 c c2 pre) in *. rewrite (scan_code_cons2 c c2 (pre +:+ rest)).
      destruct (decide (c = "034"%char ∨ c = "'"%char)) as [Hq|Hq].
      { cbn [fst snd] in *. rewrite <- app_cons. rewrite IH1; [done| |done].
        simpl. destruct Hq as [->| ->]; done. }
      destruct (decide (c = "/"%char ∧ c2 = "/"%char)); [by rewrite IH2|].
      destruct (decide (c = "/"%char ∧ c2 = "*"%char)); [by rewrite IH2|].
      cbn [fst snd] in *. rewrite <- app_cons. by rewrite IH1.
    + rewrite (scan_line_cons c (String c2 pre)) in *.
      rewrite (scan_line_cons c (String c2 (pre +:+ rest))).
      destruct (decide (c = "010"%char)).
      * cbn [fst snd] in *. rewrite <- app_cons. by rewrite IH1.
      * rewrite <- app_cons. by rewrite IH1.
    + rewrite (scan_block_cons2 c c2 pre) in *.
      rewrite (scan_block_cons2 c c2 (pre +:+ rest)).
      destruct (decide (c = "*"%char ∧ c2 = "/"%char)); [by rewrite IH2|].
      rewrite <- app_cons. by rewrite IH1.
    + rewrite (scan_string_cons2 q c c2 pre) in *.
      rewrite (scan_string_cons2 q c c2 (pre +:+ rest)).
      destruct (decide (c = "\"%char)).
      { cbn [fst snd] in *. by rewrite IH2. }
      destruct (decide (c = q)).
      * cbn [fst snd] in *. rewrite <- app_cons. by rewrite IH1.
      * cbn [fst snd] in *. rewrite <- app_cons. by rewrite IH1.
Qed.

Lemma scan_comments_app_code (pre rest : string) :
  ends_in_code pre →
  ends_with_char "/" pre = false ∨ starts_comment_char rest = false →
  scan_comments InCode (pre +:+ rest)
  = (remove_comments pre +:+ (scan_comments InCode rest).1, (scan_comments InCode rest).2).
Proof. intros He Hb. by apply (scan_comments_app (Str.len pre)). Qed.

(** Inside a literal the scanner copies the body and the closing quote. *)
Lemma scan_literal_body (q : ascii) (post : string) (n : nat) :
  q ≠ "\"%char →
  ∀ body, (Str.len body ≤ n)%nat → literal_body q body = true →
    scan_comments (InString q) (body +:+ String q post)
    = (body +:+ String q (scan_comments InCode post).1, (scan_comments InCode post).2).
Proof.
  intros Hq. induction n as [|n IH]; intros body Hlen Hbody.
  { destruct body; [|simpl in Hlen; lia]. rewrite !app_empty_l.
    destruct post as [|c2 post].
    - simpl. by rewrite decide_True.
    - rewrite scan_string_cons2. rewrite decide_False by done.
      by rewrite decide_True. }
  destruct body as [|c body]; [apply IH; [simpl; lia|done]|].
  simpl in Hlen. rewrite !app_cons.
  destruct body as [|c2 body].
  - rewrite !app_empty_l. simpl in Hbody.
    destruct (decide (c = "\"%char)); [done|].
    destruct (decide (c = q)); [done|].
    rewrite scan_string_cons2. rewrite !decide_False by done.
    pose proof (IH "" ltac:(simpl; lia) eq_refl) as H0.
    rewrite !app_empty_l in H0. by rewrite H0.
  - rewrite !app_cons. rewrite scan_string_cons2.
    simpl in Hbody, Hlen.
    destruct (decide (c = "\"%char)).
    + rewrite IH; [done|lia|done].
    + destruct (decide (c = q)); [done|].
      rewrite <- app_cons. rewrite IH; [done|simpl; lia|done].
Qed.

(** A line comment runs up to the newline, which is kept. *)
Lemma scan_line_comment (body post : string) :
  Str.contains_char "010" body = false →
  scan_comments InLineComment (body +:+ String "010" post)
  = (String "010" (scan_comments InCode post).1, (scan_comments InCode post).2).
Proof.
  induction body as [|c body IH]; intros Hb.
  - rewrite app_empty_l, scan_line_cons. by rewrite decide_True.
  - rewrite contains_char_cons in Hb. destruct (decide (c = "010"%char)); [done|].
    rewrite app_cons, scan_line_cons. rewrite decide_False by done. by apply IH.
Qed.

(** A line comment that the text ends in. *)
Lemma scan_line_comment_eof (body : string) :
  Str.contains_char "010" body = false →
  (scan_comments InLineComment body).1 = "".
Proof.
  induction body as [|c body IH]; intros Hb; [done|].
  rewrite contains_char_cons in Hb. destruct (decide (c = "010"%char)); [done|].
  rewrite scan_line_cons. rewrite decide_False by done. by apply IH.
Qed.

(** A block comment runs up to the first [*/]. *)
Lemma scan_block_comment (post : string) (n : nat) :
  ∀ body, (Str.len body ≤ n)%nat → has_block_end (body +:+ "*") = false →
    scan_comments InBlockComment (body +:+ "*/" +:+ post) = scan_comments InCode post.
Proof.
  induction n as [|n IH]; intros body Hlen Hbody.
  { destruct body; [|simpl in Hlen; lia]. rewrite app_empty_l.
    change ("*/" +:+ post) with (String "*" (String "/" post)).
    rewrite scan_block_cons2. by rewrite decide_True. }
  destruct body as [|c body]; [apply IH; [simpl; lia|done]|].
  simpl in Hlen. rewrite app_cons in *.
  destruct body as [|c2 body].
  - rewrite app_empty_l in *.
    change ("*/" +:+ post) with (String "*" (String "/" post)).
    rewrite scan_block_cons2. rewrite decide_False by (by intros [_ ?]).
    rewrite scan_block_cons2. by rewrite decide_True.
  - rewrite app_cons in *. rewrite scan_block_cons2.
    cbn [has_block_end] in Hbody. apply orb_false_iff in Hbody as [H1 H2].
    apply bool_decide_eq_false in H1. rewrite decide_False by done.
    rewrite <- app_cons. apply IH; [simpl in *; lia|]. by rewrite app_cons.
Qed.

(** C8: where the scanner is in code, a string or character literal (its
    body free of the closing quote except behind a backslash) is copied
    verbatim, whatever comment openers it holds; a line comment is deleted
    up to its newline and a block comment up to its first closing marker. *)
Theorem C8_remove_comments_keeps_literals (pre : string) :
  ends_in_code pre →
  (∀ q body post, q = "034"%char ∨ q = "'"%char → literal_body q body = true →
     remove_comments (pre +:+ String q body +:+ String q post)
     = remove_comments pre +:+ String q body +:+ String q (remove_comments post))
  ∧ (∀ body post, ends_with_char "/" pre = false →
       Str.contains_char "010" body = false →
       remove_comments (pre +:+ "//" +:+ body +:+ String "010" post)
       = remove_comments pre +:+ String "010" (remove_comments post))
  ∧ (∀ body post, ends_with_char "/" pre = false →
       has_block_end (body +:+ "*") = false →
       remove_comments (pre +:+ "/*" +:+ body +:+ "*/" +:+ post)
       = remove_comments pre +:+ remove_comments post).
Proof.
  intros Hpre. split; [|split].
  - intros q body post Hq Hbody. unfold remove_comments at 1.
    rewrite scan_comments_app_code; [|done|right; by destruct Hq as [->| ->]].
    cbn [fst]. f_equal. rewrite app_cons.
    destruct body as [|c body].
    + rewrite app_empty_l. destruct post as [|c2 post].
      * simpl. rewrite decide_True by done. simpl. by rewrite decide_True.
      * rewrite scan_code_cons2. rewrite decide_True by done. cbn [fst].
        rewrite scan_string_cons2.
        rewrite decide_False by (by destruct Hq as [->| ->]).
        by rewrite decide_True.
    + rewrite app_cons, scan_code_cons2. rewrite decide_True by done. cbn [fst].
      rewrite <- app_cons.
      rewrite (scan_literal_body q post (Str.len (String c body)));
        [done|by destruct Hq as [->| ->]|done|done].
  - intros body post Hslash Hbody. unfold remove_comments at 1.
    rewrite scan_comments_app_code; [|done|by left].
    cbn [fst]. f_equal.
    change ("//" +:+ body +:+ String "010" post)
      with (String "/" (String "/" (body +:+ String "010" post))).
    rewrite scan_code_cons2. rewrite decide_False by (by intros [?|?]).
    rewrite decide_True by done. by rewrite scan_line_comment.
  - intros body post Hslash Hbody. unfold remove_comments at 1.
    rewrite scan_comments_app_code; [|done|by left].
    cbn [fst]. f_equal.
    change ("/*" +:+ body +:+ "*/" +:+ post)
      with (String "/" (String "*" (body +:+ "*/" +:+ post))).
    rewrite scan_code_cons2. rewrite decide_False by (by intros [?|?]).
    rewrite decide_False by (by intros [_ ?]). rewrite decide_True by done.
    by rewrite (scan_block_comment post (Str.len body)).
Qed.
(** ** Kernel assembly *)

Lemma existsb_generic (impls : list Impl) :
  existsb (λ i, bool_decide (impl_name i = "generic")) impls = true ↔ has_generic impls.
Proof.
  rewrite existsb_exists. unfold has_generic. split.
  - intros (i & Hin & Hi). exists i. split; [by apply list_elem_of_In|].
    by apply bool_decide_eq_true in Hi.
  - intros (i & Hin & Hi). exists i. split; [by apply list_elem_of_In|].
    by apply bool_decide_eq_true.
Qed.

Lemma erase_first_dispatcher_generic (impls rest : list Impl) :
  erase_first_dispatcher impls = Some rest → has_generic impls → has_generic rest.
Proof.
  revert rest. induction impls as [|i impls IH]; intros rest; simpl; [done|].
  destruct (decide (impl_name i = "dispatcher")) as [Hd|Hd].
  - intros [= <-] (g & Hin & Hg). exists g. split; [|done].
    apply elem_of_cons in Hin as [->|Hin]; [congruence|done].
  - destruct (erase_first_dispatcher impls) as [r|]; [|done].
    simpl. intros [= <-] (g & Hin & Hg).
    apply elem_of_cons in Hin as [->|Hin].
    + exists i. split; [by left|done].
    + destruct (IH r eq_refl) as (g' & Hin' & Hg'); [by exists g|].
      exists g'. split; [by right|done].
Qed.

Lemma assemble_kernel_generic (h : KernelHeader) (diag : list string) (k : Kernel) :
  assemble_kernel h = (diag, Some k) → has_generic (kernel_impls k) ∧ diag = [].
Proof.
  unfold assemble_kernel. fold (named_impls h).
  destruct (named_impls h) as [|i0 impls] eqn:Hn; [done|].
  destruct (existsb _ (i0 :: impls)) eqn:Hg; cbn [negb]; [|done].
  apply existsb_generic in Hg.
  destruct (erase_first_dispatcher (i0 :: impls)) as [rest|] eqn:He.
  - intros [= <- <-]. simpl. split; [|done]. by eapply erase_first_dispatcher_generic.
  - intros [= <- <-]. by simpl.
Qed.

Lemma assemble_kernel_no_generic (h : KernelHeader) :
  ¬ has_generic (named_impls h) →
  assemble_kernel h = (if decide (named_impls h = []) then [] else [generic_warning h], None).
Proof.
  intros Hno. unfold assemble_kernel. fold (named_impls h).
  destruct (named_impls h) as [|i0 impls] eqn:Hn; [done|].
  destruct (existsb _ (i0 :: impls)) eqn:Hg; cbn [negb].
  - by apply existsb_generic in Hg.
  - by rewrite decide_False.
Qed.

Lemma parse_kernels_snoc (headers : list KernelHeader) (h : KernelHeader)
    (st : list string * list Kernel) :
  parse_kernels (headers ++ [h]) st
  = ((parse_kernels headers st).1 ++ (assemble_kernel h).1,
     (parse_kernels headers st).2 ++ option_list (assemble_kernel h).2).
Proof.
  unfold parse_kernels. rewrite fold_left_app. simpl.
  by destruct (assemble_kernel h).
Qed.

Lemma parse_kernels_generic (headers : list KernelHeader) :
  ∀ k, k ∈ (parse_kernels headers ([], [])).2 → has_generic (kernel_impls k).
Proof.
  induction headers as [|h headers IH] using rev_ind; intros k.
  - simpl. by inversion 1.
  - rewrite parse_kernels_snoc. cbn [snd]. rewrite elem_of_app. intros [Hk|Hk]; [by apply IH|].
    destruct (assemble_kernel h) as [diag [k'|]] eqn:Ha; simpl in Hk.
    + apply list_elem_of_singleton in Hk as ->. by apply assemble_kernel_generic in Ha as [? _].
    + by inversion Hk.
Qed.

(** C5 (as the code has it): every kernel of the catalog has an
    implementation named [generic]; a header with named implementations but
    no [generic] among them adds no kernel and writes one warning; a header
    without any named implementation adds no kernel and writes nothing. *)
Theorem C5_generic_mandatory (headers : list KernelHeader) (h : KernelHeader) :
  (∀ k, k ∈ (parse_kernels headers ([], [])).2 → has_generic (kernel_impls k))
  ∧ (¬ has_generic (named_impls h) → named_impls h ≠ [] →
     parse_kernels (headers ++ [h]) ([], [])
     = ((parse_kernels headers ([], [])).1 ++ [generic_warning h],
        (parse_kernels headers ([], [])).2))
  ∧ (named_impls h = [] →
     parse_kernels (headers ++ [h]) ([], []) = parse_kernels headers ([], [])).
Proof.
  split; [apply parse_kernels_generic|]. split.
  - intros Hno Hne. rewrite parse_kernels_snoc, assemble_kernel_no_generic by done.
    rewrite decide_False by done. simpl. by rewrite app_nil_r.
  - intros Hnil. rewrite parse_kernels_snoc, assemble_kernel_no_generic.
    + rewrite decide_True by done. simpl. rewrite !app_nil_r.
      by destruct (parse_kernels headers ([], [])).
    + rewrite Hnil. intros (i & Hi & _). by inversion Hi.
Qed.

(** C5, as stated, fails on a header without implementations: none is named
    [generic], no kernel is added, and no diagnostic is written. *)
Lemma C5_counterexample :
  let h := mkKernelHeader "volk_32f_empty" [] in
  ¬ has_generic (header_parsed h)
  ∧ parse_kernels [h] ([], []) = ([], []).
Proof.
  split; [|reflexivity]. intros (i & Hi & _). by inversion Hi.
Qed.
(** ** The loop/conditional nesting template *)

Section Nesting.

Variable G : Globals.
Variable extra_args : list string.

(** The buffered body renders to one [OTHER] line, whatever the engine: the
    condition [i == 0] is none of the forms [evaluate_condition] knows. *)
Lemma nesting_body_render (fuel : nat) (e : Engine) :
  render_fuel G extra_args fuel e nesting_body
  = Done (banner +:+ "OTHER" +:+ newline, e, []).
Proof. destruct fuel; vm_compute; reflexivity. Qed.

(** The template buffers the body and runs the machines loop on it. *)
Lemma nesting_template_render_with
    (rb : Engine → string → Outcome (string * Engine * list string)) (e : Engine) :
  render_with G extra_args rb e nesting_template
  = '(out, e', cerr') ←
      loop_over rb (λ _ m e, set_current_machine (Some m) e) nesting_body 0
        (g_machines G) e;
    Done (banner +:+ out +:+ "", set_current_machine None e', cerr').
Proof.
  cbv -[loop_over].
  destruct (loop_over _ _ _ _ _ _) as [[[out e'] cerr']| |]; reflexivity.
Qed.

Lemma strip_banner_other : strip_banner (banner +:+ "OTHER" +:+ newline) = "OTHER" +:+ newline.
Proof. vm_compute. reflexivity. Qed.

Lemma nesting_loop (fuel : nat) (ms : list Machine) :
  ∀ (i : Z) (e : Engine),
    render_depth_ e < max_render_depth_ →
    ∃ e', loop_over (render_block G extra_args (S fuel))
            (λ _ m e, set_current_machine (Some m) e) nesting_body i ms e
          = Done (repeat_string (length ms) ("OTHER" +:+ newline), e', [])
          ∧ render_depth_ e' = render_depth_ e.
Proof.
  induction ms as [|m ms IH]; intros i e Hd; [by exists e|].
  cbn [loop_over length repeat_string].
  change (render_block G extra_args (S fuel) (set_current_machine (Some m) e) nesting_body)
    with (render_block_of (Some (render_fuel G extra_args fuel))
            (set_current_machine (Some m) e) nesting_body).
  unfold render_block_of.
  change (render_depth_ (set_current_machine (Some m) e)) with (render_depth_ e).
  destruct (Z.leb_spec max_render_depth_ (render_depth_ e)) as [?|_]; [lia|].
  rewrite nesting_body_render. cbn [mbind outcome_bind]. rewrite strip_banner_other.
  destruct (IH (i + 1) (copy_back (sub_engine (set_current_machine (Some m) e))
                          (set_current_machine (Some m) e))) as (e' & -> & He'); [done|].
  exists e'. split; [|done]. cbn [mbind outcome_bind]. by rewrite app_assoc_str.
Qed.

End Nesting.

(** ** Lines and occurrences *)

Lemma getlines_cons (c : ascii) (rest : string) :
  getlines (String c rest)
  = if decide (c = "010"%char) then "" :: getlines rest
    else match getlines rest with
         | [] => [String c ""]
         | l :: ls => String c l :: ls
         end.
Proof. reflexivity. Qed.

Lemma getlines_app_line (line rest : string) :
  Str.contains_char "010" line = false →
  getlines (line +:+ String "010" rest) = line :: getlines rest.
Proof.
  induction line as [|c line IH]; intros Hl.
  - rewrite app_empty_l, getlines_cons. by rewrite decide_True.
  - rewrite contains_char_cons in Hl. destruct (decide (c = "010"%char)) as [|Hc]; [done|].
    rewrite app_cons, getlines_cons. rewrite decide_False by done. by rewrite IH.
Qed.

Lemma getlines_repeat_other (n : nat) :
  getlines (repeat_string n ("OTHER" +:+ newline)) = replicate n "OTHER".
Proof.
  induction n as [|n IH]; [done|].
  cbn [repeat_string replicate]. rewrite <- IH.
  change (("OTHER" +:+ newline) +:+ repeat_string n ("OTHER" +:+ newline))
    with ("OTHER" +:+ String "010" (repeat_string n ("OTHER" +:+ newline))).
  by apply getlines_app_line.
Qed.

Lemma getlines_banner (rest : string) :
  getlines (banner +:+ rest)
  = "" :: "/* this file was generated by volk template utils, do not edit! */"
       :: "" :: getlines rest.
Proof.
  change (banner +:+ rest)
    with ("" +:+ String "010"
            ("/* this file was generated by volk template utils, do not edit! */"
             +:+ String "010" ("" +:+ String "010" rest))).
  by rewrite !getlines_app_line.
Qed.

Lemma count_lines_nesting_output (text : string) (n : nat) :
  text ≠ "" →
  text ≠ "/* this file was generated by volk template utils, do not edit! */" →
  count_lines text (banner +:+ repeat_string n ("OTHER" +:+ newline))
  = if decide (text = "OTHER") then n else O.
Proof.
  intros H1 H2. unfold count_lines. rewrite getlines_banner, getlines_repeat_other.
  cbn [List.filter]. rewrite !bool_decide_eq_false_2 by done.
  induction n as [|n IH]; [by destruct (decide _)|].
  cbn [replicate List.filter]. destruct (decide (text = "OTHER")) as [->|Hne].
  - rewrite bool_decide_eq_true_2 by done. simpl. by rewrite IH.
  - rewrite bool_decide_eq_false_2 by done. exact IH.
Qed.

Lemma count_occurrences_banner_app (rest : string) :
  count_occurrences banner (banner +:+ rest)
  = S ((if Str.starts_with (Str.drop 1 banner) rest then 1 else 0)
       + count_occurrences banner rest)%nat.
Proof. vm_compute. reflexivity. Qed.

Lemma starts_with_repeat_other (p : string) (n : nat) :
  Str.starts_with (String "/" p) (repeat_string n ("OTHER" +:+ newline)) = false.
Proof. by destruct n. Qed.

Lemma count_occurrences_repeat_other (n : nat) :
  count_occurrences banner (repeat_string n ("OTHER" +:+ newline)) = O.
Proof.
  induction n as [|n IH]; [by vm_compute|].
  cbn [repeat_string].
  assert (Hstep : ∀ rest,
    count_occurrences banner (("OTHER" +:+ newline) +:+ rest)
    = ((if Str.starts_with (Str.drop 1 banner) rest then 1 else 0)
       + count_occurrences banner rest)%nat).
  { intros rest. vm_compute. reflexivity. }
  rewrite Hstep, IH.
  change (Str.drop 1 banner)
    with (String "/" "* this file was generated by volk template utils, do not edit! */"
          +:+ String "010" (String "010" "")).
  rewrite app_cons. by rewrite starts_with_repeat_other.
Qed.

Lemma count_occurrences_nesting_output (n : nat) :
  count_occurrences banner (banner +:+ repeat_string n ("OTHER" +:+ newline)) = 1%nat.
Proof.
  rewrite count_occurrences_banner_app, count_occurrences_repeat_other.
  change (Str.drop 1 banner)
    with (String "/" "* this file was generated by volk template utils, do not edit! */"
          +:+ String "010" (String "010" "")).
  rewrite app_cons. by rewrite starts_with_repeat_other.
Qed.

(** C1 (as the code has it): on the nesting template the engine writes the
    banner once and then one [OTHER] line for each machine; no [FIRST] line
    is written, the condition [i == 0] being false on every iteration. *)
Theorem C1_nesting_renders_other_only (G : Globals) (extra_args : list string)
    (e : Engine) :
  render_depth_ e < max_render_depth_ →
  ∃ out e',
    render G extra_args e nesting_template = Done (out, e', [])
    ∧ out = banner +:+ repeat_string (length (g_machines G)) ("OTHER" +:+ newline)
    ∧ count_lines "FIRST" out = O
    ∧ count_lines "OTHER" out = length (g_machines G)
    ∧ count_occurrences banner out = 1%nat.
Proof.
  intros Hd. unfold render.
  destruct (Z.to_nat (max_render_depth_ - render_depth_ e)) as [|fuel] eqn:Hfuel; [lia|].
  change (render_fuel G extra_args (S fuel) e nesting_template)
    with (render_with G extra_args (render_block G extra_args (S fuel)) e nesting_template).
  rewrite nesting_template_render_with.
  destruct (nesting_loop G extra_args fuel (g_machines G) 0 e Hd) as (e' & -> & _).
  cbn [mbind outcome_bind]. rewrite app_empty_r.
  eexists _, _. split; [reflexivity|]. split; [reflexivity|].
  rewrite !count_lines_nesting_output by done.
  rewrite count_occurrences_nesting_output. done.
Qed.

(** The statement of C1 fails on a catalog of two machines: no line is
    [FIRST] (one is claimed) and two are [OTHER] (one is claimed). *)
Lemma C1_counterexample :
  ∃ out e',
    render demo_globals [] new_engine nesting_template = Done (out, e', [])
    ∧ length (g_machines demo_globals) = 2%nat
    ∧ count_lines "FIRST" out = O
    ∧ count_lines "OTHER" out = 2%nat.
Proof. eexists _, _. split; [vm_compute; reflexivity|]. by vm_compute. Qed.

(** C1 at a catalog of two machines and a default-constructed engine. *)
Lemma C1_witness :
  ∃ out e',
    render demo_globals ["avx"] new_engine nesting_template = Done (out, e', [])
    ∧ out = banner +:+ repeat_string 2 ("OTHER" +:+ newline)
    ∧ count_lines "FIRST" out = O
    ∧ count_lines "OTHER" out = 2%nat
    ∧ count_occurrences banner out = 1%nat.
Proof.
  apply (C1_nesting_renders_other_only demo_globals ["avx"] new_engine).
  by vm_compute.
Defined.
(** ** The matcher against the patterns' meaning *)

Lemma all_chars_app (P : ascii → Prop) (s t : string) :
  all_chars P (s +:+ t) ↔ all_chars P s ∧ all_chars P t.
Proof.
  induction s as [|c s IH]; [simpl; rewrite app_empty_l; tauto|].
  rewrite app_cons. simpl. rewrite IH. tauto.
Qed.

Lemma Matches_all_chars (P : ascii → Prop) (r : Regex) (s : string) :
  classes_within P r → Matches r s → all_chars P s.
Proof.
  intros Hr Hm. induction Hm; simpl in Hr |- *; try done.
  - split; [by apply Hr|done].
  - destruct Hr. apply all_chars_app. split; auto.
  - apply all_chars_app. split; auto.
  - auto.
Qed.

Section MatcherSound.

Context {A : Type}.
Implicit Types k : @Cont A.

Lemma star_iter_sound (greedy : bool) (r : Regex)
    (step : bool → string → Captures → @Cont A → option A) k :
  sound_step r step →
  ∀ n start s caps x, star_iter greedy step k n start s caps = Some x →
    ∃ s1 s2 start' caps',
      s = s1 +:+ s2 ∧ Matches (Star greedy r) s1 ∧ k start' s2 caps' = Some x.
Proof.
  intros Hstep. induction n as [|n IH]; intros start s caps x Hx.
  { exists "", s, start, caps. repeat split; [constructor|done]. }
  assert (Hk : ∀ y, k start s caps = Some y →
    ∃ s1 s2 start' caps',
      s = s1 +:+ s2 ∧ Matches (Star greedy r) s1 ∧ k start' s2 caps' = Some y).
  { intros y Hy. exists "", s, start, caps. repeat split; [constructor|done]. }
  assert (Hmore : ∀ y,
    step start s caps
      (λ start' s' caps', if decide (Str.len s' < Str.len s)%nat
                          then star_iter greedy step k n start' s' caps' else None) = Some y →
    ∃ s1 s2 start' caps',
      s = s1 +:+ s2 ∧ Matches (Star greedy r) s1 ∧ k start' s2 caps' = Some y).
  { intros y Hy. apply Hstep in Hy as (s1 & s2 & st' & caps' & -> & Hm & Hy).
    destruct (decide _); [|done].
    apply IH in Hy as (s3 & s4 & st'' & caps'' & -> & Hm' & Hy).
    exists (s1 +:+ s3), s4, st'', caps''. rewrite app_assoc_str.
    repeat split; [by constructor|done]. }
  cbn [star_iter] in Hx. destruct greedy.
  - destruct (step _ _ _ _) eqn:Hs.
    + injection Hx as <-. by apply Hmore.
    + by apply Hk.
  - destruct (k start s caps) eqn:Hks.
    + injection Hx as <-. by apply Hk.
    + by apply Hmore.
Qed.

Lemma rmatch_sound (r : Regex) : sound_step (A := A) r (rmatch r).
Proof.
  induction r as [|negated items|r1 IH1 r2 IH2|greedy r IH|i r IH|];
    intros start s caps k x Hx; cbn [rmatch] in Hx.
  - exists "", s, start, caps. repeat split; [constructor|done].
  - destruct s as [|c s]; [done|]. destruct (class_matches negated items c) eqn:Hc; [|done].
    exists (String c ""), s, false, caps. repeat split; [by constructor|done].
  - apply IH1 in Hx as (s1 & s' & st' & caps' & -> & Hm1 & Hx).
    apply IH2 in Hx as (s2 & s3 & st'' & caps'' & -> & Hm2 & Hx).
    exists (s1 +:+ s2), s3, st'', caps''. rewrite app_assoc_str.
    repeat split; [by constructor|done].
  - by eapply star_iter_sound.
  - apply IH in Hx as (s1 & s2 & st' & caps' & -> & Hm & Hx).
    eexists s1, s2, st', _. repeat split; [by constructor|exact Hx].
  - destruct start; [|done].
    exists "", s, true, caps. repeat split; [constructor|done].
Qed.

End MatcherSound.

Lemma regex_match_sound (r : Regex) (s : string) (m : MatchResult) :
  regex_match r s = Some m → Matches r s.
Proof.
  unfold regex_match. intros H.
  apply rmatch_sound in H as (s1 & s2 & st' & caps' & -> & Hm & Hk).
  destruct s2; [|done]. by rewrite app_empty_r.
Qed.

Lemma matches_sound (r : Regex) (s : string) : matches r s = true → Matches r s.
Proof.
  unfold matches. rewrite bool_decide_eq_true. intros [m Hm].
  by eapply regex_match_sound.
Qed.

Lemma rev_app_spec (s t : string) : String.rev_app s t = String.rev s +:+ t.
Proof.
  unfold String.rev. revert t. induction s as [|c s IH]; intros t; [done|].
  simpl. rewrite IH, (IH (String c "")). by rewrite app_assoc_str.
Qed.

Lemma rev_cons (c : ascii) (s : string) : String.rev (String c s) = String.rev s +:+ String c "".
Proof. unfold String.rev at 1. simpl. by rewrite rev_app_spec. Qed.

Lemma search_from_sound (r : Regex) (s : string) :
  ∀ start before m, search_from r start before s = Some m →
    ∃ skipped matched,
      s = skipped +:+ matched +:+ match_suffix m
      ∧ match_prefix m = String.rev before +:+ skipped
      ∧ Matches r matched.
Proof.
  induction s as [|c s IH]; intros start before m; cbn [search_from].
  - destruct (rmatch _ _ _ _ _) eqn:Hr; [|done]. intros [= <-].
    apply rmatch_sound in Hr as (s1 & s2 & st' & caps' & Hs & Hm & [= <-]).
    exists "", s1. cbn [match_suffix match_prefix]. by rewrite app_empty_r.
  - destruct (rmatch _ _ _ _ _) eqn:Hr.
    + intros [= <-].
      apply rmatch_sound in Hr as (s1 & s2 & st' & caps' & Hs & Hm & [= <-]).
      exists "", s1. cbn [match_suffix match_prefix]. by rewrite app_empty_r.
    + intros H. apply IH in H as (skipped & matched & -> & Hp & Hm).
      exists (String c skipped), matched. split; [done|]. split; [|done].
      rewrite Hp, rev_cons. by rewrite app_assoc_str.
Qed.

Lemma regex_search_sound (r : Regex) (s : string) (m : MatchResult) :
  regex_search r s = Some m →
  ∃ matched, s = match_prefix m +:+ matched +:+ match_suffix m ∧ Matches r matched.
Proof.
  unfold regex_search. intros H.
  apply search_from_sound in H as (skipped & matched & -> & Hp & Hm).
  exists matched. by rewrite Hp.
Qed.
(** ** Variable substitution *)

Lemma take_app_len (s t : string) : Str.take (Str.len s) (s +:+ t) = s.
Proof. induction s as [|c s IH]; [by destruct t|]. rewrite app_cons. simpl. by rewrite IH. Qed.

Lemma not_closing_brace (c : ascii) :
  class_matches true [CLit "}"] c = negb (bool_decide (c = "}"%char)).
Proof. unfold class_matches. simpl. by rewrite orb_false_r. Qed.

Section VarPattern.

Context {A : Type}.
Implicit Types k : @Cont A.

Lemma star_iter_S (greedy : bool) (step : bool → string → Captures → @Cont A → option A)
    k (n : nat) (start : bool) (s : string) (caps : Captures) :
  star_iter greedy step k (S n) start s caps
  = let more (_ : unit) :=
      step start s caps
        (λ start' s' caps',
           if decide (Str.len s' < Str.len s)%nat
           then star_iter greedy step k n start' s' caps' else None) in
    if greedy then
      match more () with
      | Some x => Some x
      | None => k start s caps
      end
    else
      match k start s caps with
      | Some x => Some x
      | None => more ()
      end.
Proof. reflexivity. Qed.

Lemma rmatch_class (negated : bool) (items : list ClassItem) (start : bool) (c : ascii)
    (s : string) (caps : Captures) k :
  rmatch (Class negated items) start (String c s) caps k
  = if class_matches negated items c then k false s caps else None.
Proof. reflexivity. Qed.

Lemma rmatch_seq (r1 r2 : Regex) (start : bool) (s : string) (caps : Captures) k :
  rmatch (Seq r1 r2) start s caps k
  = rmatch r1 start s caps (λ start' s' caps', rmatch r2 start' s' caps' k).
Proof. reflexivity. Qed.

Lemma rmatch_group (i : nat) (r : Regex) (start : bool) (s : string) (caps : Captures) k :
  rmatch (Group i r) start s caps k
  = rmatch r start s caps
      (λ start' s' caps', k start' s' ((i, Str.take (Str.len s - Str.len s') s) :: caps')).
Proof. reflexivity. Qed.

Lemma rmatch_star (greedy : bool) (r : Regex) (start : bool) (s : string)
    (caps : Captures) k :
  rmatch (Star greedy r) start s caps k
  = star_iter greedy (rmatch r) k (Str.len s) start s caps.
Proof. reflexivity. Qed.

(** The greedy run of [[^}]] takes every character up to the closing brace
    when what follows the run cannot match before the brace. *)
Lemma star_iter_to_brace k (suf : string) (caps : Captures) :
  (∀ start c s caps', c ≠ "}"%char → k start (String c s) caps' = None) →
  ∀ (expr : string) (n : nat) (start : bool),
    Str.contains_char "}" expr = false →
    (Str.len (expr +:+ String "}" suf) ≤ n)%nat →
    star_iter true (rmatch (Class true [CLit "}"])) k n start (expr +:+ String "}" suf) caps
    = k (if decide (expr = "") then start else false) (String "}" suf) caps.
Proof.
  intros Hk. induction expr as [|c expr IH]; intros n start Hno Hn.
  - rewrite app_empty_l in *. destruct n as [|n]; [done|].
    rewrite star_iter_S. cbv beta zeta. rewrite rmatch_class.
    rewrite not_closing_brace. by rewrite bool_decide_eq_true_2.
  - rewrite app_cons in *. rewrite contains_char_cons in Hno.
    destruct (decide (c = "}"%char)) as [|Hc]; [done|].
    destruct n as [|n]; [simpl in Hn; lia|].
    rewrite star_iter_S. cbv beta zeta. rewrite rmatch_class.
    rewrite not_closing_brace.
    rewrite bool_decide_eq_false_2 by done. cbn [negb].
    rewrite decide_True by (simpl; lia).
    rewrite IH; [|done|simpl in Hn; lia].
    rewrite (decide_False (P := String c expr = "")) by done.
    destruct (decide (expr = "")) as [->|_].
    + destruct (k false (String "}" suf) caps) eqn:Hr; [done|].
      by rewrite Hk.
    + destruct (k false (String "}" suf) caps) eqn:Hr; [done|].
      by rewrite Hk.
Qed.

(** [var_re] at a [${expr}] whose [expr] is not empty and holds no closing
    brace: the match is this occurrence, [expr] its first sub-match. *)
Lemma rmatch_var_re_occurrence k (start : bool) (expr suf : string) (caps : Captures) :
  expr ≠ "" → Str.contains_char "}" expr = false →
  rmatch var_re start ("${" +:+ expr +:+ String "}" suf) caps k
  = k false suf ((1%nat, expr) :: caps).
Proof.
  intros Hne Hno. destruct expr as [|c expr]; [done|].
  rewrite contains_char_cons in Hno.
  destruct (decide (c = "}"%char)) as [|Hc]; [done|].
  change ("${" +:+ String c expr +:+ String "}" suf)
    with (String "$" (String "{" (String c (expr +:+ String "}" suf)))).
  unfold var_re. cbn [seq lit]. unfold plus, chr, not_chr.
  rewrite !rmatch_seq, rmatch_class.
  change (class_matches false [CLit "$"] "$") with true. cbv iota.
  rewrite rmatch_class.
  change (class_matches false [CLit "{"] "{") with true. cbv iota.
  rewrite rmatch_seq, rmatch_group, rmatch_seq, rmatch_class.
  rewrite not_closing_brace.
  rewrite bool_decide_eq_false_2 by done. cbn [negb].
  rewrite rmatch_star.
  rewrite (star_iter_to_brace _ suf); [| |done|done].
  - rewrite rmatch_class.
    change (class_matches false [CLit "}"] "}") with true. cbv iota.
    do 2 f_equal. f_equal.
    replace (Str.len (String c (expr +:+ String "}" suf)) - Str.len (String "}" suf))%nat
      with (Str.len (String c expr)).
    + rewrite <- app_cons. apply take_app_len.
    + simpl. rewrite len_app. simpl. lia.
  - intros st c' s' caps' Hc'. rewrite rmatch_class. unfold class_matches. simpl.
    by rewrite bool_decide_eq_false_2.
Qed.

(** [var_re] fails where the text does not start with [${]. *)
Lemma rmatch_var_re_no_opener k (start : bool) (s : string) (caps : Captures) :
  Str.starts_with "${" s = false → rmatch var_re start s caps k = None.
Proof.
  intros Hs. unfold var_re. cbn [seq lit]. unfold chr. rewrite !rmatch_seq.
  destruct s as [|c s]; [done|]. rewrite rmatch_class. unfold class_matches at 1. simpl.
  simpl in Hs. destruct (decide ("$"%char = c)) as [<-|Hc].
  - rewrite bool_decide_eq_true_2 by done. simpl.
    destruct s as [|c2 s]; [done|].
    destruct (decide ("{"%char = c2)) as [<-|Hc2]; [done|].
    by rewrite bool_decide_eq_false_2.
  - by rewrite bool_decide_eq_false_2.
Qed.

End VarPattern.

Lemma find_None_cons (p : string) (c : ascii) (s : string) :
  Str.find p (String c s) = None → Str.starts_with p (String c s) = false ∧ Str.find p s = None.
Proof.
  cbn [Str.find]. destruct (Str.starts_with p (String c s)); [done|].
  by destruct (Str.find p s).
Qed.

(** The first [${expr}] of a line is what [regex_search] finds. *)
Lemma search_var_re_first (expr suf : string) :
  expr ≠ "" → Str.contains_char "}" expr = false →
  ∀ (pre before : string) (start : bool),
    Str.find "${" pre = None →
    search_from var_re start before (pre +:+ "${" +:+ expr +:+ String "}" suf)
    = Some (mkMatch (String.rev before +:+ pre) [(1%nat, expr)] suf).
Proof.
  intros Hne Hno. induction pre as [|c pre IH]; intros before start Hpre.
  - rewrite app_empty_l, app_empty_r.
    change ("${" +:+ expr +:+ String "}" suf)
      with (String "$" (String "{" (expr +:+ String "}" suf))).
    cbn [search_from].
    change (String "$" (String "{" (expr +:+ String "}" suf)))
      with ("${" +:+ expr +:+ String "}" suf).
    by rewrite rmatch_var_re_occurrence.
  - apply find_None_cons in Hpre as [Hhere Hpre].
    rewrite app_cons. cbn [search_from].
    rewrite rmatch_var_re_no_opener.
    + rewrite IH by done. by rewrite rev_cons, app_assoc_str.
    + simpl in Hhere |- *. destruct (decide ("$"%char = c)) as [<-|]; [|done].
      destruct pre as [|c2 pre]; [done|]. by rewrite app_cons.
Qed.

Lemma regex_search_var_re_first (pre expr suf : string) :
  Str.find "${" pre = None → expr ≠ "" → Str.contains_char "}" expr = false →
  regex_search var_re (pre +:+ "${" +:+ expr +:+ String "}" suf)
  = Some (mkMatch pre [(1%nat, expr)] suf).
Proof.
  intros Hpre Hne Hno. unfold regex_search.
  by rewrite search_var_re_first.
Qed.

(** An expression that is no variable and none of the known names evaluates
    to the empty string, whatever is selected. *)
Lemma evaluate_expression_unknown (e : Engine) (expr : string) :
  vars_ e !! trim expr = None → trim expr ∉ known_fields →
  evaluate_expression e expr = "".
Proof.
  intros Hvars Hunknown. unfold evaluate_expression. rewrite Hvars. cbv zeta.
  assert (Hne : ∀ n, n ∈ known_fields → trim expr ≠ n) by (by intros n Hn <-).
  destruct (current_kernel_ e) as [k|], (current_arch_ e) as [a|],
    (current_machine_ e) as [m|];
    repeat (rewrite decide_False by (apply Hne, list_elem_of_In; simpl; tauto));
    rewrite !bool_decide_eq_false_2 by (apply Hne, list_elem_of_In; simpl; tauto);
    cbn [andb];
    repeat match goal with
           | |- context [nth_arg ?l ?i] => destruct (nth_arg l i)
           | |- context [if ?b && ?c then _ else _] => destruct (b && c)
           | |- context [?l !! ?i] => destruct (l !! i)
           end;
    repeat (rewrite decide_False by (apply Hne, list_elem_of_In; simpl; tauto));
    reflexivity.
Qed.

(** ** Loops over an unknown or inactive collection *)

Lemma find_block_start_None (s : string) :
  all_chars (λ c, c ≠ "<"%char) s → Str.find "<%" s = None.
Proof.
  induction s as [|c s IH]; [done|]. intros [Hc Hs].
  cbn [Str.find Str.starts_with]. rewrite decide_False by done.
  by rewrite IH.
Qed.

Lemma endfor_classes : classes_within (λ c, c ≠ "<"%char) endfor_re.
Proof.
  unfold endfor_re. cbn [seq lit]. unfold ws_star, ws, chr. cbn [classes_within].
  repeat split; intros c Hc ->; by vm_compute in Hc.
Qed.

Lemma endfor_not_multiline_start (line : string) :
  matches endfor_re line = true → multiline_start line = None.
Proof.
  intros Hm. apply matches_sound in Hm.
  apply (Matches_all_chars _ _ _ endfor_classes) in Hm.
  unfold multiline_start. by rewrite find_block_start_None.
Qed.

Section Loops.

Variable G : Globals.
Variable extra_args : list string.
Variable rb : Engine → string → Outcome (string * Engine * list string).

(** A loop over an unknown or inactive collection runs nothing. *)
Lemma execute_loop_inactive (state : LoopState) (e : Engine) :
  loop_inactive e (loop_collection state) →
  execute_loop G rb state e = Done ("", e, []).
Proof.
  intros Hin. unfold execute_loop.
  assert (Hk : ∀ n, n ∈ ["kernels"; "archs"; "machines"] → loop_collection state ≠ n).
  { intros n Hn Heq. rewrite Heq in Hin. clear Heq.
    destruct Hin as [H|[[H _]|[[H _]|[H _]]]].
    - apply H. apply list_elem_of_In in Hn. apply list_elem_of_In. simpl in *. tauto.
    - subst n. apply list_elem_of_In in Hn. simpl in Hn. intuition discriminate.
    - subst n. apply list_elem_of_In in Hn. simpl in Hn. intuition discriminate.
    - subst n. apply list_elem_of_In in Hn. simpl in Hn. intuition discriminate. }
  rewrite !decide_False by (apply Hk, list_elem_of_In; simpl; tauto).
  destruct Hin as [H|[[H He]|[[H He]|[H He]]]].
  - rewrite !decide_False; [done|..];
      intros Heq; apply H; rewrite Heq; apply list_elem_of_In; simpl; tauto.
  - rewrite H, He. by rewrite decide_True.
  - rewrite H, He. rewrite decide_False by done. by rewrite decide_True.
  - rewrite H, He. rewrite !decide_False by done. by rewrite decide_True.
Qed.


End Loops.
(** ** The statements at concrete inputs *)

(** C9 at the [sse] architecture, which has flags for [gnu] and [clang]. *)
Lemma C9_witness :
  is_supported demo_sse "gnu" = true
  ∧ get_flags demo_sse "gnu" = ["-msse"]
  ∧ get_flags demo_sse "msvc" = [].
Proof.
  destruct (C9_is_supported_get_flags demo_sse "gnu") as (H1 & H2 & _).
  destruct (C9_is_supported_get_flags demo_sse "msvc") as (_ & _ & H3).
  split; [|split].
  - apply H1. right. exists ["-msse"]. vm_compute. reflexivity.
  - apply H2. vm_compute. reflexivity.
  - apply H3. vm_compute. reflexivity.
Defined.

(** C2 at a kernel with a [generic], an [sse] and a dependency-free
    implementation, on a machine without [sse]. *)
Lemma C2_witness :
  get_impls demo_kernel {[ "generic"; "avx" ]} = [demo_impl_generic; demo_impl_plain]
  ∧ demo_impl_plain ∈ get_impls demo_kernel ∅.
Proof.
  destruct (C2_get_impls_subset_filter demo_kernel {[ "generic"; "avx" ]}) as (H1 & _).
  destruct (C2_get_impls_subset_filter demo_kernel ∅) as (_ & _ & _ & H4).
  split.
  - rewrite H1. vm_compute. reflexivity.
  - apply H4; [|reflexivity]. right. right. left.
Defined.

(** C3 at the entries [generic], [sse|avx], [orc]. *)
Lemma C3_witness :
  register_machine demo_arch_dict "base" ["generic"; "sse|avx"; "orc"] []
  = Some [mkMachine "base_sse" ["generic"; "sse"; "orc"] [demo_generic; demo_sse; demo_orc] 16;
          mkMachine "base_avx" ["generic"; "avx"; "orc"] [demo_generic; demo_avx; demo_orc] 32]
  ∧ register_machine demo_arch_dict "base" ["generic"; "sse|"; "orc"] []
    = Some [mkMachine "base_sse" ["generic"; "sse"; "orc"] [demo_generic; demo_sse; demo_orc] 16;
            mkMachine "base" ["generic"; "orc"] [demo_generic; demo_orc] 1].
Proof.
  destruct (C3_alternation_expansion demo_arch_dict "base" "generic" "sse" "avx" "orc"
              demo_generic demo_sse demo_avx demo_orc [])
    as (H1 & H2 & _);
    try (split; [discriminate | reflexivity]); try (vm_compute; reflexivity).
  split; [exact H1 | exact H2].
Defined.


(** C5 at a header with [generic] and [dispatcher], one without [generic],
    and one without a named implementation. *)
Lemma C5_witness :
  (∀ k, k ∈ (parse_kernels [demo_header_ok] ([], [])).2 → has_generic (kernel_impls k))
  ∧ parse_kernels ([demo_header_ok] ++ [demo_header_no_generic]) ([], [])
    = (["Warning: volk_32f_other does not have a generic protokernel, skipping."],
       (parse_kernels [demo_header_ok] ([], [])).2)
  ∧ parse_kernels ([demo_header_ok] ++ [demo_header_empty]) ([], [])
    = parse_kernels [demo_header_ok] ([], []).
Proof.
  destruct (C5_generic_mandatory [demo_header_ok] demo_header_no_generic) as (H1 & H2 & _).
  destruct (C5_generic_mandatory [demo_header_ok] demo_header_empty) as (_ & _ & H3).
  split; [exact H1|]. split.
  - rewrite H2; [reflexivity| |discriminate].
    intros (i & Hi & Hg). apply list_elem_of_In in Hi. simpl in Hi.
    destruct Hi as [<-|[]]. discriminate.
  - apply H3. reflexivity.
Defined.


(** C8 at a literal holding [//], a block comment and an escaped quote, a
    line comment and a block comment. *)
Lemma C8_witness :
  remove_comments ("int x; " +:+ String "034" demo_literal_body +:+ String "034" "; // c")
  = "int x; " +:+ String "034" demo_literal_body +:+ String "034" "; "
  ∧ remove_comments ("a = 1; " +:+ "//" +:+ " it's a comment" +:+ String "010" "b = 2;")
    = "a = 1; " +:+ String "010" "b = 2;"
  ∧ remove_comments ("a = 1; " +:+ "/*" +:+ " * / ** " +:+ "*/" +:+ " b = 2;")
    = "a = 1; " +:+ " b = 2;".
Proof.
  destruct (C8_remove_comments_keeps_literals "int x; " eq_refl) as (H1 & _).
  destruct (C8_remove_comments_keeps_literals "a = 1; " eq_refl) as (_ & H2 & H3).
  split; [|split].
  - rewrite H1; [reflexivity|by left|reflexivity].
  - rewrite H2; [reflexivity|reflexivity|reflexivity].
  - rewrite H3; [reflexivity|reflexivity|reflexivity].
Defined.


(** A whole template with such a loop: nothing but the banner is written. *)
Example bogus_loop_renders_banner :
  render demo_globals [] new_engine
    ("%for x in bogus:" +:+ newline +:+ "BODY ${x}" +:+ newline +:+ "%endfor" +:+ newline)
  = Done (banner, new_engine, []).
Proof. vm_compute. reflexivity. Qed.
(** ** Rendering twice *)

Lemma preserved_refl (e : Engine) : preserved e e.
Proof. unfold preserved. tauto. Qed.

Lemma preserved_trans (e1 e2 e3 : Engine) :
  preserved e1 e2 → preserved e2 e3 → preserved e1 e3.
Proof.
  unfold preserved.
  intros (?&?&?&?&?&?&A1&A2&A3&A4&A5&A6&A7) (?&?&?&?&?&?&B1&B2&B3&B4&B5&B6&B7).
  repeat split; try congruence.
  - destruct A1, B1; (left; congruence) || (right; congruence).
  - destruct A2, B2; (left; congruence) || (right; congruence).
  - destruct A3, B3; (left; congruence) || (right; congruence).
  - destruct A4, B4; (left; congruence) || (right; congruence).
  - destruct A5, B5; (left; congruence) || (right; congruence).
  - destruct A6, B6; (left; congruence) || (right; congruence).
  - destruct A7, B7; (left; congruence) || (right; congruence).
Qed.

Lemma preserved_unselected (e e' : Engine) : preserved e e' → unselected e → e' = e.
Proof.
  unfold preserved, unselected. destruct e, e'. simpl.
  intros (?&?&?&?&?&?&?&?&?&?&?&?&?) (?&?&?&?&?&?&?). subst.
  f_equal; intuition congruence.
Qed.

(** Clearing selections is within [preserved]. *)
Lemma preserved_clear_kernel (e : Engine) (b : bool) :
  preserved e (set_current_enum_index (-1) (set_current_kernel None e)).
Proof. preserved_setter. Qed.
Lemma preserved_clear_arch_enum (e : Engine) :
  preserved e (set_current_enum_index (-1) (set_current_arch None e)).
Proof. preserved_setter. Qed.
Lemma preserved_clear_machine (e : Engine) : preserved e (set_current_machine None e).
Proof. preserved_setter. Qed.
Lemma preserved_clear_arch (e : Engine) : preserved e (set_current_arch None e).
Proof. preserved_setter. Qed.
Lemma preserved_clear_arg (e : Engine) : preserved e (set_current_arg_index (-1) e).
Proof. preserved_setter. Qed.
Lemma preserved_clear_check (e : Engine) : preserved e (set_current_check_index (-1) e).
Proof. preserved_setter. Qed.

Lemma preserved_copy_back (e sub : Engine) :
  preserved (sub_engine e) sub → preserved e (copy_back sub e).
Proof.
  unfold preserved, sub_engine, copy_back. simpl.
  intros (?&?&?&?&?&?&?&?&?&?&?&?&?). repeat split; try tauto; intuition.
Qed.

(** *** Lines of a text *)

Lemma getlines_nil (s : string) : getlines s = [] → s = "".
Proof.
  destruct s as [|c s]; [done|]. rewrite getlines_cons.
  destruct (decide _); [done|]. by destruct (getlines s).
Qed.

Lemma getlines_first_prefix (s l : string) (ls : list string) :
  getlines s = l :: ls → ∃ t, s = l +:+ t.
Proof.
  revert l ls. induction s as [|c s IH]; intros l ls; [done|].
  rewrite getlines_cons. destruct (decide (c = "010"%char)).
  - intros [= <- _]. by exists (String c s).
  - destruct (getlines s) as [|l' ls'] eqn:Hs.
    + intros [= <- _]. apply getlines_nil in Hs as ->. by exists "".
    + intros [= <- _]. destruct (IH l' ls' eq_refl) as [t ->]. by exists t.
Qed.

Lemma getlines_no_newline (s : string) :
  Forall (λ l, Str.contains_char "010" l = false) (getlines s).
Proof.
  induction s as [|c s IH]; [constructor|]. rewrite getlines_cons.
  destruct (decide (c = "010"%char)); [by constructor|].
  destruct (getlines s) as [|l ls].
  - constructor; [|done]. rewrite contains_char_cons. by rewrite decide_False.
  - inversion IH; subst. constructor; [|done].
    rewrite contains_char_cons. by rewrite decide_False.
Qed.

Lemma lines_ok_of_find (s : string) : Str.find "<%" s = None → lines_ok s.
Proof.
  unfold lines_ok. induction s as [|c s IH]; [constructor|].
  intros Hf. apply find_None_cons in Hf as [Hhere Hrest].
  specialize (IH Hrest). rewrite getlines_cons.
  destruct (decide (c = "010"%char)); [by constructor|].
  destruct (getlines s) as [|l ls] eqn:Hs.
  - constructor; [|done]. unfold line_ok. cbn [Str.find Str.starts_with].
    by destruct (decide ("<"%char = c)).
  - inversion IH; subst. constructor; [|done].
    unfold line_ok in *. cbn [Str.find]. destruct (Str.starts_with "<%" (String c l)) eqn:Hsw.
    + exfalso. apply getlines_first_prefix in Hs as [t ->].
      cbn [Str.starts_with] in Hsw, Hhere.
      destruct (decide ("<"%char = c)); [|done].
      destruct l as [|c2 l]; [done|]. rewrite app_cons in Hhere.
      cbn [Str.starts_with] in Hhere, Hsw.
      destruct (decide ("%"%char = c2)); [done|done].
    + by match goal with H : Str.find "<%" l = None |- _ => rewrite H end.
Qed.

Lemma ends_with_char_cons (c a : ascii) (s : string) :
  s ≠ "" → ends_with_char c (String a s) = ends_with_char c s.
Proof. by destruct s. Qed.

Lemma ends_with_char_app (c : ascii) (s t : string) :
  t ≠ "" → ends_with_char c (s +:+ t) = ends_with_char c t.
Proof.
  intros Ht. induction s as [|a s IH]; [done|].
  rewrite app_cons, ends_with_char_cons; [done|]. by destruct s, t.
Qed.

Lemma getlines_app_terminated (b t : string) :
  nl_terminated b → getlines (b +:+ t) = getlines b ++ getlines t.
Proof.
  induction b as [|c b IH]; intros Hb; [done|].
  assert (Hb' : nl_terminated b).
  { destruct Hb as [|Hb]; [done|]. destruct b as [|c2 b]; [by left|].
    right. by rewrite ends_with_char_cons in Hb. }
  rewrite app_cons, !getlines_cons, IH by done.
  destruct (decide (c = "010"%char)) as [->|Hc]; [done|].
  destruct (getlines b) as [|l ls] eqn:Hl; [|done].
  apply getlines_nil in Hl as ->. destruct Hb as [|Hb]; [done|].
  simpl in Hb. by apply bool_decide_eq_true in Hb.
Qed.

Lemma body_ok_empty : body_ok "".
Proof. split; [constructor|by left]. Qed.

Lemma body_ok_append (b l : string) :
  body_ok b → line_ok l → Str.contains_char "010" l = false →
  body_ok (b +:+ l +:+ newline).
Proof.
  intros [Hb Hnl] Hl Hno. split.
  - unfold lines_ok. rewrite getlines_app_terminated by done.
    apply Forall_app. split; [done|].
    change (l +:+ newline) with (l +:+ String "010" "").
    rewrite getlines_app_line by done. by repeat constructor.
  - right. rewrite ends_with_char_app by (by destruct l).
    rewrite ends_with_char_app by done. done.
Qed.

(** *** The statement pattern needs its opener *)

Lemma find_app_Some (p s t : string) :
  Str.starts_with p t = true → is_Some (Str.find p (s +:+ t)).
Proof.
  intros Ht. induction s as [|c s IH].
  - rewrite app_empty_l. destruct t; cbn [Str.find]; rewrite Ht; by eexists.
  - rewrite app_cons. cbn [Str.find].
    destruct (Str.starts_with p (String c (s +:+ t))); [by eexists|].
    destruct IH as [i ->]. by eexists.
Qed.

Lemma starts_with_app (p s t : string) :
  Str.starts_with p s = true → Str.starts_with p (s +:+ t) = true.
Proof.
  revert s. induction p as [|a p IH]; intros s; [done|].
  destruct s as [|b s]; [done|]. rewrite app_cons. cbn [Str.starts_with].
  destruct (decide (a = b)); [apply IH|done].
Qed.

Lemma code_block_re_opener (s : string) :
  Matches code_block_re s → Str.starts_with "<%" s = true.
Proof.
  unfold code_block_re. cbn [seq lit]. unfold chr. intros H.
  inversion H as [| |? ? s1 s2 H1 H2| | | |]; subst.
  inversion H1 as [| |? ? s3 s4 H3 H4| | | |]; subst.
  inversion H3 as [|? ? c3 Hc3| | | | |]; subst.
  inversion H4 as [|? ? c4 Hc4| | | | |]; subst.
  unfold class_matches in Hc3, Hc4. simpl in Hc3, Hc4.
  rewrite orb_false_r in Hc3, Hc4.
  apply bool_decide_eq_true in Hc3 as ->. apply bool_decide_eq_true in Hc4 as ->.
  reflexivity.
Qed.

Lemma regex_search_code_block_None (line : string) :
  line_ok line → regex_search code_block_re line = None.
Proof.
  intros Hl. destruct (regex_search code_block_re line) as [m|] eqn:Hm; [|done].
  apply regex_search_sound in Hm as (matched & -> & Hm).
  apply code_block_re_opener in Hm.
  destruct (find_app_Some "<%" (match_prefix m) (matched +:+ match_suffix m)) as [i Hi].
  - by apply starts_with_app.
  - unfold line_ok in Hl. congruence.
Qed.

Lemma code_block_loop_line_ok (remaining : nat) (G : Globals) (extra_args : list string)
    (line : string) (e : Engine) (cerr : list string) :
  line_ok line → code_block_loop G extra_args remaining line e cerr = (line, e, cerr).
Proof.
  intros Hl. destruct remaining; cbn [code_block_loop];
    by rewrite regex_search_code_block_None.
Qed.

(** *** The engine across a template without statement block *)

Section Preservation.

Variable G : Globals.
Variable extra_args : list string.
Variable rb : Engine → string → Outcome (string * Engine * list string).
Hypothesis Hrb : block_preserving rb.

Lemma loop_over_preserved {A : Type} (select : Z → A → Engine → Engine)
    (reset : Engine → Engine) (body : string) :
  lines_ok body →
  (∀ i x e, reset (select i x e) = reset e) →
  (∀ e e', preserved e e' → preserved (reset e) (reset e')) →
  ∀ items i e out e' cerr,
    loop_over rb select body i items e = Done (out, e', cerr) →
    preserved (reset e) (reset e').
Proof.
  intros Hbody Hsel Hres. induction items as [|x items IH]; intros i e out e' cerr;
    cbn [loop_over].
  - intros [= _ <- _]. apply preserved_refl.
  - destruct (rb (select i x e) body) as [[[o1 e1] c1]| |] eqn:H1; simpl; [|done..].
    destruct (loop_over rb select body (i + 1) items e1) as [[[o2 e2] c2]| |] eqn:H2;
      simpl; [|done..].
    intros [= _ <- _]. eapply preserved_trans; [|by eapply IH].
    rewrite <- (Hsel i x e). apply Hres. by eapply Hrb.
Qed.

Lemma execute_loop_preserved (state : LoopState) (e : Engine) (out : string)
    (e' : Engine) (cerr : list string) :
  lines_ok (loop_body state) →
  execute_loop G rb state e = Done (out, e', cerr) → preserved e e'.
Proof.
  intros Hbody. unfold execute_loop.
  repeat match goal with
         | |- context [decide (loop_collection state = ?n)] =>
             destruct (decide (loop_collection state = n))
         | |- context [match current_machine_ e with _ => _ end] =>
             destruct (current_machine_ e)
         | |- context [match current_kernel_ e with _ => _ end] =>
             destruct (current_kernel_ e)
         | |- context [match current_arch_ e with _ => _ end] =>
             destruct (current_arch_ e)
         end;
    try (intros [= _ <- _]; apply preserved_refl);
    match goal with
    | |- context [loop_over rb ?sel ?b ?i ?items ?e0] =>
        destruct (loop_over rb sel b i items e0) as [[[o eng] c]| |] eqn:Hl;
          simpl; [|done..]; intros [= _ <- _]
    end.
  all: first
    [ eapply preserved_trans; [apply (preserved_clear_kernel e true)|];
      eapply (loop_over_preserved _
                (λ e, set_current_enum_index (-1) (set_current_kernel None e)));
      [done| | |exact Hl];
      [intros ? ? ?; by destruct (loop_is_enumerate state) | intros ? ?; preserved_setter]
    | eapply preserved_trans; [apply preserved_clear_arch_enum|];
      eapply (loop_over_preserved _
                (λ e, set_current_enum_index (-1) (set_current_arch None e)));
      [done| | |exact Hl];
      [intros ? ? ?; by destruct (loop_is_enumerate state) | intros ? ?; preserved_setter]
    | eapply preserved_trans; [apply preserved_clear_machine|];
      eapply (loop_over_preserved _ (set_current_machine None)); [done| | |exact Hl];
      [done | intros ? ?; preserved_setter]
    | eapply preserved_trans; [apply preserved_clear_arch|];
      eapply (loop_over_preserved _ (set_current_arch None)); [done| | |exact Hl];
      [done | intros ? ?; preserved_setter]
    | eapply preserved_trans; [apply preserved_clear_arg|];
      eapply (loop_over_preserved _ (set_current_arg_index (-1))); [done| | |exact Hl];
      [done | intros ? ?; preserved_setter]
    | eapply preserved_trans; [apply preserved_clear_check|];
      eapply (loop_over_preserved _ (set_current_check_index (-1))); [done| | |exact Hl];
      [done | intros ? ?; preserved_setter] ].
Qed.

Lemma substitute_line_ok (st : RenderState) (line out : string) (st' : RenderState) :
  line_ok line → substitute_line G extra_args st line = (out, st') →
  rs_engine st' = rs_engine st ∧ rs_loop_stack st' = rs_loop_stack st
  ∧ rs_in_multiline_block st' = rs_in_multiline_block st.
Proof.
  intros Hl. unfold substitute_line. rewrite code_block_loop_line_ok by done.
  destruct (var_loop _ _ _ _) as [processed cerr].
  destruct (Str.starts_with "##" processed); by intros [= <- <-].
Qed.

Lemma process_conditional_inv (st : RenderState) (line out : string) (st' : RenderState) :
  state_inv st → line_ok line →
  process_conditional G extra_args st line = Done (out, st') →
  state_inv st' ∧ rs_engine st' = rs_engine st.
Proof.
  intros [Hml Hstack] Hl. unfold process_conditional.
  assert (Hsub : ∀ out st', Done (substitute_line G extra_args st line) = Done (out, st') →
    state_inv st' ∧ rs_engine st' = rs_engine st).
  { intros o s' [= H]. apply substitute_line_ok in H as (He & Hs & Hm); [|done].
    unfold state_inv. by rewrite Hs, Hm. }
  repeat match goal with
         | |- context [match regex_match ?r ?l with _ => _ end] =>
             destruct (regex_match r l)
         | |- context [match matches ?r ?l with _ => _ end] => destruct (matches r l)
         | |- context [match rs_if_stack st with _ => _ end] => destruct (rs_if_stack st)
         | |- context [evaluate_condition ?e ?c] => destruct (evaluate_condition e c)
         | |- context [if ?b then _ else _] => destruct b
         end; simpl; try done; try apply Hsub; by intros [= <- <-].
Qed.

Lemma open_loop_body (line : string) (state : LoopState) :
  open_loop line = Some state → loop_body state = "".
Proof.
  unfold open_loop.
  repeat match goal with
         | |- context [match regex_match ?r ?l with _ => _ end] =>
             destruct (regex_match r l)
         end; by intros [= <-].
Qed.

Lemma process_loop_line_inv (st : RenderState) (line out : string) (st' : RenderState) :
  state_inv st → line_ok line → Str.contains_char "010" line = false →
  process_loop_line G extra_args rb st line = Done (out, st') →
  state_inv st' ∧ preserved (rs_engine st) (rs_engine st').
Proof.
  intros Hinv Hl Hno. pose proof Hinv as [Hml Hstack]. unfold process_loop_line.
  destruct (rs_loop_stack st) as [|state rest] eqn:Hs.
  { intros H. apply process_conditional_inv in H as [? ->]; [|done..].
    split; [done|apply preserved_refl]. }
  inversion Hstack as [|? ? Hbody Hrest]; subst.
  set (state1 := if matches endfor_re line
                 then with_loop_depth (loop_depth state - 1) state else state).
  assert (Hbody1 : body_ok (loop_body state1)) by (subst state1; by destruct (matches _ _)).
  destruct (matches endfor_re line && bool_decide (loop_depth state1 = 0)) eqn:Hexec.
  - replace (if matches endfor_re line
             then with_loop_depth (loop_depth state - 1) state :: rest
             else state :: rest) with (state1 :: rest)
      by (subst state1; by destruct (matches _ _)).
    rewrite Hexec.
    destruct (execute_loop G rb state1 (rs_engine st)) as [[[o e1] c]| |] eqn:He;
      simpl; [|done..].
    intros [= <- <-]. split; [by split|].
    simpl. eapply execute_loop_preserved; [|exact He]. by destruct Hbody1.
  - replace (if matches endfor_re line
             then with_loop_depth (loop_depth state - 1) state :: rest
             else state :: rest) with (state1 :: rest)
      by (subst state1; by destruct (matches _ _)).
    rewrite Hexec.
    destruct (loop_collecting state1).
    + intros [= <- <-]. split; [|apply preserved_refl].
      split; [done|]. cbn [rs_loop_stack with_loop_stack]. constructor; [|done].
      repeat match goal with
             | |- context [if ?b then _ else _] => destruct b
             end;
        cbn [loop_body with_loop_body with_loop_depth];
        try done; by apply body_ok_append.
    + intros H. apply process_conditional_inv in H as [? Heq]; [|split; [done|]|done].
      * split; [done|]. rewrite Heq. apply preserved_refl.
      * cbn [rs_loop_stack with_loop_stack]. by constructor.
Qed.

Lemma process_line_inv (st : RenderState) (line out : string) (st' : RenderState) :
  state_inv st → line_ok line → Str.contains_char "010" line = false →
  process_line G extra_args rb st line = Done (out, st') →
  state_inv st' ∧ preserved (rs_engine st) (rs_engine st').
Proof.
  intros Hinv Hl Hno. pose proof Hinv as [Hml Hstack]. unfold process_line.
  rewrite Hml. unfold multiline_start. rewrite Hl.
  set (opened := match rs_loop_stack st with
                 | [] => open_loop line
                 | state :: _ => if loop_collecting state then None else open_loop line
                 end).
  destruct opened as [state|] eqn:Hopen.
  - intros [= <- <-]. split; [|apply preserved_refl].
    split; [done|]. cbn [rs_loop_stack with_loop_stack]. constructor; [|done].
    assert (Hb : loop_body state = "").
    { subst opened. destruct (rs_loop_stack st) as [|s0 ?].
      - by eapply open_loop_body.
      - destruct (loop_collecting s0); [done|]. by eapply open_loop_body. }
    rewrite Hb. apply body_ok_empty.
  - by apply process_loop_line_inv.
Qed.

Lemma process_lines_inv (lines : list string) :
  ∀ st out st', state_inv st →
    Forall line_ok lines → Forall (λ l, Str.contains_char "010" l = false) lines →
    process_lines G extra_args rb st lines = Done (out, st') →
    preserved (rs_engine st) (rs_engine st').
Proof.
  induction lines as [|line lines IH]; intros st out st' Hinv Hok Hno; cbn [process_lines].
  - intros [= _ <-]. apply preserved_refl.
  - inversion Hok as [|? ? Hok1 Hok2]; inversion Hno as [|? ? Hno1 Hno2]; subst.
    destruct (process_line G extra_args rb st line) as [[o1 st1]| |] eqn:Hline;
      simpl; [|done..].
    destruct (process_lines G extra_args rb st1 lines) as [[o2 st2]| |] eqn:Hlines;
      simpl; [|done..].
    intros [= _ <-]. apply process_line_inv in Hline as [Hinv1 Hp1]; [|done..].
    eapply preserved_trans; [exact Hp1|]. by eapply IH.
Qed.

Lemma render_with_preserved (e : Engine) (tmpl out : string) (e' : Engine)
    (cerr : list string) :
  lines_ok tmpl →
  render_with G extra_args rb e tmpl = Done (out, e', cerr) → preserved e e'.
Proof.
  intros Hok. unfold render_with.
  destruct (process_lines _ _ _ _ _) as [[o st]| |] eqn:Hp; simpl; [|done..].
  intros [= _ <- _].
  apply process_lines_inv in Hp; [done| |done|apply getlines_no_newline].
  split; [done|constructor].
Qed.

End Preservation.

Lemma render_block_of_preserving
    (render_sub : option (Engine → string → Outcome (string * Engine * list string))) :
  (∀ r, render_sub = Some r → ∀ e tmpl out e' cerr,
     lines_ok tmpl → r e tmpl = Done (out, e', cerr) → preserved e e') →
  block_preserving (render_block_of render_sub).
Proof.
  intros Hr e body out e' cerr Hbody. unfold render_block_of.
  destruct (max_render_depth_ <=? render_depth_ e).
  { intros [= _ <- _]. apply preserved_refl. }
  destruct render_sub as [r|]; [|done].
  destruct (r (sub_engine e) body) as [[[result sub] c]| |] eqn:Hsub; simpl; [|done..].
  intros [= _ <- _]. apply preserved_copy_back. by eapply Hr.
Qed.

Lemma render_fuel_preserved (G : Globals) (extra_args : list string) (fuel : nat) :
  ∀ e tmpl out e' cerr, lines_ok tmpl →
    render_fuel G extra_args fuel e tmpl = Done (out, e', cerr) → preserved e e'.
Proof.
  induction fuel as [|fuel IH]; intros e tmpl out e' cerr Hok.
  - change (render_fuel G extra_args 0 e tmpl)
      with (render_with G extra_args (render_block_of None) e tmpl).
    apply render_with_preserved; [|done].
    by apply render_block_of_preserving.
  - change (render_fuel G extra_args (S fuel) e tmpl)
      with (render_with G extra_args
              (render_block_of (Some (render_fuel G extra_args fuel))) e tmpl).
    apply render_with_preserved; [|done].
    apply render_block_of_preserving. intros r [= <-]. exact IH.
Qed.



(** ** The model never runs out of fuel *)

Lemma len_take (n : nat) (s : string) : Str.len (Str.take n s) = Nat.min n (Str.len s).
Proof.
  revert s. induction n as [|n IH]; intros s; [done|].
  destruct s as [|c s]; [done|]. simpl. by rewrite IH.
Qed.

Lemma len_drop (n : nat) (s : string) : Str.len (Str.drop n s) = (Str.len s - n)%nat.
Proof.
  revert s. induction n as [|n IH]; intros s; [simpl; lia|].
  destruct s as [|c s]; [done|]. simpl. by rewrite IH.
Qed.

Lemma len_trim_left (s : string) : (Str.len (trim_left s) ≤ Str.len s)%nat.
Proof.
  induction s as [|c s IH]; [done|]. simpl. destruct (is_trim_char c); simpl; lia.
Qed.

Lemma len_trim_right (s : string) : (Str.len (trim_right s) ≤ Str.len s)%nat.
Proof.
  induction s as [|c s IH]; [done|]. simpl.
  destruct (trim_right s); [destruct (is_trim_char c)|]; simpl in *; lia.
Qed.

Lemma len_trim (s : string) : (Str.len (trim s) ≤ Str.len s)%nat.
Proof.
  unfold trim. pose proof (len_trim_right (trim_left s)). pose proof (len_trim_left s). lia.
Qed.

Lemma starts_with_len (p s : string) :
  Str.starts_with p s = true → (Str.len p ≤ Str.len s)%nat.
Proof.
  revert s. induction p as [|a p IH]; intros s; [simpl; lia|].
  destruct s as [|b s]; [done|]. simpl. destruct (decide (a = b)); [|done].
  intros H. apply IH in H. lia.
Qed.

Lemma find_Some_bound (p s : string) (i : nat) :
  Str.find p s = Some i → (i + Str.len p ≤ Str.len s)%nat.
Proof.
  revert i. induction s as [|c s IH]; intros i; cbn [Str.find].
  - destruct (Str.starts_with p "") eqn:Hp; [|done].
    intros [= <-]. by apply starts_with_len in Hp.
  - destruct (Str.starts_with p (String c s)) eqn:Hp.
    + intros [= <-]. by apply starts_with_len in Hp.
    + destruct (Str.find p s) as [j|]; [|done]. intros [= <-].
      specialize (IH j eq_refl). simpl. lia.
Qed.

Lemma evaluate_condition_fuel_returns (fuel : nat) :
  ∀ (e : Engine) (cond : string), (Str.len cond < fuel)%nat →
    returns (evaluate_condition_fuel fuel e cond).
Proof.
  induction fuel as [|fuel IH]; intros e cond Hlen; [lia|].
  cbn [evaluate_condition_fuel]. pose proof (len_trim cond) as Htrim.
  destruct (Str.find " or " (trim cond)) as [pos|] eqn:Hor.
  { apply find_Some_bound in Hor. simpl in Hor.
    pose proof (IH e (Str.take pos (trim cond))) as H1.
    pose proof (IH e (Str.drop (pos + 4) (trim cond))) as H2.
    rewrite len_take in H1. rewrite len_drop in H2.
    destruct (evaluate_condition_fuel fuel e (Str.take pos (trim cond))) as [[|]| |];
      simpl; [done|apply H2; lia|done|apply H1; lia]. }
  destruct (Str.find " and " (trim cond)) as [pos|] eqn:Hand.
  { apply find_Some_bound in Hand. simpl in Hand.
    pose proof (IH e (Str.take pos (trim cond))) as H1.
    pose proof (IH e (Str.drop (pos + 5) (trim cond))) as H2.
    rewrite len_take in H1. rewrite len_drop in H2.
    destruct (evaluate_condition_fuel fuel e (Str.take pos (trim cond))) as [[|]| |];
      simpl; [apply H2; lia|done|done|apply H1; lia]. }
  repeat match goal with
         | |- context [match regex_match ?r ?l with _ => _ end] =>
             destruct (regex_match r l)
         | |- context [stoi ?s] => unfold stoi
         | |- context [if ?b then _ else _] => destruct b
         end; done.
Qed.

Lemma evaluate_condition_returns (e : Engine) (cond : string) :
  returns (evaluate_condition e cond).
Proof. apply evaluate_condition_fuel_returns. lia. Qed.

Lemma execute_code_block_depth (G : Globals) (extra_args : list string) (e : Engine)
    (code : string) :
  render_depth_ (execute_code_block G extra_args e code).2 = render_depth_ e.
Proof.
  unfold execute_code_block.
  repeat match goal with
         | |- context [if found ?r ?c then _ else _] => destruct (found r c)
         | |- context [match extra_args with _ => _ end] => destruct extra_args
         | |- context [match g_machine_dict G !! ?k with _ => _ end] =>
             destruct (g_machine_dict G !! k)
         | |- context [match current_kernel_ e with _ => _ end] =>
             destruct (current_kernel_ e)
         | |- context [match current_machine_ e with _ => _ end] =>
             destruct (current_machine_ e)
         end; reflexivity.
Qed.

Lemma code_block_loop_depth (G : Globals) (extra_args : list string) (remaining : nat) :
  ∀ processed e cerr,
    render_depth_ (code_block_loop G extra_args remaining processed e cerr).1.2
    = render_depth_ e.
Proof.
  induction remaining as [|n IH]; intros processed e cerr; cbn [code_block_loop];
    destruct (regex_search code_block_re processed); try done.
  rewrite IH. apply execute_code_block_depth.
Qed.

Lemma substitute_line_depth (G : Globals) (extra_args : list string) (st : RenderState)
    (line : string) :
  render_depth_ (rs_engine (substitute_line G extra_args st line).2)
  = render_depth_ (rs_engine st).
Proof.
  unfold substitute_line.
  pose proof (code_block_loop_depth G extra_args (Str.len line + 100) line
                (rs_engine st) (rs_cerr st)) as Hd.
  destruct (code_block_loop _ _ _ _ _ _) as [[processed e] cerr]. simpl in Hd.
  destruct (var_loop _ _ _ _) as [processed' cerr'].
  by destruct (Str.starts_with "##" processed').
Qed.

Section Returning.

Variable G : Globals.
Variable extra_args : list string.
Variable d : Z.
Variable rb : Engine → string → Outcome (string * Engine * list string).
Hypothesis Hrb : block_returning d rb.

Lemma loop_over_returns {A : Type} (select : Z → A → Engine → Engine) (body : string) :
  (∀ i x e, render_depth_ (select i x e) = render_depth_ e) →
  ∀ items i e, render_depth_ e = d →
    returns (loop_over rb select body i items e)
    ∧ ∀ out e' cerr, loop_over rb select body i items e = Done (out, e', cerr) →
        render_depth_ e' = d.
Proof.
  intros Hsel. induction items as [|x items IH]; intros i e Hd; cbn [loop_over].
  - split; [done|]. by intros out e' cerr [= _ <- _].
  - destruct (Hrb (select i x e) body) as [Hret Hdepth]; [by rewrite Hsel|].
    destruct (rb (select i x e) body) as [[[o1 e1] c1]| |]; simpl; [|done..].
    destruct (IH (i + 1) e1) as [Hret' Hdepth']; [by eapply Hdepth|].
    destruct (loop_over rb select body (i + 1) items e1) as [[[o2 e2] c2]| |];
      simpl; [|done..].
    split; [done|]. intros out e' cerr [= _ <- _]. by eapply Hdepth'.
Qed.

Lemma execute_loop_returns (state : LoopState) (e : Engine) :
  render_depth_ e = d →
  returns (execute_loop G rb state e)
  ∧ ∀ out e' cerr, execute_loop G rb state e = Done (out, e', cerr) →
      render_depth_ e' = d.
Proof.
  intros Hd. unfold execute_loop.
  repeat match goal with
         | |- context [decide (loop_collection state = ?n)] =>
             destruct (decide (loop_collection state = n))
         | |- context [match current_machine_ e with _ => _ end] =>
             destruct (current_machine_ e)
         | |- context [match current_kernel_ e with _ => _ end] =>
             destruct (current_kernel_ e)
         | |- context [match current_arch_ e with _ => _ end] =>
             destruct (current_arch_ e)
         end;
    try (split; [done|]; by intros out e' cerr [= _ <- _]);
    match goal with
    | |- context [loop_over rb ?sel ?b ?i ?items ?e0] =>
        let Hs := fresh "Hsel" in
        let H1 := fresh "Hret" in
        let H2 := fresh "Hdepth" in
        assert (Hs : ∀ j y eng, render_depth_ (sel j y eng) = render_depth_ eng)
          by (intros ? ? ?; try destruct (loop_is_enumerate state); reflexivity);
        destruct (loop_over_returns sel b Hs items i e0 Hd) as [H1 H2];
        destruct (loop_over rb sel b i items e0) as [[[o eng] c]| |];
          simpl; [|done..];
        split; [done|]; intros out e' cerr [= _ <- _]; simpl; by eapply H2
    end.
Qed.

Lemma process_conditional_returns (st : RenderState) (line : string) :
  render_depth_ (rs_engine st) = d →
  returns (process_conditional G extra_args st line)
  ∧ ∀ out st', process_conditional G extra_args st line = Done (out, st') →
      render_depth_ (rs_engine st') = d.
Proof.
  intros Hd. unfold process_conditional.
  pose proof (substitute_line_depth G extra_args st line) as Hsub.
  repeat match goal with
         | |- context [match regex_match ?r ?l with _ => _ end] =>
             destruct (regex_match r l) as [?m|]
         | |- context [match matches ?r ?l with _ => _ end] => destruct (matches r l)
         | |- context [match rs_if_stack st with _ => _ end] => destruct (rs_if_stack st)
         | |- context [evaluate_condition ?e ?c] =>
             pose proof (evaluate_condition_returns e c);
             destruct (evaluate_condition e c)
         | |- context [if ?b then _ else _] => destruct b
         end; simpl.
  all: (split; [done|]); intros out st' Heq; try discriminate.
  all: first [ injection Heq as Heq; rewrite Heq in Hsub; simpl in Hsub; congruence
             | by simplify_eq ].
Qed.

Lemma process_line_returns (st : RenderState) (line : string) :
  render_depth_ (rs_engine st) = d →
  returns (process_line G extra_args rb st line)
  ∧ ∀ out st', process_line G extra_args rb st line = Done (out, st') →
      render_depth_ (rs_engine st') = d.
Proof.
  intros Hd. unfold process_line.
  destruct (rs_in_multiline_block st).
  { destruct (Str.find "%>" line).
    - split; [done|]. intros out st' [= <- <-]. simpl.
      by rewrite execute_code_block_depth.
    - split; [done|]. by intros out st' [= <- <-]. }
  destruct (multiline_start line).
  { split; [done|]. by intros out st' [= <- <-]. }
  match goal with
  | |- context [match ?o with Some _ => _ | None => process_loop_line _ _ _ _ _ end] =>
      destruct o
  end.
  { split; [done|]. by intros out st' [= <- <-]. }
  unfold process_loop_line.
  destruct (rs_loop_stack st) as [|state rest]; [by apply process_conditional_returns|].
  match goal with
  | |- context [match ?stack with [] => _ | _ :: _ => _ end] =>
      destruct stack as [|state1 rest1]
  end; [by apply process_conditional_returns|].
  destruct (matches endfor_re line && bool_decide (loop_depth state1 = 0)).
  - destruct (execute_loop_returns state1 (rs_engine st) Hd) as [Hret Hdepth].
    destruct (execute_loop G rb state1 (rs_engine st)) as [[[o e1] c]| |];
      simpl; [|done..].
    split; [done|]. intros out st' [= <- <-]. simpl. by eapply Hdepth.
  - destruct (loop_collecting state1).
    + split; [done|]. by intros out st' [= <- <-].
    + by apply process_conditional_returns.
Qed.

Lemma process_lines_returns (lines : list string) :
  ∀ st, render_depth_ (rs_engine st) = d →
    returns (process_lines G extra_args rb st lines)
    ∧ ∀ out st', process_lines G extra_args rb st lines = Done (out, st') →
        render_depth_ (rs_engine st') = d.
Proof.
  induction lines as [|line lines IH]; intros st Hd; cbn [process_lines].
  - split; [done|]. by intros out st' [= _ <-].
  - destruct (process_line_returns st line Hd) as [Hret Hdepth].
    destruct (process_line G extra_args rb st line) as [[o1 st1]| |]; simpl; [|done..].
    destruct (IH st1) as [Hret' Hdepth']; [by eapply Hdepth|].
    destruct (process_lines G extra_args rb st1 lines) as [[o2 st2]| |];
      simpl; [|done..].
    split; [done|]. intros out st' [= _ <-]. by eapply Hdepth'.
Qed.

Lemma render_with_returns (e : Engine) (tmpl : string) :
  render_depth_ e = d →
  returns (render_with G extra_args rb e tmpl)
  ∧ ∀ out e' cerr, render_with G extra_args rb e tmpl = Done (out, e', cerr) →
      render_depth_ e' = d.
Proof.
  intros Hd. unfold render_with.
  destruct (process_lines_returns (getlines tmpl) (mkRenderState e [] [] [] false ""))
    as [Hret Hdepth]; [done|].
  destruct (process_lines _ _ _ _ _) as [[o st]| |]; simpl; [|done..].
  split; [done|]. intros out e' cerr [= _ <- _]. by eapply Hdepth.
Qed.

End Returning.

Lemma render_fuel_returns (G : Globals) (extra_args : list string) (fuel : nat) :
  ∀ e tmpl, max_render_depth_ - render_depth_ e ≤ Z.of_nat fuel →
    returns (render_fuel G extra_args fuel e tmpl)
    ∧ ∀ out e' cerr, render_fuel G extra_args fuel e tmpl = Done (out, e', cerr) →
        render_depth_ e' = render_depth_ e.
Proof.
  induction fuel as [|fuel IH]; intros e tmpl Hfuel.
  - change (render_fuel G extra_args 0 e tmpl)
      with (render_with G extra_args (render_block_of None) e tmpl).
    apply render_with_returns; [|done].
    intros e0 body Hd. unfold render_block_of.
    destruct (Z.leb_spec max_render_depth_ (render_depth_ e0)); [|lia].
    split; [done|]. by intros out e' cerr [= _ <- _].
  - change (render_fuel G extra_args (S fuel) e tmpl)
      with (render_with G extra_args
              (render_block_of (Some (render_fuel G extra_args fuel))) e tmpl).
    apply render_with_returns; [|done].
    intros e0 body Hd. unfold render_block_of.
    destruct (Z.leb_spec max_render_depth_ (render_depth_ e0)).
    { split; [done|]. by intros out e' cerr [= _ <- _]. }
    destruct (IH (sub_engine e0) body) as [Hret Hdepth]; [simpl; lia|].
    destruct (render_fuel G extra_args fuel (sub_engine e0) body) as [[[r sub] c]| |];
      simpl; [|done..].
    split; [done|]. by intros out e' cerr [= _ <- _].
Qed.

(** [render] always returns: a result, or the exception it threw. *)
Lemma render_returns (G : Globals) (extra_args : list string) (e : Engine) (tmpl : string) :
  returns (render G extra_args e tmpl).
Proof. unfold render. apply render_fuel_returns. lia. Qed.

(** ** Text utilities: [split], [join], [trim], [split_whitespace] *)

Lemma split_nonempty (s : string) (d : ascii) : split s d ≠ [].
Proof.
  destruct s as [|c s]; simpl; [done|].
  destruct (decide (c = d)); [done|]. by destruct (split s d).
Qed.

Lemma join_cons (x : string) (v : list string) (delim : string) :
  v ≠ [] → join (x :: v) delim = x +:+ delim +:+ join v delim.
Proof. by destruct v. Qed.

Lemma join_split (s : string) (d : ascii) : join (split s d) (String d "") = s.
Proof.
  induction s as [|c s IH]; [done|]. simpl split.
  destruct (decide (c = d)) as [->|Hne].
  - rewrite join_cons by apply split_nonempty. by rewrite IH.
  - pose proof (split_nonempty s d) as Hn.
    destruct (split s d) as [|piece rest]; [done|].
    destruct rest as [|p2 rest].
    + simpl in *. by rewrite IH.
    + rewrite join_cons in IH by done. rewrite join_cons by done.
      rewrite app_cons. by rewrite IH.
Qed.

Lemma split_join (ps : list string) (d : ascii) :
  ps ≠ [] → Forall (λ p, Str.contains_char d p = false) ps →
  split (join ps (String d "")) d = ps.
Proof.
  induction ps as [|p ps IH]; [done|]. intros _ Hall.
  inversion Hall as [|? ? Hp Hps]; subst.
  destruct ps as [|p2 ps].
  - simpl. by apply split_no_delim.
  - rewrite join_cons by done.
    change (String d "" +:+ join (p2 :: ps) (String d ""))
      with (String d (join (p2 :: ps) (String d ""))).
    rewrite split_app_delim by done. by rewrite IH.
Qed.

Lemma count_occurrences_char_cons (d c : ascii) (s : string) :
  count_occurrences (String d "") (String c s)
  = ((if decide (c = d) then 1 else 0) + count_occurrences (String d "") s)%nat.
Proof.
  cbn [count_occurrences Str.starts_with].
  destruct (decide (d = c)) as [->|Hne].
  - by rewrite decide_True.
  - by rewrite decide_False by congruence.
Qed.

Lemma split_length (s : string) (d : ascii) :
  length (split s d) = S (count_occurrences (String d "") s).
Proof.
  induction s as [|c s IH]; [done|].
  rewrite count_occurrences_char_cons. simpl split.
  destruct (decide (c = d)); simpl; [by rewrite IH|].
  pose proof (split_nonempty s d). destruct (split s d); [done|]. by simpl in *.
Qed.

(** X1: [split] and [join] are inverse to each other: joining
    the pieces of a text with the delimiter gives the text back, there is one
    piece more than the text has delimiters and none holds the delimiter;
    splitting a joined, non-empty list of pieces without delimiter gives the
    pieces back. *)
Theorem split_join_inverse (d : ascii) :
  (∀ s, join (split s d) (String d "") = s
        ∧ length (split s d) = S (count_occurrences (String d "") s)
        ∧ Forall (λ p, Str.contains_char d p = false) (split s d))
  ∧ (∀ ps, ps ≠ [] → Forall (λ p, Str.contains_char d p = false) ps →
       split (join ps (String d "")) d = ps).
Proof.
  split.
  - intros s. split; [apply join_split|]. split; [apply split_length|].
    apply split_pieces_no_delim.
  - intros ps. apply split_join.
Qed.

Lemma split_join_inverse_witness :
  join (split "generic;sse;;avx" ";") ";" = "generic;sse;;avx"
  ∧ split (join ["generic"; ""; "avx"] ";") ";" = ["generic"; ""; "avx"].
Proof.
  destruct (split_join_inverse ";") as [H1 H2]. split.
  - apply (H1 "generic;sse;;avx").
  - apply (H2 ["generic"; ""; "avx"]); [done|]. repeat constructor.
Defined.

(** *** [trim] *)

Lemma trim_left_decompose (s : string) :
  ∃ l, s = l +:+ trim_left s ∧ all_trim_chars l = true.
Proof.
  induction s as [|c s (l & Hl & Hall)].
  - by exists "".
  - simpl. destruct (is_trim_char c) eqn:Hc.
    + exists (String c l). rewrite app_cons, <- Hl. simpl. by rewrite Hc, Hall.
    + by exists "".
Qed.

Lemma trim_right_decompose (s : string) :
  ∃ r, s = trim_right s +:+ r ∧ all_trim_chars r = true.
Proof.
  induction s as [|c s (r & Hr & Hall)].
  - by exists "".
  - simpl. destruct (trim_right s) as [|c' t] eqn:Ht.
    + destruct (is_trim_char c) eqn:Hc.
      * exists (String c r). simpl in Hr. subst s. simpl. by rewrite Hc, Hall.
      * exists r. rewrite app_cons. simpl in *. by rewrite <- Hr.
    + exists r. rewrite app_cons. by rewrite <- Hr.
Qed.

Lemma trim_left_first (s : string) (c : ascii) :
  first_char (trim_left s) = Some c → is_trim_char c = false.
Proof.
  induction s as [|a s IH]; simpl; [done|].
  destruct (is_trim_char a) eqn:Ha; [done|]. simpl. by intros [= <-].
Qed.

Lemma trim_right_last (s : string) (c : ascii) :
  last_char (trim_right s) = Some c → is_trim_char c = false.
Proof.
  induction s as [|a s IH]; simpl; [done|].
  destruct (trim_right s) as [|c' t] eqn:Ht.
  - destruct (is_trim_char a) eqn:Ha; simpl; [done|]. by intros [= <-].
  - simpl. simpl in IH. done.
Qed.

Lemma trim_right_first (s : string) :
  first_char (trim_right s) = None ∨ first_char (trim_right s) = first_char s.
Proof.
  destruct s as [|a s]; simpl; [by left|].
  destruct (trim_right s); [|by right]. destruct (is_trim_char a); [by left|by right].
Qed.

Lemma trim_left_fixed (s : string) :
  (∀ c, first_char s = Some c → is_trim_char c = false) → trim_left s = s.
Proof.
  destruct s as [|a s]; [done|]. simpl. intros H. by rewrite (H a).
Qed.

Lemma trim_right_fixed (s : string) :
  (∀ c, last_char s = Some c → is_trim_char c = false) → trim_right s = s.
Proof.
  induction s as [|a s IH]; [done|]. intros H. simpl.
  destruct s as [|b s].
  - simpl. simpl in H. by rewrite (H a).
  - rewrite IH; [done|]. intros c Hc. apply H. exact Hc.
Qed.

Lemma trim_first (s : string) (c : ascii) :
  first_char (trim s) = Some c → is_trim_char c = false.
Proof.
  unfold trim. intros H.
  destruct (trim_right_first (trim_left s)) as [Hn|He]; [congruence|].
  rewrite He in H. by eapply trim_left_first.
Qed.

(** X2: [trim] strips the leading and the trailing run of blanks,
    tabs, carriage returns and newlines, and nothing else: the text is a run
    of such characters, the trimmed text, and another run; the trimmed text
    neither starts nor ends with one of them; trimming it again changes
    nothing. *)
Theorem trim_strips_both_ends (s : string) :
  (∃ l r, s = l +:+ trim s +:+ r ∧ all_trim_chars l = true ∧ all_trim_chars r = true)
  ∧ (∀ c, first_char (trim s) = Some c → is_trim_char c = false)
  ∧ (∀ c, last_char (trim s) = Some c → is_trim_char c = false)
  ∧ trim (trim s) = trim s.
Proof.
  split; [|split; [|split]].
  - destruct (trim_left_decompose s) as (l & Hl & Hla).
    destruct (trim_right_decompose (trim_left s)) as (r & Hr & Hra).
    exists l, r. unfold trim. by rewrite <- Hr, <- Hl.
  - apply trim_first.
  - intros c. unfold trim. apply trim_right_last.
  - unfold trim at 1. rewrite trim_left_fixed by apply trim_first.
    apply trim_right_fixed. intros c. unfold trim. apply trim_right_last.
Qed.

Lemma trim_strips_both_ends_witness :
  trim (String "009" " kern.name " +:+ newline) = "kern.name"
  ∧ trim (trim (String "009" " kern.name " +:+ newline))
    = trim (String "009" " kern.name " +:+ newline).
Proof.
  split; [reflexivity|].
  apply (trim_strips_both_ends (String "009" " kern.name " +:+ newline)).
Defined.

(** *** [split_whitespace] *)

Lemma skip_space_decompose (s : string) :
  ∃ l, s = l +:+ skip_space s ∧ all_space l = true.
Proof.
  induction s as [|c s (l & Hl & Hall)].
  - by exists "".
  - simpl. destruct (is_space c) eqn:Hc.
    + exists (String c l). rewrite app_cons, <- Hl. simpl. by rewrite Hc, Hall.
    + by exists "".
Qed.

Lemma len_skip_space (s : string) : (Str.len (skip_space s) ≤ Str.len s)%nat.
Proof. induction s as [|c s IH]; [done|]. simpl. destruct (is_space c); simpl; lia. Qed.

Lemma read_token_decompose (s : string) :
  s = (read_token s).1 +:+ (read_token s).2 ∧ no_space (read_token s).1 = true.
Proof.
  induction s as [|c s [IH1 IH2]]; [done|]. simpl.
  destruct (is_space c) eqn:Hc; simpl; [done|]. rewrite Hc, app_cons. simpl. by rewrite <- IH1.
Qed.

Lemma skip_space_all (l s : string) :
  all_space l = true → skip_space (l +:+ s) = skip_space s.
Proof.
  induction l as [|c l IH]; [done|]. simpl. destruct (is_space c); [|done]. apply IH.
Qed.

Lemma skip_space_token (t s : string) :
  t ≠ "" → no_space t = true → skip_space (t +:+ s) = t +:+ s.
Proof. destruct t as [|c t]; [done|]. simpl. by destruct (is_space c). Qed.

Lemma read_token_app (t rest : string) :
  no_space t = true →
  rest = "" ∨ (∃ c rest', rest = String c rest' ∧ is_space c = true) →
  read_token (t +:+ rest) = (t, rest).
Proof.
  intros Ht Hrest. induction t as [|c t IH].
  - rewrite app_empty_l. destruct Hrest as [->|(c & rest' & -> & Hc)]; [done|].
    simpl. by rewrite Hc.
  - simpl in Ht. apply andb_true_iff in Ht as [Hc Ht]. rewrite app_cons. simpl.
    destruct (is_space c); [done|]. by rewrite (IH Ht).
Qed.

(** More fuel than the length of the text changes nothing. *)
Lemma split_whitespace_fuel_enough (f1 : nat) :
  ∀ f2 s, (Str.len s < f1)%nat → (Str.len s < f2)%nat →
    split_whitespace_fuel f1 s = split_whitespace_fuel f2 s.
Proof.
  induction f1 as [|f1 IH]; intros f2 s H1 H2; [lia|].
  destruct f2 as [|f2]; [lia|]. cbn [split_whitespace_fuel].
  destruct (decide ((read_token (skip_space s)).1 = "")) as [|Hne]; [done|].
  f_equal. destruct (read_token_decompose (skip_space s)) as [Hd _].
  pose proof (len_skip_space s) as Hs. rewrite Hd, len_app in Hs.
  destruct ((read_token (skip_space s)).1) as [|c t]; [done|]. simpl in Hs.
  apply IH; lia.
Qed.

Lemma split_whitespace_fuel_tokens (fuel : nat) :
  ∀ s, Forall (λ t, t ≠ "" ∧ no_space t = true) (split_whitespace_fuel fuel s).
Proof.
  induction fuel as [|fuel IH]; intros s; [constructor|]. cbn [split_whitespace_fuel].
  destruct (decide _) as [|Hne]; [constructor|].
  constructor; [|apply IH]. split; [done|]. apply read_token_decompose.
Qed.

Lemma split_whitespace_blank (l : string) : all_space l = true → split_whitespace l = [].
Proof.
  intros Hl. unfold split_whitespace. cbn [split_whitespace_fuel].
  rewrite <- (app_empty_r l), (skip_space_all l "" Hl). done.
Qed.

Lemma split_whitespace_cons (l t rest : string) :
  all_space l = true → t ≠ "" → no_space t = true →
  rest = "" ∨ (∃ c rest', rest = String c rest' ∧ is_space c = true) →
  split_whitespace (l +:+ t +:+ rest) = t :: split_whitespace rest.
Proof.
  intros Hl Hne Ht Hrest. unfold split_whitespace at 1. cbn [split_whitespace_fuel].
  rewrite (skip_space_all _ _ Hl), (skip_space_token _ _ Hne Ht), (read_token_app _ _ Ht Hrest).
  cbn [fst snd]. rewrite decide_False by done. f_equal. unfold split_whitespace.
  apply split_whitespace_fuel_enough; rewrite ?len_app; destruct t; simpl; try done; lia.
Qed.

Lemma all_space_app (s t : string) :
  all_space (s +:+ t) = all_space s && all_space t.
Proof.
  induction s as [|c s IH]; [done|]. rewrite app_cons. simpl. rewrite IH.
  by destruct (is_space c).
Qed.

Lemma all_space_first (s t : string) :
  s ≠ "" → all_space s = true →
  ∃ c rest', s +:+ t = String c rest' ∧ is_space c = true.
Proof.
  destruct s as [|c s]; [done|]. intros _ H. simpl in H.
  apply andb_true_iff in H as [Hc _]. by exists c, (s +:+ t).
Qed.

Lemma split_whitespace_join (toks : list string) (l sep r : string) :
  Forall (λ t, t ≠ "" ∧ no_space t = true) toks →
  all_space l = true → sep ≠ "" → all_space sep = true → all_space r = true →
  split_whitespace (l +:+ join toks sep +:+ r) = toks.
Proof.
  intros Htoks Hl Hsep Hsa Hr. revert l Hl.
  induction Htoks as [|t toks [Hne Ht] Htoks IH]; intros l Hl.
  - simpl join. rewrite app_empty_l. apply split_whitespace_blank.
    by rewrite all_space_app, Hl, Hr.
  - destruct toks as [|t2 toks].
    + simpl join. rewrite split_whitespace_cons; [|done..|].
      * by rewrite (split_whitespace_blank r Hr).
      * destruct r as [|c r]; [by left|right]. simpl in Hr.
        apply andb_true_iff in Hr as [Hc _]. by exists c, r.
    + rewrite join_cons by done. rewrite !app_assoc_str.
      rewrite split_whitespace_cons; [|done..|].
      * f_equal. apply (IH sep Hsa).
      * right. by apply all_space_first.
Qed.

(** X3: the tokens [split_whitespace] returns are not empty
    and hold no white space; a list of such tokens, joined by runs of white
    space and with white space before and after, splits into these tokens
    again. *)
Theorem split_whitespace_tokens :
  (∀ s, Forall (λ t, t ≠ "" ∧ no_space t = true) (split_whitespace s))
  ∧ (∀ toks l sep r,
       Forall (λ t, t ≠ "" ∧ no_space t = true) toks →
       all_space l = true → sep ≠ "" → all_space sep = true → all_space r = true →
       split_whitespace (l +:+ join toks sep +:+ r) = toks).
Proof.
  split.
  - intros s. apply split_whitespace_fuel_tokens.
  - apply split_whitespace_join.
Qed.

Lemma split_whitespace_tokens_witness :
  split_whitespace (newline +:+ "  " +:+ join ["generic"; "sse|avx"; "orc"] (" " +:+ newline)
                    +:+ " ")
  = ["generic"; "sse|avx"; "orc"].
Proof.
  destruct split_whitespace_tokens as [_ H].
  apply (H ["generic"; "sse|avx"; "orc"] (newline +:+ "  ") (" " +:+ newline) " ");
    [|reflexivity|done|reflexivity|reflexivity].
  repeat constructor; done.
Defined.

(** *** Case conversion *)

Lemma tolower_idem (c : ascii) : tolower (tolower c) = tolower c.
Proof. destruct c as [[] [] [] [] [] [] [] []]; reflexivity. Qed.

Lemma to_lower_idem (s : string) : to_lower (to_lower s) = to_lower s.
Proof.
  unfold to_lower. induction s as [|c s IH]; [done|]. simpl. by rewrite tolower_idem, IH.
Qed.

(** ** [strip_xml_comments] *)

Lemma drop_app_len (s t : string) : Str.drop (Str.len s) (s +:+ t) = t.
Proof. induction s as [|c s IH]; [done|]. rewrite app_cons. simpl. exact IH. Qed.

Lemma drop_add (n m : nat) (s : string) : Str.drop (n + m) s = Str.drop m (Str.drop n s).
Proof.
  revert s. induction n as [|n IH]; intros s; [done|].
  destruct s as [|c s]; simpl; [by destruct m|]. apply IH.
Qed.

Lemma starts_with_app_long (p s t : string) :
  (Str.len p ≤ Str.len s)%nat → Str.starts_with p (s +:+ t) = Str.starts_with p s.
Proof.
  revert s. induction p as [|a p IH]; intros s Hlen; [done|].
  destruct s as [|b s]; [simpl in Hlen; lia|]. rewrite app_cons. simpl.
  destruct (decide (a = b)); [|done]. apply IH. simpl in Hlen. lia.
Qed.

(** The opener [<!--] and the closer [-->] overlap with no copy of
    themselves: in front of a copy, an occurrence lies in the text before
    it. *)
Lemma find_opener_app (pre rest : string) :
  Str.find "<!--" pre = None →
  Str.find "<!--" (pre +:+ "<!--" +:+ rest) = Some (Str.len pre).
Proof.
  induction pre as [|a pre IH]; [done|]. intros Hf.
  apply find_None_cons in Hf as [Hhere Hrest].
  rewrite app_cons. cbn [Str.find].
  assert (Str.starts_with "<!--" (String a (pre +:+ "<!--" +:+ rest)) = false) as ->.
  { destruct pre as [|b [|c [|d pre]]].
    - simpl. repeat (case_decide; try done); congruence.
    - simpl. repeat (case_decide; try done); congruence.
    - simpl. repeat (case_decide; try done); congruence.
    - rewrite <- app_cons, starts_with_app_long; [exact Hhere | simpl; lia]. }
  by rewrite (IH Hrest).
Qed.

Lemma find_closer_app (pre rest : string) :
  Str.find "-->" pre = None →
  Str.find "-->" (pre +:+ "-->" +:+ rest) = Some (Str.len pre).
Proof.
  induction pre as [|a pre IH]; [done|]. intros Hf.
  apply find_None_cons in Hf as [Hhere Hrest].
  rewrite app_cons. cbn [Str.find].
  assert (Str.starts_with "-->" (String a (pre +:+ "-->" +:+ rest)) = false) as ->.
  { destruct pre as [|b [|c pre]].
    - simpl. repeat (case_decide; try done); congruence.
    - simpl. repeat (case_decide; try done); congruence.
    - rewrite <- app_cons, starts_with_app_long; [exact Hhere | simpl; lia]. }
  by rewrite (IH Hrest).
Qed.

(** More fuel than the length of the text changes nothing. *)
Lemma strip_xml_comments_fuel_enough (f1 : nat) :
  ∀ f2 xml, (Str.len xml < f1)%nat → (Str.len xml < f2)%nat →
    strip_xml_comments_fuel f1 xml = strip_xml_comments_fuel f2 xml.
Proof.
  induction f1 as [|f1 IH]; intros f2 xml H1 H2; [lia|].
  destruct f2 as [|f2]; [lia|]. cbn [strip_xml_comments_fuel].
  destruct (decide (xml = "")); [done|].
  destruct (Str.find "<!--" xml) as [comment_start|] eqn:Hs; [|done].
  destruct (Str.find "-->" (Str.drop comment_start xml)) as [off|] eqn:He; [|done].
  f_equal. apply find_Some_bound in Hs, He. rewrite len_drop in He. simpl in Hs, He.
  apply IH; rewrite len_drop; lia.
Qed.

Lemma strip_xml_comments_no_opener (xml : string) :
  Str.find "<!--" xml = None → strip_xml_comments xml = xml.
Proof.
  intros Hf. unfold strip_xml_comments. cbn [strip_xml_comments_fuel].
  rewrite Hf. by destruct (decide (xml = "")).
Qed.

(** One iteration of the loop at the first opener. *)
Lemma strip_xml_comments_step (pre tail : string) (off : nat) :
  Str.find "<!--" pre = None →
  Str.find "-->" ("<!--" +:+ tail) = Some off →
  strip_xml_comments (pre +:+ "<!--" +:+ tail)
  = pre +:+ strip_xml_comments (Str.drop (off + 3) ("<!--" +:+ tail)).
Proof.
  intros Hpre Hoff. unfold strip_xml_comments at 1. cbn [strip_xml_comments_fuel].
  rewrite decide_False by (by destruct pre).
  rewrite (find_opener_app _ _ Hpre), take_app_len, drop_app_len, Hoff.
  f_equal. rewrite <- Nat.add_assoc, drop_add, drop_app_len.
  apply strip_xml_comments_fuel_enough.
  all: rewrite ?len_drop, ?len_app; apply find_Some_bound in Hoff;
    rewrite ?len_app in Hoff; simpl in *; try lia.
Qed.

Lemma strip_xml_comments_unclosed (pre tail : string) :
  Str.find "<!--" pre = None →
  Str.find "-->" ("<!--" +:+ tail) = None →
  strip_xml_comments (pre +:+ "<!--" +:+ tail) = pre.
Proof.
  intros Hpre Hoff. unfold strip_xml_comments. cbn [strip_xml_comments_fuel].
  rewrite decide_False by (by destruct pre).
  rewrite (find_opener_app _ _ Hpre), take_app_len, drop_app_len, Hoff.
  apply app_empty_r.
Qed.

(** X4: [strip_xml_comments] removes a comment and keeps
    what is around it: with no opener in [pre] and no closer in the opener
    followed by [body], the text [pre <!-- body --> post] becomes [pre]
    followed by the stripped [post]; a comment that is never closed takes
    the rest of the text with it; a text without opener is returned as it
    is. *)
Theorem strip_xml_comments_comment (pre body post : string) :
  Str.find "<!--" pre = None →
  Str.find "-->" ("<!--" +:+ body) = None →
  strip_xml_comments (pre +:+ "<!--" +:+ body +:+ "-->" +:+ post)
  = pre +:+ strip_xml_comments post
  ∧ strip_xml_comments (pre +:+ "<!--" +:+ body) = pre
  ∧ strip_xml_comments pre = pre.
Proof.
  intros Hpre Hbody. split; [|split].
  - pose proof (find_closer_app _ post Hbody) as Hoff.
    rewrite app_assoc_str in Hoff.
    rewrite (strip_xml_comments_step _ _ _ Hpre Hoff). f_equal. f_equal.
    rewrite <- (app_assoc_str "<!--"), drop_add, drop_app_len. done.
  - by apply strip_xml_comments_unclosed.
  - by apply strip_xml_comments_no_opener.
Qed.

Lemma strip_xml_comments_comment_witness :
  strip_xml_comments ("<arch name=" +:+ dq +:+ "sse" +:+ dq +:+ ">"
                      +:+ "<!--" +:+ " <flag>-msse</flag> - -" +:+ "-->"
                      +:+ "</arch><!-- end -->")
  = "<arch name=" +:+ dq +:+ "sse" +:+ dq +:+ ">" +:+ strip_xml_comments "</arch><!-- end -->".
Proof.
  apply (strip_xml_comments_comment ("<arch name=" +:+ dq +:+ "sse" +:+ dq +:+ ">")
           " <flag>-msse</flag> - -" "</arch><!-- end -->"); reflexivity.
Defined.

(** X5: the closer is searched from the first character of the
    opener on, so that the two dashes of [<!--] followed by [>] close the
    comment they open: of [pre <!--> post] the text [<!-->] alone is
    removed, whatever [post] holds. *)
Theorem strip_xml_comments_dashes_shared (pre post : string) :
  Str.find "<!--" pre = None →
  strip_xml_comments (pre +:+ "<!-->" +:+ post) = pre +:+ strip_xml_comments post.
Proof.
  intros Hpre.
  change ("<!-->" +:+ post) with ("<!--" +:+ ">" +:+ post).
  rewrite (strip_xml_comments_step pre (">" +:+ post) 2 Hpre); [done|].
  reflexivity.
Qed.

Lemma strip_xml_comments_dashes_shared_witness :
  strip_xml_comments ("a" +:+ "<!-->" +:+ " b -->c") = "a b -->c".
Proof.
  rewrite (strip_xml_comments_dashes_shared "a" " b -->c"); reflexivity.
Defined.

(** ** The machines of an entry list *)

Section Expansions.

Variable dict : gmap string Arch.

Lemma expansions_no_bar (name : string) (archs : list string) :
  Forall (λ a, has_bar a = false) archs → expansions name archs = [(name, archs)].
Proof.
  induction 1 as [|a rest Ha _ IH]; [done|]. simpl. by rewrite Ha, IH.
Qed.

Lemma expansions_app_no_bar (before : list string) :
  Forall (λ a, has_bar a = false) before →
  ∀ name archs,
    expansions name (before ++ archs)
    = (λ nl, (nl.1, before ++ nl.2)) <$> expansions name archs.
Proof.
  induction 1 as [|a before Ha _ IH]; intros name archs.
  - simpl. rewrite <- (list_fmap_id (expansions name archs)) at 1.
    apply list_fmap_ext. by intros _ [n l] _.
  - simpl. rewrite Ha, IH, <- list_fmap_compose. done.
Qed.

Lemma bars_zero (l : list string) : bars l = O → Forall (λ a, has_bar a = false) l.
Proof.
  unfold bars. induction l as [|a l IH]; [constructor|]. simpl.
  destruct (has_bar a) eqn:Ha; [done|]. intros H. constructor; [done|]. by apply IH.
Qed.

Lemma bars_no_bar (l : list string) : Forall (λ a, has_bar a = false) l → bars l = O.
Proof.
  unfold bars. induction 1 as [|a l Ha _ IH]; [done|]. simpl. by rewrite Ha.
Qed.

Lemma register_all_app (c1 c2 : list (string * list string)) (gm : list Machine) :
  register_all dict (c1 ++ c2) gm = register_all dict c2 (register_all dict c1 gm).
Proof. unfold register_all. apply fold_left_app. Qed.

Lemma register_machine_fuel_expansions (fuel : nat) :
  ∀ name archs gm, (bars archs < fuel)%nat →
    register_machine_fuel dict fuel name archs gm
    = Some (register_all dict (expansions name archs) gm).
Proof.
  induction fuel as [|fuel IH]; intros name archs gm Hlt; [lia|].
  rewrite register_machine_fuel_S.
  destruct (find_alternation archs) as [[[before e] after]|] eqn:Hf.
  - apply find_alternation_Some in Hf as (-> & He & Hb).
    assert (Hafter : (bars after < fuel)%nat).
    { rewrite bars_app in Hlt. unfold bars in Hlt |- *. simpl in Hlt.
      rewrite He in Hlt. simpl in Hlt. lia. }
    apply bars_zero in Hb.
    rewrite (expansions_app_no_bar _ Hb). cbn [expansions]. rewrite He.
    pose proof (split_pieces_no_delim "|" e) as Hparts.
    revert gm. induction Hparts as [|part parts Hp _ IHparts]; intros gm; [done|].
    cbn [fold_left flat_map]. rewrite fmap_app, register_all_app.
    destruct (decide (part = "")) as [->|Hne].
    + rewrite IH by (by rewrite bars_app, (bars_no_bar _ Hb)).
      rewrite IHparts. by rewrite (expansions_app_no_bar _ Hb).
    + rewrite IH.
      2:{ rewrite bars_app, (bars_no_bar _ Hb). unfold bars in *. simpl.
          unfold has_bar at 1. rewrite Hp. simpl. lia. }
      rewrite IHparts. rewrite (expansions_app_no_bar _ Hb). cbn [expansions].
      unfold has_bar at 1. rewrite Hp. done.
  - apply find_alternation_None in Hf. by rewrite (expansions_no_bar _ _ Hf).
Qed.

(** X6: [register_machine] registers, in this order, one plain
    machine for every choice of an alternative in each entry that holds
    ['|']: the choices are taken entry by entry from left to right, a chosen
    non-empty alternative stands in place of its entry and adds ['_'] and
    itself to the machine name, an empty one leaves the entry out and the
    name as it is. *)
Theorem register_machine_expansions (name : string) (archs : list string)
    (gm : list Machine) :
  register_machine dict name archs gm
  = Some (fold_left (λ gm nl, register_plain dict nl.1 nl.2 gm) (expansions name archs) gm).
Proof.
  unfold register_machine. rewrite register_machine_fuel_expansions; [done|].
  pose proof (bars_le_length archs). lia.
Qed.

End Expansions.

(** ** What registration adds to the catalog *)

Lemma starts_with_refl_app (s t : string) : Str.starts_with s (s +:+ t) = true.
Proof. induction s as [|c s IH]; [done|]. rewrite app_cons. simpl. by rewrite decide_True. Qed.

Lemma expansions_names (archs : list string) :
  ∀ name nl, nl ∈ expansions name archs → ∃ suffix, nl.1 = name +:+ suffix.
Proof.
  induction archs as [|a rest IH]; intros name nl; cbn [expansions].
  - intros ->%list_elem_of_singleton. exists "". by rewrite app_empty_r.
  - destruct (has_bar a).
    + rewrite list_elem_of_In, in_flat_map. intros (part & _ & Hin).
      apply list_elem_of_In in Hin.
      destruct (decide (part = "")).
      * by apply IH.
      * apply list_elem_of_fmap in Hin as (nl' & -> & Hin). simpl.
        destruct (IH _ _ Hin) as (suffix & ->).
        exists ("_" +:+ part +:+ suffix). by rewrite !app_assoc_str.
    + intros (nl' & -> & Hin)%list_elem_of_fmap. simpl. by apply IH.
Qed.

Section Appends.

Variable dict : gmap string Arch.

Lemma register_plain_appends (base name : string) (archs : list string)
    (gm : list Machine) :
  Str.starts_with base name = true →
  ∃ added, register_plain dict name archs gm = gm ++ added
           ∧ (length added ≤ 1)%nat ∧ Forall (added_by base) added.
Proof.
  intros Hname. unfold register_plain.
  destruct (resolve_archs dict archs) as [[names resolved]|].
  2:{ exists []. rewrite app_nil_r. repeat split; [simpl; lia | constructor]. }
  destruct resolved as [|a resolved].
  { exists []. rewrite app_nil_r. repeat split; [simpl; lia | constructor]. }
  eexists [_]. split; [done|]. split; [simpl; lia|]. constructor; [|constructor].
  unfold added_by. cbn [machine_name machine_archs machine_alignment].
  split; [done|]. split; [done|].
  destruct (max_align_fold_ge (a :: resolved) 1) as [H1 H2]. split; [exact H1|].
  apply Forall_forall. exact H2.
Qed.

Lemma register_all_appends (base : string) (choices : list (string * list string)) :
  Forall (λ nl, Str.starts_with base nl.1 = true) choices →
  ∀ gm, ∃ added, register_all dict choices gm = gm ++ added
                 ∧ (length added ≤ length choices)%nat ∧ Forall (added_by base) added.
Proof.
  induction 1 as [|nl choices Hnl _ IH]; intros gm.
  - exists []. rewrite app_nil_r. repeat split; [simpl; lia | constructor].
  - change (register_all dict (nl :: choices) gm)
      with (register_all dict choices (register_plain dict nl.1 nl.2 gm)).
    destruct (register_plain_appends base nl.1 nl.2 gm Hnl) as (a1 & -> & Hl1 & Ha1).
    destruct (IH (gm ++ a1)) as (a2 & -> & Hl2 & Ha2).
    exists (a1 ++ a2). rewrite app_assoc. split; [done|].
    rewrite length_app. simpl. split; [lia|]. by apply Forall_app.
Qed.

(** X7: [register_machine] leaves the machines of the catalog as
    they are and appends at most one machine for every choice of
    alternatives; each machine it appends has a name that starts with the
    base name, at least one architecture, and an alignment that is at least
    1 and at least the alignment of each of its architectures. *)
Theorem register_machine_appends (name : string) (archs : list string)
    (gm : list Machine) :
  ∃ added,
    register_machine dict name archs gm = Some (gm ++ added)
    ∧ (length added ≤ length (expansions name archs))%nat
    ∧ Forall (added_by name) added.
Proof.
  unfold register_machine.
  rewrite register_machine_fuel_expansions by (pose proof (bars_le_length archs); lia).
  destruct (register_all_appends name (expansions name archs)) with (gm := gm)
    as (added & Heq & Hlen & Hok).
  - apply Forall_forall. intros nl Hnl.
    destruct (expansions_names _ _ _ Hnl) as (suffix & ->). apply starts_with_refl_app.
  - exists added. by rewrite Heq.
Qed.

End Appends.

(** ** The dictionaries *)

Lemma build_dict_lookup {A : Type} (key : A → string) (n : string) (l : list A) :
  ∀ d : gmap string A,
    fold_left (λ d x, <[key x := x]> d) l d !! n
    = match last (List.filter (λ x, bool_decide (key x = n)) l) with
      | Some x => Some x
      | None => d !! n
      end.
Proof.
  induction l as [|x l IH]; intros d; [done|]. cbn [fold_left List.filter].
  rewrite IH. case_bool_decide as Hx.
  - destruct (List.filter _ l) as [|y l'] eqn:Hf.
    + simpl. rewrite <- Hx. apply lookup_insert_eq.
    + rewrite last_cons_cons. destruct (last (y :: l')) eqn:Hl; [done|].
      by apply last_None in Hl.
  - destruct (last _); [done|]. by apply lookup_insert_ne.
Qed.

Lemma last_filter_elem {A : Type} (P : A → bool) (l : list A) (x : A) :
  last (List.filter P l) = Some x → x ∈ l ∧ P x = true.
Proof.
  intros H. apply last_Some in H as (l' & Hl).
  assert (x ∈ List.filter P l) as Hin by (rewrite Hl; set_solver).
  apply list_elem_of_In, List.filter_In in Hin as [Hin HP].
  by apply list_elem_of_In in Hin.
Qed.

Lemma last_filter_is_Some {A : Type} (P : A → bool) (l : list A) (x : A) :
  x ∈ l → P x = true → is_Some (last (List.filter P l)).
Proof.
  intros Hin HP. assert (x ∈ List.filter P l) as Hx.
  { apply list_elem_of_In, List.filter_In. by split; [apply list_elem_of_In|]. }
  destruct (List.filter P l) as [|y l'] using rev_ind; [by apply elem_of_nil in Hx|].
  rewrite last_snoc. by eexists.
Qed.

(** X8: the dictionaries map a name to the last entry of the catalog
    that has it: a name of the catalog is always found, what is found has
    the name asked for and is in the catalog, and a name that is not in the
    catalog is not found. *)
Theorem dict_lookup_last (ms : list Machine) (archs : list Arch) (n : string) :
  build_machine_dict ms !! n = last_machine_named n ms
  ∧ build_arch_dict archs !! n = last_arch_named n archs
  ∧ (∀ m, build_machine_dict ms !! n = Some m → m ∈ ms ∧ machine_name m = n)
  ∧ (∀ m, m ∈ ms → is_Some (build_machine_dict ms !! machine_name m))
  ∧ (∀ a, build_arch_dict archs !! n = Some a → a ∈ archs ∧ arch_name a = n)
  ∧ (∀ a, a ∈ archs → is_Some (build_arch_dict archs !! arch_name a)).
Proof.
  assert (Hm : ∀ n, build_machine_dict ms !! n = last_machine_named n ms).
  { intros n'. unfold build_machine_dict, last_machine_named.
    rewrite build_dict_lookup. by destruct (last _). }
  assert (Ha : ∀ n, build_arch_dict archs !! n = last_arch_named n archs).
  { intros n'. unfold build_arch_dict, last_arch_named.
    rewrite build_dict_lookup. by destruct (last _). }
  split; [apply Hm|]. split; [apply Ha|]. repeat split.
  - rewrite Hm in H. by apply last_filter_elem in H as [? ?].
  - rewrite Hm in H. apply last_filter_elem in H as [_ H]. by apply bool_decide_eq_true in H.
  - intros m Hin. rewrite Hm. eapply last_filter_is_Some; [done|]. by apply bool_decide_eq_true.
  - rewrite Ha in H. by apply last_filter_elem in H as [? ?].
  - rewrite Ha in H. apply last_filter_elem in H as [_ H]. by apply bool_decide_eq_true in H.
  - intros a Hin. rewrite Ha. eapply last_filter_is_Some; [done|]. by apply bool_decide_eq_true.
Qed.

Lemma dict_lookup_last_witness :
  build_machine_dict
    [demo_machine_generic; demo_machine_avx;
     mkMachine "generic" ["generic"] [demo_generic] 1] !! "generic"
  = Some (mkMachine "generic" ["generic"] [demo_generic] 1)
  ∧ is_Some (build_machine_dict demo_machines !! machine_name demo_machine_avx).
Proof.
  split.
  - rewrite (proj1 (dict_lookup_last
                      [demo_machine_generic; demo_machine_avx;
                       mkMachine "generic" ["generic"] [demo_generic] 1] [] "generic")).
    reflexivity.
  - apply (dict_lookup_last demo_machines [] "generic"). vm_compute. set_solver.
Defined.

(** ** [remove_comments], once more *)

(** One step of the scanner, by the character it reads. *)
Lemma scan_code_quote (c : ascii) (o : string) :
  c = "034"%char ∨ c = "'"%char →
  scan_comments InCode (String c o)
  = (String c (scan_comments (InString c) o).1, (scan_comments (InString c) o).2).
Proof. intros Hc. destruct o; simpl; by rewrite decide_True. Qed.

Lemma scan_code_emit (c : ascii) (o : string) :
  c ≠ "034"%char → c ≠ "'"%char → c ≠ "/"%char →
  scan_comments InCode (String c o)
  = (String c (scan_comments InCode o).1, (scan_comments InCode o).2).
Proof.
  intros H1 H2 H3. destruct o as [|c2 o].
  - simpl. by rewrite decide_False by tauto.
  - rewrite scan_code_cons2. by rewrite !decide_False by tauto.
Qed.

Lemma scan_code_slash (c2 : ascii) (o : string) :
  c2 ≠ "/"%char → c2 ≠ "*"%char →
  scan_comments InCode (String "/" (String c2 o))
  = (String "/" (scan_comments InCode (String c2 o)).1,
     (scan_comments InCode (String c2 o)).2).
Proof.
  intros H1 H2. rewrite scan_code_cons2.
  rewrite decide_False by (intros [?|?]; done). by rewrite !decide_False by tauto.
Qed.

Lemma scan_string_close (q : ascii) (o : string) :
  q ≠ "\"%char →
  scan_comments (InString q) (String q o)
  = (String q (scan_comments InCode o).1, (scan_comments InCode o).2).
Proof.
  intros Hq. destruct o as [|c2 o].
  - simpl. by rewrite decide_True.
  - rewrite scan_string_cons2. rewrite decide_False by done. by rewrite decide_True.
Qed.

Lemma scan_string_plain (q c : ascii) (o : string) :
  c ≠ "\"%char → c ≠ q →
  scan_comments (InString q) (String c o)
  = (String c (scan_comments (InString q) o).1, (scan_comments (InString q) o).2).
Proof.
  intros H1 H2. destruct o as [|c2 o].
  - simpl. by rewrite decide_False.
  - rewrite scan_string_cons2. by rewrite !decide_False.
Qed.

(** In code, a character other than ['/'] is the first one of the result. *)
Lemma scan_code_first (c : ascii) (o : string) :
  c ≠ "/"%char → ∃ o', (scan_comments InCode (String c o)).1 = String c o'.
Proof.
  intros Hc. destruct (decide (c = "034"%char ∨ c = "'"%char)) as [Hq|Hq].
  - rewrite scan_code_quote by done. by eexists.
  - rewrite scan_code_emit by tauto. by eexists.
Qed.

(** The result of the scanner, scanned again from code (or from the literal
    the first scan started in), is left as it is. *)
Lemma scan_comments_rescan (n : nat) :
  ∀ code, (Str.len code ≤ n)%nat →
    (scan_comments InCode (scan_comments InCode code).1).1 = (scan_comments InCode code).1
    ∧ (∀ q, q ≠ "\"%char →
         (scan_comments (InString q) (scan_comments (InString q) code).1).1
         = (scan_comments (InString q) code).1)
    ∧ (scan_comments InCode (scan_comments InLineComment code).1).1
      = (scan_comments InLineComment code).1
    ∧ (scan_comments InCode (scan_comments InBlockComment code).1).1
      = (scan_comments InBlockComment code).1.
Proof.
  induction n as [|n IH]; intros code Hlen.
  { destruct code; [|simpl in Hlen; lia]. repeat split; done. }
  destruct code as [|c rest]; [repeat split; done|].
  simpl in Hlen. assert (Hrest : (Str.len rest ≤ n)%nat) by lia.
  destruct (IH rest Hrest) as (I1 & I2 & I3 & I4).
  split; [|split; [|split]].
  - (* code *)
    destruct (decide (c = "034"%char ∨ c = "'"%char)) as [Hq|Hq].
    { rewrite !scan_code_quote by done. cbn [fst]. rewrite scan_code_quote by done.
      cbn [fst]. rewrite I2; [done|]. by destruct Hq as [->| ->]. }
    destruct (decide (c = "/"%char)) as [->|Hs].
    2:{ rewrite scan_code_emit by tauto. cbn [fst]. rewrite scan_code_emit by tauto.
        cbn [fst]. by rewrite I1. }
    destruct rest as [|c2 rest]; [done|].
    rewrite scan_code_cons2. rewrite decide_False by (intros [?|?]; done).
    destruct (decide (_ ∧ c2 = "/"%char)) as [[_ ->]|H1].
    { simpl in Hrest. apply (IH rest). lia. }
    destruct (decide (_ ∧ c2 = "*"%char)) as [[_ ->]|H2].
    { simpl in Hrest. apply (IH rest). lia. }
    cbn [fst]. assert (c2 ≠ "/"%char) as Hc2 by tauto.
    destruct (scan_code_first c2 rest Hc2) as (o' & Ho'). rewrite Ho'.
    rewrite scan_code_slash by tauto. cbn [fst]. rewrite <- Ho'. by rewrite I1.
  - (* literal *)
    intros q Hq. destruct (decide (c = "\"%char)) as [->|Hb].
    { destruct rest as [|c2 rest].
      - simpl. rewrite decide_False by done. simpl. by rewrite decide_False by done.
      - rewrite scan_string_cons2, decide_True by done. cbn [fst].
        rewrite scan_string_cons2, decide_True by done. cbn [fst].
        simpl in Hrest. destruct (IH rest) as (_ & J2 & _); [lia|]. by rewrite J2. }
    destruct (decide (c = q)) as [->|Hc].
    { rewrite scan_string_close by done. cbn [fst].
      rewrite scan_string_close by done. cbn [fst]. by rewrite I1. }
    rewrite scan_string_plain by done. cbn [fst].
    rewrite scan_string_plain by done. cbn [fst]. by rewrite I2.
  - (* line comment *)
    rewrite scan_line_cons. destruct (decide (c = "010"%char)) as [->|Hc]; [|exact I3].
    cbn [fst]. rewrite scan_code_emit by done. cbn [fst]. by rewrite I1.
  - (* block comment *)
    destruct rest as [|c2 rest]; [done|]. rewrite scan_block_cons2.
    destruct (decide _); [|exact I4]. simpl in Hrest. apply (IH rest). lia.
Qed.

(** X9: removing the comments of a text from which they were
    removed changes nothing. *)
Theorem remove_comments_idempotent (code : string) :
  remove_comments (remove_comments code) = remove_comments code.
Proof. unfold remove_comments. by apply (scan_comments_rescan (Str.len code)). Qed.

Lemma scan_comments_len (n : nat) :
  ∀ code mode, (Str.len code ≤ n)%nat →
    (Str.len (scan_comments mode code).1 ≤ Str.len code)%nat.
Proof.
  induction n as [|n IH]; intros code mode Hlen.
  { destruct code; [|simpl in Hlen; lia]. by destruct mode. }
  destruct code as [|c rest]; [by destruct mode|]. simpl in Hlen.
  destruct rest as [|c2 rest].
  { destruct mode; simpl; repeat case_decide; simpl; lia. }
  simpl in Hlen.
  assert (Hl2 : (Str.len (String c2 rest) ≤ n)%nat) by (simpl; lia).
  assert (Hl3 : (Str.len rest ≤ n)%nat) by lia.
  pose proof (IH (String c2 rest) InCode Hl2) as J1.
  pose proof (IH (String c2 rest) InLineComment Hl2) as J2.
  pose proof (IH (String c2 rest) InBlockComment Hl2) as J3.
  pose proof (λ q, IH (String c2 rest) (InString q) Hl2) as J4.
  pose proof (λ m, IH rest m Hl3) as J5.
  destruct mode as [| | |q].
  - rewrite scan_code_cons2. repeat case_decide; unfold Str.len in *; cbn [fst String.length] in *;
      first [ specialize (J4 c); lia | specialize (J5 InLineComment); lia
            | specialize (J5 InBlockComment); lia | lia ].
  - rewrite scan_line_cons. case_decide; unfold Str.len in *; cbn [fst String.length] in *; lia.
  - rewrite scan_block_cons2. case_decide; unfold Str.len in *; cbn [fst String.length] in *;
      [specialize (J5 InCode)|]; lia.
  - rewrite scan_string_cons2. repeat case_decide; unfold Str.len in *; cbn [fst String.length] in *;
      first [ specialize (J5 (InString q)); lia | specialize (J4 q); lia | lia ].
Qed.

Lemma scan_comments_no_slash (n : nat) :
  ∀ code, (Str.len code ≤ n)%nat → Str.contains_char "/" code = false →
    (scan_comments InCode code).1 = code
    ∧ ∀ q, (scan_comments (InString q) code).1 = code.
Proof.
  induction n as [|n IH]; intros code Hlen.
  { destruct code; [|simpl in Hlen; lia]. done. }
  destruct code as [|c rest]; [done|]. simpl in Hlen.
  rewrite contains_char_cons. destruct (decide (c = "/"%char)) as [|Hc]; [done|].
  intros Hrest. destruct (IH rest) as [I1 I2]; [lia|done|].
  split.
  - destruct (decide (c = "034"%char ∨ c = "'"%char)) as [Hq|Hq].
    + rewrite scan_code_quote by done. cbn [fst]. by rewrite I2.
    + rewrite scan_code_emit by tauto. cbn [fst]. by rewrite I1.
  - intros q. destruct rest as [|c2 rest].
    + simpl. by case_decide.
    + rewrite scan_string_cons2. simpl in Hlen.
      rewrite contains_char_cons in Hrest.
      destruct (decide (c2 = "/"%char)); [done|].
      destruct (IH rest) as [_ J2]; [lia|done|].
      repeat case_decide; cbn [fst]; by rewrite ?I1, ?I2, ?J2.
Qed.

(** X10: [remove_comments] never returns a longer text than it was
    given, and it returns a text without ['/'] as it is, whatever quotes
    the text holds. *)
Theorem remove_comments_shrinks (code : string) :
  (Str.len (remove_comments code) ≤ Str.len code)%nat
  ∧ (Str.contains_char "/" code = false → remove_comments code = code).
Proof.
  split.
  - by apply (scan_comments_len (Str.len code)).
  - intros H. by apply (scan_comments_no_slash (Str.len code)).
Qed.

Lemma remove_comments_shrinks_witness :
  remove_comments ("it's an " +:+ dq +:+ "unbalanced' text") 
  = "it's an " +:+ dq +:+ "unbalanced' text".
Proof.
  apply (remove_comments_shrinks ("it's an " +:+ dq +:+ "unbalanced' text")). reflexivity.
Defined.

(** ** The modes of [main] *)

Lemma all_present_spec (avail : gset string) (m : Machine) :
  all_present avail m = true ↔ ∀ n, n ∈ machine_arch_names m → n ∈ avail.
Proof.
  unfold all_present. rewrite forallb_forall. split.
  - intros H n Hn. apply (bool_decide_eq_true_1 (n ∈ avail)), H.
    apply list_elem_of_In, elem_of_set_iter. by apply elem_of_list_to_set.
  - intros H n Hn. apply bool_decide_eq_true_2, H.
    by apply list_elem_of_In, elem_of_set_iter, elem_of_list_to_set in Hn.
Qed.

Lemma filter_all {A : Type} (P : A → bool) (l : list A) :
  Forall (λ x, P x = true) l → List.filter P l = l.
Proof. induction 1 as [|x l Hx _ IH]; [done|]. simpl. by rewrite Hx, IH. Qed.



Lemma arch_flags_compiler_cons2 (a v : string) (rest' : list string) (compiler : string) :
  arch_flags_compiler (a :: v :: rest') compiler
  = if decide (a = "--compiler") then arch_flags_compiler rest' (to_lower v)
    else arch_flags_compiler (v :: rest') compiler.
Proof. reflexivity. Qed.

Lemma arch_flags_compiler_lower (args : list string) :
  ∀ compiler, lower_case compiler → lower_case (arch_flags_compiler args compiler).
Proof.
  induction args as [args IH] using (induction_ltof1 _ (@length _)).
  unfold ltof in IH. intros compiler Hc.
  destruct args as [|a [|v rest']]; [done..|]. rewrite arch_flags_compiler_cons2.
  destruct (decide (a = "--compiler")).
  - apply IH; [simpl; lia|]. apply to_lower_idem.
  - apply IH; [simpl; lia|done].
Qed.

(** X12: mode [arch_flags] compares compiler names in lower
    case: the name it asks the architectures about holds no upper-case
    letter, whatever the options are, so that flags an architecture
    declares for a name with an upper-case letter are never returned, and an
    architecture that declares flags for such names only is never
    listed. *)
Theorem arch_flags_lower_case (args : list string) (a : Arch) :
  lower_case (arch_flags_compiler args "")
  ∧ ((∀ k, is_Some (arch_flags a !! k) → ¬ lower_case k) →
     get_flags a (arch_flags_compiler args "") = []
     ∧ (arch_flags a ≠ ∅ →
        ∀ archs, a ∉ List.filter (λ a, is_supported a (arch_flags_compiler args "")) archs)).
Proof.
  assert (Hc : lower_case (arch_flags_compiler args "")) by by apply arch_flags_compiler_lower.
  split; [exact Hc|]. intros Hkeys.
  assert (Hnone : arch_flags a !! arch_flags_compiler args "" = None).
  { destruct (arch_flags a !! arch_flags_compiler args "") eqn:Hl; [|done].
    destruct (Hkeys (arch_flags_compiler args "")); [by eexists|done]. }
  split.
  - unfold get_flags. by rewrite Hnone.
  - intros Hne archs Hin. apply list_elem_of_In, List.filter_In in Hin as [_ Hs].
    unfold is_supported in Hs. rewrite bool_decide_eq_false_2 in Hs by done.
    rewrite Hnone in Hs. apply bool_decide_eq_true in Hs. by destruct Hs.
Qed.

Lemma arch_flags_lower_case_witness :
  arch_flags_compiler ["--compiler"; "GNU"; "--compiler"] "" = "gnu"
  ∧ mode_arch_flags [demo_generic; mkArch "sse" "" "" 16 [] {[ "GNU" := ["-msse"] ]}]
      ["--compiler"; "GNU"]
    = "generic" +:+ newline
  ∧ get_flags (mkArch "sse" "" "" 16 [] {[ "GNU" := ["-msse"] ]})
      (arch_flags_compiler ["--compiler"; "GNU"] "") = [].
Proof.
  split; [reflexivity|]. split; [vm_compute; reflexivity|].
  apply (arch_flags_lower_case ["--compiler"; "GNU"]
           (mkArch "sse" "" "" 16 [] {[ "GNU" := ["-msse"] ]})).
  intros k [fl Hk]. cbn [arch_flags] in Hk.
  apply lookup_singleton_Some in Hk as [<- _]. vm_compute. discriminate.
Defined.

(** ** What a match must hold *)

Lemma take_drop (n : nat) (s : string) : Str.take n s +:+ Str.drop n s = s.
Proof.
  revert s. induction n as [|n IH]; intros s; [done|].
  destruct s as [|c s]; [done|]. simpl. by rewrite app_cons, IH.
Qed.

Lemma str_contains_app_l (p s t : string) :
  str_contains p s = true → str_contains p (s +:+ t) = true.
Proof.
  unfold str_contains. rewrite !bool_decide_eq_true.
  induction s as [|c s IH].
  - cbn [Str.find]. destruct (Str.starts_with p "") eqn:Hp; [|by intros [? ?]].
    intros _. destruct p; [|done]. rewrite app_empty_l.
    destruct t; simpl; by eexists.
  - rewrite app_cons. cbn [Str.find].
    destruct (Str.starts_with p (String c s)) eqn:Hp.
    + intros _. rewrite <- app_cons, (starts_with_app _ _ t Hp). by eexists.
    + intros [i Hi]. destruct (Str.find p s) as [j|]; [|done].
      destruct (Str.starts_with p (String c (s +:+ t))); [by eexists|].
      destruct IH as [k ->]; by eexists.
Qed.

Lemma str_contains_app_r (p s t : string) :
  str_contains p t = true → str_contains p (s +:+ t) = true.
Proof.
  unfold str_contains. rewrite !bool_decide_eq_true. intros Ht.
  induction s as [|c s IH]; [done|]. rewrite app_cons. cbn [Str.find].
  destruct (Str.starts_with p (String c (s +:+ t))); [by eexists|].
  destruct IH as [k ->]; by eexists.
Qed.

Lemma str_contains_false (p s : string) : Str.find p s = None → str_contains p s = false.
Proof. intros H. unfold str_contains. rewrite H. by apply bool_decide_eq_false_2, is_Some_None. Qed.

Lemma find_None_contains (p s : string) : str_contains p s = false → Str.find p s = None.
Proof.
  unfold str_contains. intros H%bool_decide_eq_false.
  destruct (Str.find p s); [|done]. destruct H. by eexists.
Qed.

(** A part of a text without [p] is without [p]. *)
Lemma find_None_part (p a m b : string) :
  Str.find p (a +:+ m +:+ b) = None → Str.find p m = None.
Proof.
  intros H. apply find_None_contains.
  destruct (str_contains p m) eqn:Hm; [|done].
  apply str_contains_false in H.
  by rewrite (str_contains_app_r p a _ (str_contains_app_l p m b Hm)) in H.
Qed.

Lemma find_None_take (p : string) (n : nat) (s : string) :
  Str.find p s = None → Str.find p (Str.take n s) = None.
Proof.
  intros H. apply (find_None_part p "" _ (Str.drop n s)).
  by rewrite app_empty_l, take_drop.
Qed.

Lemma find_None_drop (p : string) (n : nat) (s : string) :
  Str.find p s = None → Str.find p (Str.drop n s) = None.
Proof.
  intros H. apply (find_None_part p (Str.take n s) _ "").
  by rewrite app_empty_r, take_drop.
Qed.

Lemma find_None_trim (p s : string) : Str.find p s = None → Str.find p (trim s) = None.
Proof.
  intros H. destruct (trim_left_decompose s) as (l & Hl & _).
  destruct (trim_right_decompose (trim_left s)) as (r & Hr & _).
  apply (find_None_part p l _ r). unfold trim. by rewrite <- Hr, <- Hl.
Qed.

Lemma contains_char_find (c : ascii) (s : string) :
  Str.contains_char c s = false ↔ Str.find (String c "") s = None.
Proof.
  induction s as [|a s IH]; [done|]. rewrite contains_char_cons. cbn [Str.find Str.starts_with].
  destruct (decide (c = a)) as [->|Hne].
  - rewrite decide_True by done. done.
  - rewrite decide_False by congruence. rewrite IH.
    destruct (Str.find (String c "") s); [done|]. done.
Qed.

Lemma fixed_text_sound (r : Regex) (s : string) :
  Matches r s → ∀ t, fixed_text r = Some t → s = t.
Proof.
  induction 1 as [|negated items c Hc|r1 r2 s1 s2 _ IH1 _ IH2| | |i r s _ IH|];
    intros t; cbn [fixed_text]; try done.
  - by intros [= <-].
  - destruct negated; [done|]. destruct items as [|[] [|]]; try done.
    intros [= <-]. unfold class_matches in Hc. simpl in Hc. rewrite orb_false_r in Hc.
    by apply bool_decide_eq_true in Hc as ->.
  - destruct (fixed_text r1) as [t1|]; [|done]. destruct (fixed_text r2) as [t2|]; [|done].
    intros [= <-]. by rewrite (IH1 _ eq_refl), (IH2 _ eq_refl).
  - apply IH.
  - by intros [= <-].
Qed.

Lemma requires_sound (needle : string) (r : Regex) (s : string) :
  requires needle r = true → Matches r s → str_contains needle s = true.
Proof.
  intros Hreq Hm. revert Hreq.
  induction Hm as [|negated items c Hc|r1 r2 s1 s2 H1 IH1 H2 IH2| | |i r s H IH|].
  - done.
  - pose proof (fixed_text_sound _ _ (M_class _ _ _ Hc)) as Hf.
    cbn [requires]. destruct (fixed_text (Class negated items)) as [t|]; [|done].
    by rewrite (Hf t eq_refl).
  - pose proof (fixed_text_sound _ _ (M_seq _ _ _ _ H1 H2)) as Hf.
    cbn [requires]. destruct (fixed_text (Seq r1 r2)) as [t|].
    + by rewrite (Hf t eq_refl).
    + intros [Hr|Hr]%orb_true_iff.
      * by apply str_contains_app_l, IH1.
      * by apply str_contains_app_r, IH2.
  - done.
  - done.
  - pose proof (fixed_text_sound _ _ (M_group i _ _ H)) as Hf.
    cbn [requires]. destruct (fixed_text (Group i r)) as [t|]; [|exact IH].
    by rewrite (Hf t eq_refl).
  - done.
Qed.

Lemma regex_match_requires (needle : string) (r : Regex) (s : string) :
  requires needle r = true → Str.find needle s = None → regex_match r s = None.
Proof.
  intros Hreq Hs. destruct (regex_match r s) as [m|] eqn:Hm; [|done].
  apply regex_match_sound in Hm. apply (requires_sound _ _ _ Hreq) in Hm.
  by rewrite (str_contains_false _ _ Hs) in Hm.
Qed.

Lemma matches_requires (needle : string) (r : Regex) (s : string) :
  requires needle r = true → Str.find needle s = None → matches r s = false.
Proof.
  intros Hreq Hs. unfold matches. rewrite (regex_match_requires _ _ _ Hreq Hs).
  by apply bool_decide_eq_false_2, is_Some_None.
Qed.

Lemma regex_search_requires (needle : string) (r : Regex) (s : string) :
  requires needle r = true → Str.find needle s = None → regex_search r s = None.
Proof.
  intros Hreq Hs. destruct (regex_search r s) as [m|] eqn:Hm; [|done].
  apply regex_search_sound in Hm as (matched & -> & Hm).
  apply (requires_sound _ _ _ Hreq) in Hm.
  apply find_None_part, str_contains_false in Hs. congruence.
Qed.

(** ** Text lines *)

Lemma find_block_start_text (l : string) : text_line l → Str.find "<%" l = None.
Proof.
  unfold text_line. induction l as [|c l IH]; [done|].
  rewrite contains_char_cons. destruct (decide (c = "%"%char)) as [|Hc]; [done|].
  intros Hl. pose proof (IH Hl) as Hrest. cbn [Str.find]. rewrite Hrest.
  assert (Str.starts_with "<%" (String c l) = false) as ->; [|done].
  cbn [Str.starts_with]. destruct (decide ("<"%char = c)); [|done].
  destruct l as [|c2 l]; [done|]. rewrite contains_char_cons in Hl.
  destruct (decide (c2 = "%"%char)); [done|]. by rewrite decide_False by congruence.
Qed.

Lemma find_percent_text (l : string) : text_line l → Str.find "%" l = None.
Proof. apply contains_char_find. Qed.

Lemma multiline_start_text (l : string) : text_line l → multiline_start l = None.
Proof. intros Hl. unfold multiline_start. by rewrite find_block_start_text. Qed.

Lemma open_loop_text (l : string) : text_line l → open_loop l = None.
Proof.
  intros Hl%find_percent_text. unfold open_loop.
  rewrite (regex_match_requires "%" for_enum_re l eq_refl Hl).
  rewrite (regex_match_requires "%" for_tuple_re l eq_refl Hl).
  by rewrite (regex_match_requires "%" for_re l eq_refl Hl).
Qed.

Lemma with_engine_same (st : RenderState) : with_engine (rs_engine st) (rs_cerr st) st = st.
Proof. by destruct st. Qed.

Lemma var_loop_None (remaining : nat) (processed : string) (e : Engine)
    (cerr : list string) :
  regex_search var_re processed = None →
  var_loop remaining processed e cerr = (processed, cerr).
Proof. intros H. destruct remaining; simpl; by rewrite H. Qed.

Lemma render_fuel_unfold (G : Globals) (extra_args : list string) (fuel : nat)
    (e : Engine) (tmpl : string) :
  render_fuel G extra_args fuel e tmpl
  = render_with G extra_args (render_block G extra_args fuel) e tmpl.
Proof. by destruct fuel. Qed.

Section TextLines.

Variable G : Globals.
Variable extra_args : list string.
Variable rb : Engine → string → Outcome (string * Engine * list string).

Lemma process_conditional_text (st : RenderState) (l : string) :
  text_line l →
  process_conditional G extra_args st l
  = Done (if skipping (rs_if_stack st) then ("", st) else substitute_line G extra_args st l).
Proof.
  intros Hl%find_percent_text. unfold process_conditional.
  rewrite (regex_match_requires "%" if_re l eq_refl Hl).
  rewrite (regex_match_requires "%" elif_re l eq_refl Hl).
  rewrite (matches_requires "%" else_re l eq_refl Hl).
  rewrite (matches_requires "%" endif_re l eq_refl Hl).
  unfold skipping. destruct (rs_if_stack st) as [|state rest]; [done|].
  by destruct (negb (if_condition_met state) || if_in_else state).
Qed.

(** X13: a line without ['%'], read while no loop is open and no
    statement block is being collected, is a text line: the innermost open
    conditional alone decides whether it is dropped, without any change of
    the state, or substituted and emitted; the conditionals around the
    innermost one are not consulted. *)
Theorem process_line_text (st : RenderState) (l : string) :
  rs_in_multiline_block st = false → rs_loop_stack st = [] → text_line l →
  process_line G extra_args rb st l
  = Done (if skipping (rs_if_stack st) then ("", st) else substitute_line G extra_args st l).
Proof.
  intros Hml Hloop Hl. unfold process_line.
  rewrite Hml, (multiline_start_text _ Hl), Hloop, (open_loop_text _ Hl).
  unfold process_loop_line. rewrite Hloop. by apply process_conditional_text.
Qed.

Lemma substitute_line_plain (st : RenderState) (l : string) :
  plain_line l → substitute_line G extra_args st l = (l +:+ newline, st).
Proof.
  intros (Hp & Hd & Hc). unfold substitute_line.
  rewrite code_block_loop_line_ok by (by apply find_block_start_text).
  rewrite var_loop_None.
  2:{ apply (regex_search_requires "$"); [done|]. by apply contains_char_find. }
  by rewrite Hc, with_engine_same.
Qed.

Lemma process_lines_plain (e : Engine) (lines : list string) :
  Forall plain_line lines →
  process_lines G extra_args rb (initial_state e) lines
  = Done (Str.concat ((λ l, l +:+ newline) <$> lines), initial_state e).
Proof.
  induction 1 as [|l lines Hl _ IH]; [done|]. cbn [process_lines].
  rewrite process_line_text by (done || apply Hl).
  cbn [skipping initial_state rs_if_stack]. rewrite (substitute_line_plain _ _ Hl).
  cbn [mbind outcome_bind]. fold (initial_state e). rewrite IH. done.
Qed.

End TextLines.

(** X14: a template whose lines hold neither ['%'] nor ['$'] and do
    not start with [##] is copied: the result is the banner followed by the
    lines of the template, each with a newline; the engine is left as it
    was and nothing is written to [std::cerr]. *)
Theorem render_plain_text (G : Globals) (extra_args : list string) (e : Engine)
    (tmpl : string) :
  Forall plain_line (getlines tmpl) →
  render G extra_args e tmpl = Done (banner +:+ with_newlines tmpl, e, []).
Proof.
  intros Hplain. unfold render. rewrite render_fuel_unfold. unfold render_with.
  fold (initial_state e). by rewrite process_lines_plain.
Qed.

Lemma render_plain_text_witness :
  render demo_globals [] new_engine
    ("#include <volk/volk.h>" +:+ newline +:+ newline +:+ "int x = a # b;")
  = Done (banner +:+ "#include <volk/volk.h>" +:+ newline +:+ newline +:+ "int x = a # b;"
          +:+ newline, new_engine, []).
Proof.
  apply (render_plain_text demo_globals [] new_engine
           ("#include <volk/volk.h>" +:+ newline +:+ newline +:+ "int x = a # b;")).
  repeat constructor.
Defined.

Lemma process_line_text_witness :
  process_line demo_globals [] (render_block demo_globals [] 0)
    (mkRenderState new_engine [] [] [mkIf true false 1; mkIf false false 1] false "")
    "inner ${kern.name}."
  = Done ("inner ." +:+ newline,
          mkRenderState new_engine [] [] [mkIf true false 1; mkIf false false 1] false "").
Proof.
  rewrite (process_line_text demo_globals [] (render_block demo_globals [] 0)
             (mkRenderState new_engine [] [] [mkIf true false 1; mkIf false false 1] false "")
             "inner ${kern.name}."); reflexivity.
Defined.

(** ** Template comments *)

(** The first character of a control line: white space or ['%']. *)
Lemma control_line_first (rest : Regex) (s : string) :
  Matches (Seq Bol (Seq ws_star (Seq (chr "%") rest))) s →
  ∃ c s', s = String c s' ∧ (is_space c = true ∨ c = "%"%char).
Proof.
  intros H.
  inversion H as [| |? ? s1 s2 H1 H2| | | |]; subst.
  inversion H1; subst. rewrite app_empty_l.
  inversion H2 as [| |? ? s3 s4 H3 H4| | | |]; subst.
  inversion H4 as [| |? ? s5 s6 H5 H6| | | |]; subst.
  inversion H5 as [|? ? c5 Hc5| | | | |]; subst.
  unfold class_matches in Hc5. simpl in Hc5. rewrite orb_false_r in Hc5.
  apply bool_decide_eq_true in Hc5 as ->.
  unfold ws_star in H3. clear H H1 H2 H4 H5.
  remember (Star true ws) as r eqn:Hr. 
  induction H3 as [| | |greedy r0|greedy r0 t1 t2 Ht1 _ Ht2 IH| |]; try discriminate.
  - rewrite app_empty_l. eexists _, _. split; [by rewrite app_cons|]. by right.
  - injection Hr as -> ->. unfold ws in Ht1.
    inversion Ht1 as [|? ? c1 Hc1| | | | |]; subst.
    unfold class_matches in Hc1. simpl in Hc1. rewrite orb_false_r in Hc1.
    eexists _, _. split; [by rewrite !app_cons|]. by left.
Qed.

Lemma control_line_not_comment (rest : Regex) (s : string) :
  Str.starts_with "##" s = true →
  regex_match (Seq Bol (Seq ws_star (Seq (chr "%") rest))) s = None.
Proof.
  intros Hs. destruct (regex_match _ s) as [m|] eqn:Hm; [|done].
  apply regex_match_sound, control_line_first in Hm as (c & s' & -> & Hc).
  simpl in Hs. destruct (decide ("#"%char = c)) as [<-|]; [|done].
  destruct Hc as [Hc|Hc]; done.
Qed.

Lemma control_matches_not_comment (rest : Regex) (s : string) :
  Str.starts_with "##" s = true →
  matches (Seq Bol (Seq ws_star (Seq (chr "%") rest))) s = false.
Proof.
  intros Hs. unfold matches. rewrite (control_line_not_comment _ _ Hs).
  by apply bool_decide_eq_false_2, is_Some_None.
Qed.

(** A text that starts with [##] and holds a part that starts with another
    character starts with [##] before that part. *)
Lemma comment_prefix (p m s : string) (c : ascii) :
  Str.starts_with "##" (p +:+ m +:+ s) = true →
  first_char m = Some c → c ≠ "#"%char →
  ∀ t, Str.starts_with "##" (p +:+ t) = true.
Proof.
  intros H Hm Hc t. destruct m as [|c' m]; [done|]. injection Hm as ->.
  destruct p as [|a [|b p]].
  - rewrite app_empty_l in H. simpl in H. by rewrite decide_False in H by congruence.
  - rewrite !app_cons, app_empty_l in H. simpl in H.
    destruct (decide ("#"%char = a)); [|done]. by rewrite decide_False in H by congruence.
  - rewrite !app_cons in H |- *. simpl in H |- *.
    destruct (decide ("#"%char = a)); [|done]. by destruct (decide ("#"%char = b)).
Qed.

Lemma var_re_opener (s : string) : Matches var_re s → first_char s = Some "$"%char.
Proof.
  unfold var_re. cbn [seq lit]. unfold chr. intros H.
  inversion H as [| |? ? s1 s2 H1 H2| | | |]; subst.
  inversion H1 as [| |? ? s3 s4 H3 H4| | | |]; subst.
  inversion H3 as [|? ? c3 Hc3| | | | |]; subst.
  unfold class_matches in Hc3. simpl in Hc3. rewrite orb_false_r in Hc3.
  by apply bool_decide_eq_true in Hc3 as ->.
Qed.

Lemma code_block_re_first (s : string) :
  Matches code_block_re s → first_char s = Some "<"%char.
Proof.
  intros H%code_block_re_opener. destruct s as [|c s]; [done|]. simpl in H.
  by destruct (decide ("<"%char = c)) as [<-|].
Qed.

Section CommentLines.

Variable G : Globals.
Variable extra_args : list string.
Variable rb : Engine → string → Outcome (string * Engine * list string).

Lemma code_block_loop_comment (remaining : nat) :
  ∀ processed e cerr, Str.starts_with "##" processed = true →
    Str.starts_with "##" (code_block_loop G extra_args remaining processed e cerr).1.1 = true.
Proof.
  induction remaining as [|remaining IH]; intros processed e cerr Hc; cbn [code_block_loop].
  - by destruct (regex_search code_block_re processed).
  - destruct (regex_search code_block_re processed) as [m|] eqn:Hm; [|done].
    apply IH. apply regex_search_sound in Hm as (matched & -> & Hm).
    apply code_block_re_first in Hm. by eapply comment_prefix.
Qed.

Lemma var_loop_comment (remaining : nat) :
  ∀ processed e cerr, Str.starts_with "##" processed = true →
    Str.starts_with "##" (var_loop remaining processed e cerr).1 = true.
Proof.
  induction remaining as [|remaining IH]; intros processed e cerr Hc; cbn [var_loop].
  - by destruct (regex_search var_re processed).
  - destruct (regex_search var_re processed) as [m|] eqn:Hm; [|done].
    apply IH. apply regex_search_sound in Hm as (matched & -> & Hm).
    apply var_re_opener in Hm. by eapply comment_prefix.
Qed.

Lemma substitute_line_comment (st : RenderState) (l : string) :
  Str.starts_with "##" l = true → (substitute_line G extra_args st l).1 = "".
Proof.
  intros Hc. unfold substitute_line.
  pose proof (code_block_loop_comment (Str.len l + 100) l (rs_engine st) (rs_cerr st) Hc) as H1.
  destruct (code_block_loop _ _ _ l _ _) as [[processed e] cerr]. cbn [fst] in H1.
  pose proof (var_loop_comment (Str.len processed + 100) processed e cerr H1) as H2.
  destruct (var_loop _ processed e cerr) as [processed' cerr']. cbn [fst] in H2.
  by rewrite H2.
Qed.

(** X15: a line that starts with [##], read while no loop is
    open and no statement block is being collected or started by it, gives
    no output; where the innermost open conditional does not drop it, its
    statement blocks are executed all the same. *)
Theorem process_line_comment (st : RenderState) (l : string) :
  rs_in_multiline_block st = false → rs_loop_stack st = [] →
  Str.starts_with "##" l = true → multiline_start l = None →
  process_line G extra_args rb st l
  = Done ("", if skipping (rs_if_stack st) then st
              else (substitute_line G extra_args st l).2).
Proof.
  intros Hml Hloop Hc Hstart. unfold process_line. rewrite Hml, Hstart, Hloop.
  unfold open_loop, for_enum_re, for_tuple_re, for_re. cbn [seq].
  rewrite !(control_line_not_comment _ _ Hc).
  unfold process_loop_line. rewrite Hloop. unfold process_conditional.
  unfold if_re, elif_re, else_re, endif_re. cbn [seq].
  rewrite !(control_line_not_comment _ _ Hc), !(control_matches_not_comment _ _ Hc).
  pose proof (substitute_line_comment st l Hc) as Hs.
  destruct (substitute_line G extra_args st l) as [out st']. cbn [fst snd] in *. subst out.
  unfold skipping. destruct (rs_if_stack st) as [|state rest]; [done|].
  by destruct (negb (if_condition_met state) || if_in_else state).
Qed.

End CommentLines.

Lemma process_line_comment_witness :
  process_line demo_globals [] (render_block demo_globals [] 0) (initial_state new_engine)
    "## count <% num_open_parens += 1 %> of ${kern.name}"
  = Done ("", initial_state (set_num_open_parens 1 new_engine)).
Proof.
  rewrite (process_line_comment demo_globals [] (render_block demo_globals [] 0)
             (initial_state new_engine)
             "## count <% num_open_parens += 1 %> of ${kern.name}"); reflexivity.
Defined.

(** ** The exceptions of [render] *)

Lemma evaluate_condition_fuel_throws (fuel : nat) :
  ∀ (e : Engine) (cond : string), throws_stoi_only (evaluate_condition_fuel fuel e cond).
Proof.
  induction fuel as [|fuel IH]; intros e cond what; [done|].
  cbn [evaluate_condition_fuel].
  destruct (Str.find " or " (trim cond)) as [pos|].
  { pose proof (IH e (Str.take pos (trim cond)) what) as H1.
    pose proof (IH e (Str.drop (pos + 4) (trim cond)) what) as H2.
    destruct (evaluate_condition_fuel fuel e (Str.take pos (trim cond))) as [[|]| |];
      simpl; [done|exact H2|exact H1|done]. }
  destruct (Str.find " and " (trim cond)) as [pos|].
  { pose proof (IH e (Str.take pos (trim cond)) what) as H1.
    pose proof (IH e (Str.drop (pos + 5) (trim cond)) what) as H2.
    destruct (evaluate_condition_fuel fuel e (Str.take pos (trim cond))) as [[|]| |];
      simpl; [exact H2|done|exact H1|done]. }
  repeat match goal with
         | |- context [match regex_match ?r ?l with _ => _ end] =>
             destruct (regex_match r l)
         | |- context [stoi ?s] => unfold stoi
         | |- context [if ?b then _ else _] => destruct b
         end; simpl; congruence.
Qed.

Section Throwing.

Variable G : Globals.
Variable extra_args : list string.
Variable rb : Engine → string → Outcome (string * Engine * list string).
Hypothesis Hrb : ∀ e body, throws_stoi_only (rb e body).

Lemma loop_over_throws {A : Type} (select : Z → A → Engine → Engine) (body : string) :
  ∀ items i e, throws_stoi_only (loop_over rb select body i items e).
Proof.
  induction items as [|x items IH]; intros i e what; cbn [loop_over]; [done|].
  pose proof (Hrb (select i x e) body what) as H1.
  destruct (rb (select i x e) body) as [[[o1 e1] c1]| |]; simpl; [|done..].
  pose proof (IH (i + 1) e1 what) as H2.
  by destruct (loop_over rb select body (i + 1) items e1) as [[[o2 e2] c2]| |].
Qed.

Lemma execute_loop_throws (state : LoopState) (e : Engine) :
  throws_stoi_only (execute_loop G rb state e).
Proof.
  intros what. unfold execute_loop.
  repeat match goal with
         | |- context [decide (loop_collection state = ?n)] =>
             destruct (decide (loop_collection state = n))
         | |- context [match current_machine_ e with _ => _ end] =>
             destruct (current_machine_ e)
         | |- context [match current_kernel_ e with _ => _ end] =>
             destruct (current_kernel_ e)
         | |- context [match current_arch_ e with _ => _ end] =>
             destruct (current_arch_ e)
         end;
    try done;
    match goal with
    | |- context [loop_over rb ?sel ?b ?i ?items ?e0] =>
        pose proof (loop_over_throws sel b items i e0 what);
        by destruct (loop_over rb sel b i items e0) as [[[o eng] c]| |]
    end.
Qed.

Lemma process_conditional_throws (st : RenderState) (line : string) :
  throws_stoi_only (process_conditional G extra_args st line).
Proof.
  intros what. unfold process_conditional.
  repeat match goal with
         | |- context [match regex_match ?r ?l with _ => _ end] =>
             destruct (regex_match r l) as [?m|]
         | |- context [match matches ?r ?l with _ => _ end] => destruct (matches r l)
         | |- context [match rs_if_stack st with _ => _ end] => destruct (rs_if_stack st)
         | |- context [evaluate_condition ?e ?c] =>
             pose proof (evaluate_condition_fuel_throws (S (Str.len c)) e c what);
             unfold evaluate_condition;
             destruct (evaluate_condition_fuel (S (Str.len c)) e c)
         | |- context [if ?b then _ else _] => destruct b
         end; simpl;
    first [done | intros [= <-]; match goal with H : _ |- _ => by apply H end].
Qed.

Lemma process_line_throws (st : RenderState) (line : string) :
  throws_stoi_only (process_line G extra_args rb st line).
Proof.
  intros what. unfold process_line.
  destruct (rs_in_multiline_block st); [by destruct (Str.find "%>" line)|].
  destruct (multiline_start line); [done|].
  match goal with
  | |- context [match ?o with Some _ => _ | None => process_loop_line _ _ _ _ _ end] =>
      destruct o
  end; [done|].
  unfold process_loop_line.
  destruct (rs_loop_stack st) as [|state rest]; [by apply process_conditional_throws|].
  match goal with
  | |- context [match ?stack with [] => _ | _ :: _ => _ end] =>
      destruct stack as [|state1 rest1]
  end; [by apply process_conditional_throws|].
  destruct (matches endfor_re line && bool_decide (loop_depth state1 = 0)).
  - pose proof (execute_loop_throws state1 (rs_engine st) what).
    destruct (execute_loop G rb state1 (rs_engine st)) as [[[o e1] c]| |]; simpl;
      first [done | intros [= <-]; match goal with H : _ |- _ => by apply H end].
  - destruct (loop_collecting state1); [done|]. by apply process_conditional_throws.
Qed.

Lemma process_lines_throws (lines : list string) :
  ∀ st, throws_stoi_only (process_lines G extra_args rb st lines).
Proof.
  induction lines as [|line lines IH]; intros st what; cbn [process_lines]; [done|].
  pose proof (process_line_throws st line what).
  destruct (process_line G extra_args rb st line) as [[o1 st1]| |]; simpl; [|done..].
  pose proof (IH st1 what).
  by destruct (process_lines G extra_args rb st1 lines) as [[o2 st2]| |].
Qed.

Lemma render_with_throws (e : Engine) (tmpl : string) :
  throws_stoi_only (render_with G extra_args rb e tmpl).
Proof.
  intros what. unfold render_with.
  pose proof (process_lines_throws (getlines tmpl) (mkRenderState e [] [] [] false "") what).
  destruct (process_lines _ _ _ _ _) as [[o st]| |]; simpl;
    first [done | intros [= <-]; match goal with H : _ |- _ => by apply H end].
Qed.

End Throwing.

Lemma render_fuel_throws (G : Globals) (extra_args : list string) (fuel : nat) :
  ∀ e tmpl, throws_stoi_only (render_fuel G extra_args fuel e tmpl).
Proof.
  induction fuel as [|fuel IH]; intros e tmpl.
  - change (render_fuel G extra_args 0 e tmpl)
      with (render_with G extra_args (render_block_of None) e tmpl).
    apply render_with_throws. intros e0 body what. unfold render_block_of.
    by destruct (max_render_depth_ <=? render_depth_ e0).
  - change (render_fuel G extra_args (S fuel) e tmpl)
      with (render_with G extra_args
              (render_block_of (Some (render_fuel G extra_args fuel))) e tmpl).
    apply render_with_throws. intros e0 body what. unfold render_block_of.
    destruct (max_render_depth_ <=? render_depth_ e0); [done|].
    pose proof (IH (sub_engine e0) body what).
    by destruct (render_fuel G extra_args fuel (sub_engine e0) body) as [[[r sub] c]| |].
Qed.


(** A slice comparison whose length does not fit an [int] ends the
    rendering. *)
Example render_throws_stoi :
  render demo_globals [] new_engine
    ("%if kern.name[:99999999999] == " +:+ dq +:+ "volk" +:+ dq +:+ ":" +:+ newline
     +:+ "x" +:+ newline +:+ "%endif" +:+ newline)
  = Thrown "stoi".
Proof. vm_compute. reflexivity. Qed.

(** ** Conditions *)

Lemma contains_char_trim (c : ascii) (s : string) :
  Str.contains_char c s = false → Str.contains_char c (trim s) = false.
Proof. rewrite !contains_char_find. apply find_None_trim. Qed.

Lemma contains_char_take (c : ascii) (n : nat) (s : string) :
  Str.contains_char c s = false → Str.contains_char c (Str.take n s) = false.
Proof. rewrite !contains_char_find. apply find_None_take. Qed.

Lemma contains_char_drop (c : ascii) (n : nat) (s : string) :
  Str.contains_char c s = false → Str.contains_char c (Str.drop n s) = false.
Proof. rewrite !contains_char_find. apply find_None_drop. Qed.

Lemma evaluate_condition_fuel_bare (e : Engine) (fuel : nat) :
  ∀ cond, (Str.len cond < fuel)%nat →
    Str.contains_char "." cond = false → Str.contains_char "[" cond = false →
    Str.find "in" cond = None →
    evaluate_condition_fuel fuel e cond = Done false.
Proof.
  induction fuel as [|fuel IH]; intros cond Hlen Hdot Hbr Hin; [lia|].
  cbn [evaluate_condition_fuel]. pose proof (len_trim cond) as Htrim.
  apply contains_char_trim in Hdot, Hbr. apply find_None_trim in Hin.
  destruct (Str.find " or " (trim cond)) as [pos|] eqn:Hor.
  { apply find_Some_bound in Hor. simpl in Hor.
    rewrite (IH (Str.take pos (trim cond))); [|rewrite len_take; lia|by apply contains_char_take..|by apply find_None_take].
    simpl. apply IH; [rewrite len_drop; lia|by apply contains_char_drop..|].
    by apply find_None_drop. }
  destruct (Str.find " and " (trim cond)) as [pos|] eqn:Hand.
  { apply find_Some_bound in Hand. simpl in Hand.
    rewrite (IH (Str.take pos (trim cond))); [done|rewrite len_take; lia|by apply contains_char_take..|].
    by apply find_None_take. }
  rewrite (regex_match_requires "[" slice_eq_re); [|done|by apply contains_char_find].
  rewrite (regex_match_requires "in" star_re) by done.
  rewrite (regex_match_requires "in" str_in_re) by done.
  rewrite (regex_match_requires "in" in_re) by done.
  by rewrite Hdot.
Qed.

(** X17: a condition without ['.'], without ['['] and without
    the letters [in] next to each other is false, whatever the engine has
    selected: an equality test on a loop variable, a number, a bare name
    and their combinations with [or] and [and] are such conditions. *)
Theorem evaluate_condition_bare (e : Engine) (cond : string) :
  Str.contains_char "." cond = false → Str.contains_char "[" cond = false →
  Str.find "in" cond = None →
  evaluate_condition e cond = Done false.
Proof. intros. apply evaluate_condition_fuel_bare; [lia|done..]. Qed.

Lemma evaluate_condition_bare_witness :
  evaluate_condition (set_current_enum_index 0 new_engine) "i == 0 or True and not 1"
  = Done false.
Proof.
  apply (evaluate_condition_bare (set_current_enum_index 0 new_engine)
           "i == 0 or True and not 1"); reflexivity.
Defined.

(** ** The sections of a kernel header *)

Lemma trim_right_app_ws (t r : string) :
  all_trim_chars r = true → trim_right (t +:+ r) = trim_right t.
Proof.
  intros Hr. induction t as [|c t IH].
  - rewrite app_empty_l. induction r as [|a r IHr]; [done|]. simpl in Hr |- *.
    apply andb_true_iff in Hr as [Ha Hr]. by rewrite (IHr Hr), Ha.
  - rewrite app_cons. simpl. by rewrite IH.
Qed.

Lemma trim_left_blank (s r : string) :
  all_trim_chars s = true → trim_left (s +:+ r) = trim_left r.
Proof.
  induction s as [|c s IH]; [done|]. rewrite app_cons. cbn [trim_left all_trim_chars].
  intros [Hc Hs]%andb_true_iff. rewrite Hc. by apply IH.
Qed.

Lemma trim_left_app (s r : string) :
  all_trim_chars s = false → trim_left (s +:+ r) = trim_left s +:+ r.
Proof.
  induction s as [|c s IH]; [done|]. rewrite app_cons. cbn [trim_left all_trim_chars].
  destruct (is_trim_char c); [|by rewrite app_cons]. simpl. apply IH.
Qed.

Lemma trim_blank (s : string) : all_trim_chars s = true → trim s = "".
Proof.
  intros Hs. unfold trim. rewrite <- (app_empty_r s), (trim_left_blank s "" Hs). done.
Qed.

Lemma trim_app_ws (s r : string) : all_trim_chars r = true → trim (s +:+ r) = trim s.
Proof.
  intros Hr. unfold trim. destruct (all_trim_chars s) eqn:Hs.
  - rewrite (trim_left_blank _ _ Hs).
    pose proof (trim_left_blank s "" Hs) as Hb. rewrite app_empty_r in Hb. rewrite Hb.
    fold (trim r). by rewrite (trim_blank r Hr).
  - rewrite (trim_left_app _ _ Hs). by apply trim_right_app_ws.
Qed.

Lemma concat_lines_join (lines : list string) :
  lines ≠ [] →
  Str.concat ((λ l, l +:+ newline) <$> lines) = join lines newline +:+ newline.
Proof.
  induction lines as [|l lines IH]; [done|]. intros _. destruct lines as [|l2 lines].
  - simpl. by rewrite app_empty_r.
  - rewrite join_cons by done. cbn [fmap list_fmap Str.concat] in *.
    rewrite IH by done. by rewrite !app_assoc_str.
Qed.

(** A line without ['#'] is no directive. *)
Lemma line_type_no_hash (line : string) :
  Str.contains_char "#" line = false → line_type line = "normal".
Proof.
  intros H%contains_char_find. unfold line_type.
  by rewrite (regex_match_requires "#" ifdef_re line eq_refl H).
Qed.

(** The loop over lines that are no directives collects them. *)
Lemma split_lines_normal (lines : list string) :
  Forall (λ l, line_type l = "normal") lines →
  ∀ sections current header depth,
    depth ≠ 1 →
    fold_left split_line lines (mkSplit sections current header depth)
    = mkSplit sections (current +:+ Str.concat ((λ l, l +:+ newline) <$> lines))
        header depth.
Proof.
  induction 1 as [|l lines Hl _ IH]; intros sections current header depth Hd.
  - simpl. by rewrite app_empty_r.
  - cbn [fold_left]. unfold split_line at 2. rewrite Hl.
    cbn [ss_depth ss_sections ss_current_section ss_header].
    rewrite !decide_False by done.
    rewrite (bool_decide_eq_false_2 (depth = 1)) by done. cbn [andb].
    rewrite (bool_decide_eq_false_2 ("normal" = "end")) by done. rewrite andb_false_r.
    rewrite IH by done. cbn [fmap list_fmap Str.concat]. by rewrite !app_assoc_str.
Qed.

Lemma split_level_normal (code : string) :
  Forall (λ l, line_type l = "normal") (split code "010") →
  split_level code
  = if decide (trim (code +:+ newline) = "") then []
    else [mkSection "text" (code +:+ newline) [] true].
Proof.
  intros Hlines. unfold split_level. rewrite (split_lines_normal _ Hlines) by done.
  rewrite app_empty_l, concat_lines_join by apply split_nonempty.
  change newline with (String "010" "") at 1. rewrite join_split.
  unfold push_section. cbn [ss_current_section ss_sections ss_header].
  by destruct (decide _).
Qed.

Lemma split_ifdef_sections_at_S (levels : nat) (code : string) :
  split_ifdef_sections_at (S levels) code
  = fold_left
      (λ acc sec,
         if negb (sec_is_text sec) && negb (bool_decide (sec_body sec = ""))
         then let r := split_ifdef_sections_at levels (sec_body sec) in
              (acc.1 ++ [with_subsections r.1 sec], acc.2 ++ r.2)
         else (acc.1 ++ [sec], acc.2))
      (split_level code) ([], []).
Proof. reflexivity. Qed.

Lemma split_ifdef_sections_normal (code : string) :
  Forall (λ l, line_type l = "normal") (split code "010") →
  split_ifdef_sections code
  = (if decide (trim code = "") then [] else [mkSection "text" (code +:+ newline) [] true],
     []).
Proof.
  intros Hlines. unfold split_ifdef_sections. rewrite (split_ifdef_sections_at_S 50).
  rewrite (split_level_normal _ Hlines), (trim_app_ws code newline eq_refl).
  by destruct (decide _).
Qed.

Lemma split_pieces_without (c d : ascii) (s : string) :
  Str.contains_char c s = false →
  Forall (λ piece, Str.contains_char c piece = false) (split s d).
Proof.
  induction s as [|a s IH]; [by repeat constructor|].
  rewrite contains_char_cons. destruct (decide (a = c)) as [|Hne]; [done|].
  intros Hs. specialize (IH Hs). simpl. destruct (decide (a = d)).
  - by constructor.
  - destruct (split s d) as [|piece rest].
    + constructor; [|constructor]. rewrite contains_char_cons. by rewrite decide_False.
    + inversion IH; subst. constructor; [|done].
      rewrite contains_char_cons. by rewrite decide_False.
Qed.

Lemma split_lines_no_hash (code : string) :
  Str.contains_char "#" code = false →
  Forall (λ l, line_type l = "normal") (split code "010").
Proof.
  intros Hc. eapply Forall_impl; [by apply split_pieces_without|].
  intros l. apply line_type_no_hash.
Qed.

(** X18: code without ['#'] is one section of text: unless it
    is blank, [split_ifdef_sections] returns the single text section whose
    body is the code followed by a newline, and [flatten_sections] gives
    this body back; blank code has no section; nothing is written to
    [std::cerr]. *)
Theorem split_ifdef_sections_text (code : string) :
  Str.contains_char "#" code = false →
  (trim code ≠ "" →
   split_ifdef_sections code = ([mkSection "text" (code +:+ newline) [] true], [])
   ∧ flatten_sections (split_ifdef_sections code).1 = (code +:+ newline, []))
  ∧ (trim code = "" →
     split_ifdef_sections code = ([], [])
     ∧ flatten_sections (split_ifdef_sections code).1 = ("", [])).
Proof.
  intros Hc. rewrite (split_ifdef_sections_normal _ (split_lines_no_hash _ Hc)).
  split; intros Ht.
  - rewrite decide_False by done. split; [done|]. reflexivity.
  - rewrite decide_True by done. split; reflexivity.
Qed.

Lemma split_ifdef_sections_text_witness :
  split_ifdef_sections ("int x;" +:+ newline +:+ "int y;")
  = ([mkSection "text" ("int x;" +:+ newline +:+ "int y;" +:+ newline) [] true], [])
  ∧ split_ifdef_sections (" " +:+ newline) = ([], []).
Proof.
  split.
  - apply (split_ifdef_sections_text ("int x;" +:+ newline +:+ "int y;")); [reflexivity|].
    vm_compute. discriminate.
  - apply (split_ifdef_sections_text (" " +:+ newline)); reflexivity.
Defined.

(** *** The sections are well formed *)

Lemma line_type_text : line_type "text" = "normal".
Proof. reflexivity. Qed.

Lemma section_ok_unfold (sec : IfdefSection) :
  section_ok sec
  ↔ trim (sec_body sec) ≠ ""
    ∧ (if sec_is_text sec then sec_header sec = "text" ∧ sec_subsections sec = []
       else line_type (sec_header sec) = "if" ∨ line_type (sec_header sec) = "else")
    ∧ Forall section_ok (sec_subsections sec).
Proof.
  destruct sec as [header body subs is_text]. cbn [section_ok sec_body sec_header
    sec_subsections sec_is_text].
  assert (Hall : (fix all_ok (l : list IfdefSection) : Prop :=
                    match l with
                    | [] => True
                    | s :: l' => section_ok s ∧ all_ok l'
                    end) subs ↔ Forall section_ok subs).
  { induction subs as [|s subs IH]; [by split; [constructor|]|].
    rewrite Forall_cons. by rewrite IH. }
  split; intros (H1 & H2 & H3); (split; [done|split; [done|by apply Hall]]).
Qed.

Lemma flat_ok_section_ok (sec : IfdefSection) : flat_ok sec → section_ok sec.
Proof.
  intros (Hb & Hs & Hh). apply (proj2 (section_ok_unfold _)). split; [done|]. rewrite Hs.
  split; [|constructor]. by destruct (sec_is_text sec).
Qed.

Lemma push_section_ok (st : SplitState) :
  Forall flat_ok (ss_sections st) → header_ok (ss_header st) →
  Forall flat_ok (push_section st).
Proof.
  intros Hs Hh. unfold push_section. destruct (decide _) as [|Hne]; [done|].
  apply Forall_app. split; [done|]. constructor; [|constructor].
  unfold flat_ok. cbn [sec_body sec_subsections sec_is_text sec_header].
  split; [done|]. split; [done|]. case_bool_decide as Ht; [done|].
  by destruct Hh as [?|?].
Qed.

Lemma split_line_ok (st : SplitState) (line : string) :
  Forall flat_ok (ss_sections st) → header_ok (ss_header st) →
  Forall flat_ok (ss_sections (split_line st line))
  ∧ header_ok (ss_header (split_line st line)).
Proof.
  intros Hs Hh. unfold split_line.
  repeat match goal with
         | |- context [bool_decide ?P] => destruct (bool_decide_reflect P)
         end; cbn [andb ss_sections ss_header]; try done.
  all: split; [by apply push_section_ok|]; unfold header_ok; tauto.
Qed.

Lemma split_lines_ok (lines : list string) :
  ∀ st, Forall flat_ok (ss_sections st) → header_ok (ss_header st) →
    Forall flat_ok (ss_sections (fold_left split_line lines st))
    ∧ header_ok (ss_header (fold_left split_line lines st)).
Proof.
  induction lines as [|l lines IH]; intros st Hs Hh; [done|]. cbn [fold_left].
  destruct (split_line_ok st l Hs Hh). by apply IH.
Qed.

Lemma split_level_ok (code : string) : Forall flat_ok (split_level code).
Proof.
  unfold split_level.
  destruct (split_lines_ok (split code "010") (mkSplit [] "" "text" 0)) as [Hs Hh].
  - constructor.
  - by left.
  - by apply push_section_ok.
Qed.

Lemma split_ifdef_sections_at_ok (levels : nat) :
  ∀ code, sections_ok (split_ifdef_sections_at levels code).1.
Proof.
  induction levels as [|levels IH]; intros code; [constructor|].
  rewrite split_ifdef_sections_at_S.
  assert (Hgen : ∀ (flat : list IfdefSection) acc,
            Forall flat_ok flat → sections_ok acc.1 →
            sections_ok
              (fold_left
                 (λ acc sec,
                    if negb (sec_is_text sec) && negb (bool_decide (sec_body sec = ""))
                    then let r := split_ifdef_sections_at levels (sec_body sec) in
                         (acc.1 ++ [with_subsections r.1 sec], acc.2 ++ r.2)
                    else (acc.1 ++ [sec], acc.2))
                 flat acc).1).
  { induction flat as [|sec flat IHflat]; intros acc Hflat Hacc; [done|].
    inversion Hflat as [|? ? Hsec Hrest]; subst. cbn [fold_left]. apply IHflat; [done|].
    destruct (negb (sec_is_text sec) && negb (bool_decide (sec_body sec = ""))) eqn:Hc;
      cbn [fst]; apply Forall_app; (split; [done|]); apply Forall_singleton.
    - apply andb_true_iff in Hc as [Ht _]. apply negb_true_iff in Ht.
      destruct Hsec as (Hb & _ & Hh). apply (proj2 (section_ok_unfold _)).
      unfold with_subsections. cbn [sec_body sec_header sec_subsections sec_is_text].
      rewrite Ht in Hh |- *. split; [done|]. split; [done|]. apply IH.
    - by apply flat_ok_section_ok. }
  apply Hgen; [apply split_level_ok|constructor].
Qed.

(** X19: the sections [split_ifdef_sections] returns are well
    formed at every level, whatever the code is: no section has a blank
    body; a text section has the header ["text"] and no subsections; every
    other section is headed by the [#if], [#ifdef], [#ifndef], [#else] or
    [#elif] line that opened it. *)
Theorem split_ifdef_sections_ok (code : string) :
  sections_ok (split_ifdef_sections code).1.
Proof. apply split_ifdef_sections_at_ok. Qed.

(** *** Lines that end with a carriage return *)

Lemma ends_with_not_all (c : ascii) (s : string) :
  ends_with_char c s = true → ¬ all_chars (λ a, a ≠ c) s.
Proof.
  induction s as [|a s IH]; [done|]. destruct s as [|b s].
  - simpl. intros Ha%bool_decide_eq_true [Hne _]. done.
  - rewrite ends_with_char_cons2. intros H [_ Hall]. by apply IH.
Qed.

Lemma plus_word_nonempty (s : string) : Matches (plus word) s → s ≠ "".
Proof.
  unfold plus, word. intros H.
  inversion H as [| |? ? s1 s2 H1 H2| | | |]; subst.
  inversion H1; subst. done.
Qed.

Lemma app_nonempty_r (a b : string) : b ≠ "" → a +:+ b ≠ "".
Proof. destruct a; [by rewrite app_empty_l | by rewrite app_cons]. Qed.

Lemma directive_classes :
  classes_within (λ c, c ≠ "013"%char)
    (Seq (Group 1 (plus word)) (Group 2 (Star true any))).
Proof.
  unfold plus, word, any. cbn [classes_within].
  repeat split; intros c Hc ->; by vm_compute in Hc.
Qed.

(** A line that ends with a carriage return is no directive: the rest of
    a directive line is matched by [.], which matches no line terminator. *)
Lemma line_type_cr (line : string) :
  ends_with_char "013" line = true → line_type line = "normal".
Proof.
  intros Hcr. unfold line_type.
  destruct (regex_match ifdef_re line) as [m|] eqn:Hm; [|done]. exfalso.
  apply regex_match_sound in Hm. unfold ifdef_re in Hm. cbn [seq] in Hm.
  inversion Hm as [| |? ? s1 s2 H1 H2| | | |]; subst.
  inversion H2 as [| |? ? s3 s4 H3 H4| | | |]; subst.
  inversion H4 as [| |? ? s5 s6 H5 H6| | | |]; subst.
  inversion H6 as [| |? ? s7 s8 H7 H8| | | |]; subst.
  assert (Hne : s8 ≠ "").
  { inversion H8 as [| |? ? s9 s10 H9 H10| | | |]; subst.
    inversion H9 as [| | | | |? ? ? H11|]; subst.
    apply plus_word_nonempty in H11. by destruct s9. }
  rewrite !ends_with_char_app in Hcr by (repeat apply app_nonempty_r; exact Hne).
  apply ends_with_not_all in Hcr. apply Hcr.
  by apply (Matches_all_chars _ _ _ directive_classes).
Qed.

Lemma line_type_empty : line_type "" = "normal".
Proof. reflexivity. Qed.

(** X20: a header whose lines, once the comments are removed, are empty
    or end with a carriage return, as those of a file with CR LF line ends
    and without comments do, holds no directive the parser recognises: it
    has no candidate implementation, and [parse_kernels] leaves the kernel
    out without any diagnostic. *)
Theorem crlf_header_has_no_impls (kern_name code : string) :
  Forall (λ l, l = "" ∨ ends_with_char "013" l = true)
    (split (remove_comments code) "010") →
  candidate_impls kern_name code = ([], [])
  ∧ assemble_kernel (kernel_header kern_name code) = ([], None).
Proof.
  intros Hlines.
  assert (Hc : candidate_impls kern_name code = ([], [])).
  { unfold candidate_impls. rewrite split_ifdef_sections_normal.
    - by destruct (decide (trim (remove_comments code) = "")).
    - eapply Forall_impl; [exact Hlines|]. intros l [->|Hl]; [done|by apply line_type_cr]. }
  split; [done|]. unfold kernel_header. by rewrite Hc.
Qed.

Lemma crlf_header_has_no_impls_witness :
  assemble_kernel
    (kernel_header "volk_32f_demo"
       (Str.concat ((λ l, l +:+ String "013" newline) <$>
          ["#ifndef INCLUDED_volk_32f_demo_a_H"; "#ifdef LV_HAVE_GENERIC";
           "static inline void volk_32f_demo_generic(float* out) { }";
           "#endif"; "#endif"])))
  = ([], None).
Proof.
  apply (crlf_header_has_no_impls "volk_32f_demo"
           (Str.concat ((λ l, l +:+ String "013" newline) <$>
              ["#ifndef INCLUDED_volk_32f_demo_a_H"; "#ifdef LV_HAVE_GENERIC";
               "static inline void volk_32f_demo_generic(float* out) { }";
               "#endif"; "#endif"]))).
  vm_compute. repeat constructor; by right || by left.
Defined.

(** The same header with plain newlines has its implementation. *)
Example lf_header_has_impl :
  (assemble_kernel
     (kernel_header "volk_32f_demo"
        (Str.concat ((λ l, l +:+ newline) <$>
           ["#ifndef INCLUDED_volk_32f_demo_a_H"; "#ifdef LV_HAVE_GENERIC";
            "static inline void volk_32f_demo_generic(float* out) { }";
            "#endif"; "#endif"])))).2
  = Some (mkKernel "volk_32f_demo" "p_32f_demo"
            [mkImpl "generic" {[ "generic" ]} [("float*", "out")] false]
            [("float*", "out")] "float*" "float* out" "out" false).
Proof. vm_compute. reflexivity. Qed.

(** ** The arguments of an implementation ([parse_impl]) *)

Lemma get_app_len (a : string) (c : ascii) (b : string) :
  String.get (Str.len a) (a +:+ String c b) = Some c.
Proof. induction a as [|x a IH]; [done|]. rewrite app_cons. simpl. exact IH. Qed.

Lemma scan_back_step (P : ascii → bool) (a : string) (c : ascii) (b : string) :
  scan_back P (a +:+ String c b) (S (Str.len a))
  = if P c then scan_back P (a +:+ String c b) (Str.len a) else S (Str.len a).
Proof. cbn [scan_back]. by rewrite get_app_len. Qed.

(** The loop walks over a run of characters that satisfy [P]. *)
Lemma scan_back_run (P : ascii → bool) (b : string) :
  ∀ a rest, all_chars (λ c, P c = true) b →
    scan_back P (a +:+ b +:+ rest) (Str.len a + Str.len b)
    = scan_back P (a +:+ b +:+ rest) (Str.len a).
Proof.
  induction b as [|c b IH]; intros a rest Hb.
  - simpl. by rewrite Nat.add_0_r.
  - destruct Hb as [Hc Hb].
    replace (Str.len a + Str.len (String c b))%nat
      with (Str.len (a +:+ String c "") + Str.len b)%nat
      by (rewrite len_app; simpl; lia).
    replace (a +:+ String c b +:+ rest) with ((a +:+ String c "") +:+ b +:+ rest)
      by (by rewrite app_assoc_str).
    rewrite (IH _ _ Hb). rewrite len_app. simpl Str.len. rewrite Nat.add_1_r.
    rewrite app_assoc_str. change (String c "" +:+ b +:+ rest) with (String c (b +:+ rest)).
    by rewrite scan_back_step, Hc.
Qed.

Lemma last_char_snoc (a : string) :
  a ≠ "" → ∃ a0 d, a = a0 +:+ String d "" ∧ last_char a = Some d.
Proof.
  induction a as [|c a IH]; [done|]. intros _. destruct a as [|c2 a].
  - by exists "", c.
  - destruct IH as (a0 & d & Ha & Hd); [done|]. exists (String c a0), d.
    rewrite app_cons, <- Ha. done.
Qed.

(** The loop stops in front of a character that does not satisfy [P]. *)
Lemma scan_back_stop (P : ascii → bool) (a rest : string) :
  (∀ d, last_char a = Some d → P d = false) →
  scan_back P (a +:+ rest) (Str.len a) = Str.len a.
Proof.
  intros Hlast. destruct a as [|c a]; [done|].
  destruct (last_char_snoc (String c a)) as (a0 & d & Ha & Hd); [done|].
  rewrite Ha, len_app, app_assoc_str. simpl Str.len. rewrite Nat.add_1_r.
  change (String d "" +:+ rest) with (String d rest).
  by rewrite scan_back_step, (Hlast d Hd).
Qed.

Lemma last_char_app (s t : string) : t ≠ "" → last_char (s +:+ t) = last_char t.
Proof.
  intros Ht. induction s as [|c s IH]; [done|]. rewrite app_cons. simpl.
  destruct (s +:+ t) eqn:Hst; [|done].
  destruct s; [by rewrite app_empty_l in Hst|by rewrite app_cons in Hst].
Qed.

Lemma ident_not_space (c : ascii) : is_ident_char c = true → is_space c = false.
Proof. destruct c as [[] [] [] [] [] [] [] []]; by vm_compute. Qed.

Lemma space_trim_char (c : ascii) : is_trim_char c = true → is_space c = true.
Proof. destruct c as [[] [] [] [] [] [] [] []]; by vm_compute. Qed.

Lemma all_ident_chars (s : string) :
  all_ident s = true → all_chars (λ c, is_ident_char c = true) s.
Proof.
  induction s as [|c s IH]; [done|]. simpl. intros [Hc Hs]%andb_true_iff. by split; [|apply IH].
Qed.

Lemma all_ident_last (s : string) (d : ascii) :
  all_ident s = true → last_char s = Some d → is_ident_char d = true.
Proof.
  induction s as [|c s IH]; [done|]. simpl. intros [Hc Hs]%andb_true_iff.
  destruct s; [by intros [= <-]|]. by apply IH.
Qed.

Lemma trim_of_padded (l t r : string) :
  all_trim_chars l = true → all_trim_chars r = true →
  (∀ c, first_char t = Some c → is_trim_char c = false) →
  (∀ c, last_char t = Some c → is_trim_char c = false) →
  trim (l +:+ t +:+ r) = t.
Proof.
  intros Hl Hr Hfirst Hlast. unfold trim.
  rewrite (trim_left_blank _ _ Hl).
  destruct t as [|c t].
  - rewrite app_empty_l. fold (trim r). by apply trim_blank.
  - rewrite trim_left_fixed.
    + rewrite (trim_right_app_ws _ _ Hr). by apply trim_right_fixed.
    + rewrite app_cons. simpl. intros c' [= <-]. by apply Hfirst.
Qed.

Lemma parse_arg_trimmed (arg : string) :
  trim arg ≠ "" →
  parse_arg arg
  = let trimmed := trim arg in
    let name_end := scan_back is_space trimmed (Str.len trimmed) in
    let end_pos := scan_back is_ident_char trimmed name_end in
    if decide (end_pos < name_end)%nat then
      if decide (trim (Str.take end_pos trimmed) = "") then None
      else Some (trim (Str.take end_pos trimmed),
                 Str.substr end_pos (name_end - end_pos) trimmed)
    else None.
Proof. intros H. unfold parse_arg. by rewrite decide_False. Qed.

(** X21: [parse_impl] splits a piece of the argument list at its
    last identifier: a piece that is, between blanks, a type that ends with a
    character that is no letter, digit or ['_'], followed by an identifier,
    gives the trimmed type and the identifier as name; a piece that is a
    single identifier, as [void] is, has no type and gives no argument. *)
Theorem parse_arg_splits (l ty name r : string) (c1 c2 : ascii) :
  all_trim_chars l = true → all_trim_chars r = true →
  name ≠ "" → all_ident name = true →
  first_char ty = Some c1 → is_trim_char c1 = false →
  last_char ty = Some c2 → is_ident_char c2 = false →
  parse_arg (l +:+ ty +:+ name +:+ r) = Some (trim ty, name)
  ∧ parse_arg (l +:+ name +:+ r) = None.
Proof.
  intros Hl Hr Hne Hname Hc1 Ht1 Hc2 Hi2.
  assert (Hnlast : ∀ d, last_char name = Some d → is_ident_char d = true).
  { intros d. by apply all_ident_last. }
  assert (Hnfirst : ∀ d, first_char name = Some d → is_ident_char d = true).
  { intros d Hd. destruct name as [|x name]; [done|]. injection Hd as ->.
    simpl in Hname. by apply andb_true_iff in Hname as [? _]. }
  assert (Hnt : ∀ d, is_ident_char d = true → is_trim_char d = false).
  { intros d Hd. destruct (is_trim_char d) eqn:Htd; [|done].
    apply space_trim_char in Htd. by rewrite (ident_not_space d Hd) in Htd. }
  assert (Hty : ty ≠ "") by (by destruct ty).
  split.
  - assert (Htrim : trim (l +:+ ty +:+ name +:+ r) = ty +:+ name).
    { rewrite <- (app_assoc_str ty). apply trim_of_padded; [done..| |].
      - destruct ty as [|x ty]; [done|]. rewrite app_cons. simpl. intros c [= <-].
        by injection Hc1 as ->.
      - intros c. rewrite last_char_app by done. intros Hc. by apply Hnt, Hnlast. }
    rewrite parse_arg_trimmed; rewrite Htrim; [|by destruct ty].
    cbv zeta.
    assert (Hend : scan_back is_space (ty +:+ name) (Str.len (ty +:+ name))
                   = Str.len (ty +:+ name)).
    { rewrite <- (app_empty_r (ty +:+ name)) at 1. apply scan_back_stop.
      intros d. rewrite last_char_app by done. intros Hd.
      by apply ident_not_space, Hnlast. }
    rewrite Hend.
    assert (Hpos : scan_back is_ident_char (ty +:+ name) (Str.len (ty +:+ name))
                   = Str.len ty).
    { pose proof (scan_back_run is_ident_char name ty "" (all_ident_chars _ Hname)) as H.
      rewrite app_empty_r in H. rewrite len_app, H.
      apply scan_back_stop. intros d Hd. rewrite Hc2 in Hd. by injection Hd as <-. }
    rewrite Hpos, len_app.
    rewrite decide_True by (destruct name; [done|simpl; lia]).
    rewrite take_app_len.
    assert (trim ty ≠ "") as Htt.
    { unfold trim. rewrite trim_left_fixed by (intros c; rewrite Hc1; by intros [= <-]).
      destruct ty as [|x ty]; [done|]. simpl in Hc1. injection Hc1 as ->. simpl.
      destruct (trim_right ty); [|done]. by rewrite Ht1. }
    rewrite decide_False by done. unfold Str.substr.
    rewrite drop_app_len. replace (Str.len ty + Str.len name - Str.len ty)%nat
      with (Str.len name) by lia.
    rewrite <- (app_empty_r name) at 2. by rewrite take_app_len.
  - assert (Htrim : trim (l +:+ name +:+ r) = name).
    { apply trim_of_padded; [done..| |]; intros c Hc; apply Hnt; auto. }
    rewrite parse_arg_trimmed; rewrite Htrim; [|done]. cbv zeta.
    assert (Hend : scan_back is_space name (Str.len name) = Str.len name).
    { rewrite <- (app_empty_r name) at 1. apply scan_back_stop.
      intros d Hd. by apply ident_not_space, Hnlast. }
    rewrite Hend.
    assert (Hpos : scan_back is_ident_char name (Str.len name) = O).
    { pose proof (scan_back_run is_ident_char name "" "" (all_ident_chars _ Hname)) as H.
      rewrite app_empty_l, app_empty_r in H. simpl in H. rewrite H.
      by destruct name. }
    rewrite Hpos. rewrite decide_True by (destruct name; [done|simpl; lia]).
    by rewrite decide_True by (by destruct name).
Qed.

Lemma parse_arg_splits_witness :
  parse_arg (" " +:+ "const float* " +:+ "in_vector" +:+ (" " +:+ newline))
  = Some ("const float*", "in_vector")
  ∧ parse_arg (" " +:+ "void" +:+ " ") = None.
Proof.
  split.
  - apply (parse_arg_splits " " "const float* " "in_vector" (" " +:+ newline) "c" " ");
      (reflexivity || done).
  - apply (parse_arg_splits " " "unsigned int " "void" " " "u" " "); (reflexivity || done).
Defined.

(** ** The XML reader *)

Lemma xml_wf_unfold (e : XmlElement) :
  xml_wf e ↔ Forall (λ c, xml_tag c ∈ child_tags ∧ xml_wf c) (xml_children e).
Proof.
  destruct e as [tag attrs text children]. cbn [xml_wf xml_children].
  induction children as [|c children IH]; [by split; [constructor|]|].
  rewrite Forall_cons. by rewrite <- IH.
Qed.

Lemma find_char_Some_bound (c : ascii) (s : string) (j : nat) :
  Str.find_char c s = Some j → (j < Str.len s)%nat.
Proof.
  revert j. induction s as [|a s IH]; intros j; [done|]. simpl.
  destruct (decide (a = c)); [intros [= <-]; lia|].
  destruct (Str.find_char c s) as [k|]; [|done]. simpl. intros [= <-].
  specialize (IH k eq_refl). lia.
Qed.

Section XmlLoopFacts.

Variable parse_inner : string → string → Outcome (list XmlElement * list string).
Variable tag_name : string.
Variable n : nat.
Hypothesis Hinner : ∀ inner t, (Str.len inner < n)%nat →
  ∃ c, parse_inner inner t = Done (c, []) ∧ Forall (λ e, xml_tag e = t ∧ xml_wf e) c.

Lemma parse_children_ok (inner : string) (tags : list string) :
  (Str.len inner < n)%nat → tags ⊆ child_tags →
  ∃ c, parse_children parse_inner inner tags = Done (c, [])
       ∧ Forall (λ e, xml_tag e ∈ child_tags ∧ xml_wf e) c.
Proof.
  intros Hlen. induction tags as [|t tags IH]; intros Hsub; cbn [parse_children].
  - by exists [].
  - destruct (Hinner inner t Hlen) as (c1 & -> & Hc1).
    destruct IH as (c2 & -> & Hc2); [set_solver|]. exists (c1 ++ c2). split; [done|].
    apply Forall_app. split; [|done]. eapply Forall_impl; [exact Hc1|].
    intros e [<- He]. split; [|done]. apply Hsub. set_solver.
Qed.

Lemma xml_loop_ok (remaining : nat) :
  ∀ xml, (Str.len xml ≤ n)%nat → (Str.len xml < remaining)%nat →
    ∃ elems, xml_loop parse_inner tag_name remaining xml = Done (elems, [])
             ∧ Forall (λ e, xml_tag e = tag_name ∧ xml_wf e) elems.
Proof.
  induction remaining as [|remaining IH]; intros xml Hn Hr; [lia|].
  cbn [xml_loop].
  destruct (Str.find ("<" +:+ tag_name) xml) as [i|] eqn:Hi; [|by exists []].
  destruct (Str.find_char ">" (Str.drop i xml)) as [tag_end|] eqn:He; [|by exists []].
  apply find_char_Some_bound in He. rewrite len_drop in He.
  case_bool_decide as Hslash.
  - destruct (IH (Str.drop (tag_end + 1) (Str.drop i xml))) as (rest & -> & Hrest).
    { rewrite !len_drop. lia. } { rewrite !len_drop. lia. }
    eexists. split; [done|]. constructor; [|done]. split; [done|].
    by apply (proj2 (xml_wf_unfold _)).
  - destruct (Str.find _ (Str.drop tag_end (Str.drop i xml))) as [k|] eqn:Hk.
    2:{ apply IH; rewrite !len_drop; lia. }
    destruct (parse_children_ok
                (Str.take (k - 1) (Str.drop (tag_end + 1) (Str.drop i xml))) child_tags)
      as (children & -> & Hchildren); [|done|].
    { rewrite len_take, !len_drop. lia. }
    assert (Hclose : (1 ≤ Str.len ("</" +:+ tag_name +:+ ">"))%nat).
    { rewrite len_app. change (Str.len "</") with 2%nat. lia. }
    destruct (IH (Str.drop (tag_end + k + Str.len ("</" +:+ tag_name +:+ ">"))
                    (Str.drop i xml))) as (rest & -> & Hrest).
    { rewrite !len_drop. lia. } { rewrite !len_drop. lia. }
    eexists. split; [done|]. constructor; [|done]. split; [done|].
    by apply (proj2 (xml_wf_unfold _)).
Qed.

End XmlLoopFacts.

Lemma parse_xml_elements_fuel_ok (fuel : nat) :
  ∀ xml tag_name, (Str.len xml < fuel)%nat →
    ∃ elems, parse_xml_elements_fuel fuel xml tag_name = Done (elems, [])
             ∧ Forall (λ e, xml_tag e = tag_name ∧ xml_wf e) elems.
Proof.
  induction fuel as [|fuel IH]; intros xml tag_name Hlen; [lia|].
  cbn [parse_xml_elements_fuel].
  apply (xml_loop_ok _ _ (Str.len xml)); [|done|lia].
  intros inner t Hinner. apply IH. lia.
Qed.

(** X22: [parse_xml_elements] returns for every text and tag
    name, and its bound on the number of iterations is never reached:
    nothing is written to [std::cerr]; every element it returns has the tag
    asked for, and the children of an element, at every level, have one of
    the seven child tags. *)
Theorem parse_xml_elements_returns (xml tag_name : string) :
  ∃ elems,
    parse_xml_elements xml tag_name = Done (elems, [])
    ∧ Forall (λ e, xml_tag e = tag_name ∧ xml_wf e) elems.
Proof. apply parse_xml_elements_fuel_ok. lia. Qed.

(** *** More fuel changes nothing *)

Lemma parse_children_ext (rec1 rec2 : string → string → Outcome (list XmlElement * list string))
    (inner : string) (tags : list string) :
  (∀ t, rec1 inner t = rec2 inner t) →
  parse_children rec1 inner tags = parse_children rec2 inner tags.
Proof.
  intros H. induction tags as [|t tags IH]; [done|]. cbn [parse_children].
  by rewrite H, IH.
Qed.

Lemma xml_loop_enough (rec1 rec2 : string → string → Outcome (list XmlElement * list string))
    (tag_name : string) (n : nat) :
  (∀ inner t, (Str.len inner < n)%nat → rec1 inner t = rec2 inner t) →
  ∀ r1 r2 xml, (Str.len xml ≤ n)%nat → (Str.len xml < r1)%nat → (Str.len xml < r2)%nat →
    xml_loop rec1 tag_name r1 xml = xml_loop rec2 tag_name r2 xml.
Proof.
  intros Hrec. induction r1 as [|r1 IH]; intros r2 xml Hn H1 H2; [lia|].
  destruct r2 as [|r2]; [lia|]. cbn [xml_loop].
  destruct (Str.find ("<" +:+ tag_name) xml) as [i|] eqn:Hi; [|done].
  destruct (Str.find_char ">" (Str.drop i xml)) as [tag_end|] eqn:He; [|done].
  apply find_char_Some_bound in He. rewrite len_drop in He.
  assert (Hclose : (1 ≤ Str.len ("</" +:+ tag_name +:+ ">"))%nat).
  { rewrite len_app. change (Str.len "</") with 2%nat. lia. }
  case_bool_decide as Hslash.
  - rewrite (IH r2) by (rewrite !len_drop; lia). done.
  - destruct (Str.find _ (Str.drop tag_end (Str.drop i xml))) as [k|] eqn:Hk.
    2:{ apply IH; rewrite !len_drop; lia. }
    rewrite (parse_children_ext rec1 rec2).
    2:{ intros t. apply Hrec. rewrite len_take, !len_drop. lia. }
    rewrite (IH r2) by (rewrite !len_drop; lia). done.
Qed.

Lemma parse_xml_elements_fuel_enough (f1 : nat) :
  ∀ f2 xml tag_name, (Str.len xml < f1)%nat → (Str.len xml < f2)%nat →
    parse_xml_elements_fuel f1 xml tag_name = parse_xml_elements_fuel f2 xml tag_name.
Proof.
  induction f1 as [|f1 IH]; intros f2 xml tag_name H1 H2; [lia|].
  destruct f2 as [|f2]; [lia|]. cbn [parse_xml_elements_fuel].
  apply (xml_loop_enough _ _ _ (Str.len xml)); [|done|lia..].
  intros inner t Hinner. apply IH; lia.
Qed.

(** The loop inside [parse_xml_elements] on a part of the text it was given. *)
Lemma xml_loop_part (fuel remaining : nat) (xml tag_name : string) :
  (Str.len xml ≤ fuel)%nat → (Str.len xml < remaining)%nat →
  xml_loop (parse_xml_elements_fuel fuel) tag_name remaining xml
  = parse_xml_elements xml tag_name.
Proof.
  intros Hf Hr. unfold parse_xml_elements. cbn [parse_xml_elements_fuel].
  apply (xml_loop_enough _ _ _ (Str.len xml)); [|done|done|lia].
  intros inner t Hinner. apply parse_xml_elements_fuel_enough; lia.
Qed.

Lemma xml_elements_Done (xml tag_name : string) (c : list XmlElement) (cerr : list string) :
  parse_xml_elements xml tag_name = Done (c, cerr) → xml_elements xml tag_name = c.
Proof. unfold xml_elements. by intros ->. Qed.

Lemma parse_children_elements (fuel : nat) (inner : string) (tags : list string) :
  (Str.len inner < fuel)%nat →
  parse_children (parse_xml_elements_fuel fuel) inner tags
  = Done (mjoin ((λ t, xml_elements inner t) <$> tags), []).
Proof.
  intros Hlen. induction tags as [|t tags IH]; [done|]. cbn [parse_children].
  rewrite IH.
  rewrite (parse_xml_elements_fuel_enough fuel (S (Str.len inner))) by lia.
  fold (parse_xml_elements inner t).
  destruct (parse_xml_elements_fuel_ok (S (Str.len inner)) inner t) as (c & Hc & _); [lia|].
  fold (parse_xml_elements inner t) in Hc.
  rewrite fmap_cons, (xml_elements_Done _ _ _ _ Hc), Hc. done.
Qed.

(** *** Where the loop finds the tag *)

Lemma find_here (p s : string) : Str.starts_with p s = true → Str.find p s = Some O.
Proof. intros H. destruct s; cbn [Str.find]; by rewrite H. Qed.

Lemma find_after_without (c : ascii) (p pre rest : string) :
  Str.contains_char c pre = false →
  Str.find (String c p) (pre +:+ String c p +:+ rest) = Some (Str.len pre).
Proof.
  induction pre as [|a pre IH].
  - intros _. rewrite app_empty_l. apply find_here, starts_with_refl_app.
  - rewrite contains_char_cons. destruct (decide (a = c)) as [|Hne]; [done|].
    intros Hpre. rewrite app_cons. cbn [Str.find Str.starts_with].
    rewrite decide_False by congruence. by rewrite (IH Hpre).
Qed.

Lemma find_char_after_without (c : ascii) (pre rest : string) :
  Str.contains_char c pre = false →
  Str.find_char c (pre +:+ String c rest) = Some (Str.len pre).
Proof.
  induction pre as [|a pre IH].
  - intros _. rewrite app_empty_l. simpl. by rewrite decide_True.
  - rewrite contains_char_cons. destruct (decide (a = c)) as [|Hne]; [done|].
    intros Hpre. rewrite app_cons. simpl. rewrite decide_False by done.
    by rewrite (IH Hpre).
Qed.

(** A pattern whose first character occurs in it once overlaps with no
    copy of itself. *)
Lemma starts_with_before_first (c : ascii) (p s t : string) :
  Str.contains_char c p = false →
  Str.starts_with p (s +:+ String c t) = true → Str.starts_with p s = true.
Proof.
  revert s. induction p as [|x p IH]; intros s Hp; [done|].
  rewrite contains_char_cons in Hp. destruct (decide (x = c)) as [|Hne]; [done|].
  destruct s as [|y s].
  - rewrite app_empty_l. simpl. by rewrite decide_False.
  - rewrite app_cons. simpl. destruct (decide (x = y)); [|done]. by apply IH.
Qed.

Lemma find_unique_first (c : ascii) (p s rest : string) :
  Str.contains_char c p = false →
  Str.find (String c p) s = None →
  Str.find (String c p) (s +:+ String c p +:+ rest) = Some (Str.len s).
Proof.
  intros Hp. induction s as [|a s IH].
  - intros _. rewrite app_empty_l. apply find_here, starts_with_refl_app.
  - intros Hf. apply find_None_cons in Hf as [Hhere Hrest].
    rewrite app_cons. cbn [Str.find].
    assert (Str.starts_with (String c p) (String a (s +:+ String c p +:+ rest)) = false) as ->.
    { destruct (Str.starts_with _ (String a (s +:+ _))) eqn:Hs; [|done].
      cbn [Str.starts_with] in Hs, Hhere. destruct (decide (c = a)); [|done].
      change (String c p +:+ rest) with (String c (p +:+ rest)) in Hs.
      apply starts_with_before_first in Hs; [congruence|done]. }
    by rewrite (IH Hrest).
Qed.

Lemma get_last (s t : string) :
  s ≠ "" → String.get (Str.len s - 1) (s +:+ t) = last_char s.
Proof.
  intros Hs. destruct (last_char_snoc s Hs) as (s0 & d & -> & ->).
  rewrite len_app, app_assoc_str. simpl Str.len. rewrite Nat.add_1_r, Nat.sub_1_r.
  simpl Nat.pred. apply get_app_len.
Qed.

Lemma last_char_tag (tag more : string) :
  last_char ("<" +:+ tag +:+ more) = Some "/"%char ↔ last_char (tag +:+ more) = Some "/"%char.
Proof.
  destruct (tag +:+ more) as [|c s] eqn:Ht.
  - done.
  - change ("<" +:+ String c s) with (String "<" (String c s)). done.
Qed.

(** *** One iteration of the loop, at an opening tag *)

Lemma xml_loop_at (rec : string → string → Outcome (list XmlElement * list string))
    (tag pre : string) (remaining : nat) (more after : string) :
  Str.contains_char "<" pre = false →
  Str.contains_char ">" tag = false →
  Str.contains_char ">" more = false →
  xml_loop rec tag (S remaining)
    (pre +:+ "<" +:+ tag +:+ more +:+ ">" +:+ after)
  = if bool_decide (last_char (tag +:+ more) = Some "/"%char) then
      '(rest, cerr) ← xml_loop rec tag remaining after;
      Done (mkXml tag (parse_attrs ("<" +:+ tag +:+ more +:+ ">")) "" [] :: rest, cerr)
    else
      match Str.find ("</" +:+ tag +:+ ">") (">" +:+ after) with
      | None => xml_loop rec tag remaining after
      | Some k =>
          '(children, cerr1) ← parse_children rec (Str.take (k - 1) after) child_tags;
          '(rest, cerr2) ← xml_loop rec tag remaining
                             (Str.drop (k + Str.len ("</" +:+ tag +:+ ">")) (">" +:+ after));
          Done (mkXml tag (parse_attrs ("<" +:+ tag +:+ more +:+ ">"))
                  (trim (Str.take (k - 1) after)) children :: rest,
                cerr1 ++ cerr2)
      end.
Proof.
  intros Hpre Htag Hmore.
  set (sa := String "<" (tag +:+ more)).
  assert (Hsa : Str.contains_char ">" sa = false).
  { unfold sa. rewrite contains_char_cons, decide_False by done.
    by rewrite contains_char_app, Htag, Hmore. }
  assert (Hat : "<" +:+ tag +:+ more +:+ ">" +:+ after = sa +:+ String ">" after).
  { unfold sa.
    change (String "<" (tag +:+ more +:+ ">" +:+ after)
            = String "<" ((tag +:+ more) +:+ String ">" after)).
    by rewrite app_assoc_str. }
  cbn [xml_loop].
  change (pre +:+ "<" +:+ tag +:+ more +:+ ">" +:+ after)
    with (pre +:+ String "<" tag +:+ (more +:+ ">" +:+ after)).
  change ("<" +:+ tag) with (String "<" tag).
  rewrite (find_after_without "<" tag pre _ Hpre), drop_app_len.
  change (String "<" tag +:+ more +:+ ">" +:+ after)
    with ("<" +:+ tag +:+ more +:+ ">" +:+ after).
  rewrite Hat, (find_char_after_without ">" sa after Hsa).
  rewrite (get_last sa (String ">" after)) by done.
  assert (Htake : Str.take (Str.len sa + 1) (sa +:+ String ">" after) = sa +:+ ">").
  { replace (Str.len sa + 1)%nat with (Str.len (sa +:+ ">")) by (rewrite len_app; done).
    change (String ">" after) with (">" +:+ after).
    rewrite <- app_assoc_str. apply take_app_len. }
  rewrite Htake.
  assert (Hattr : sa +:+ ">" = "<" +:+ tag +:+ more +:+ ">").
  { unfold sa.
    change (String "<" ((tag +:+ more) +:+ ">") = String "<" (tag +:+ more +:+ ">")).
    by rewrite app_assoc_str. }
  rewrite Hattr.
  rewrite (drop_add (Str.len sa) 1), !drop_app_len. cbn [Str.drop].
  assert (Hlast : bool_decide (last_char sa = Some "/"%char)
                  = bool_decide (last_char (tag +:+ more) = Some "/"%char)).
  { apply bool_decide_ext. apply (last_char_tag tag more). }
  rewrite Hlast.
  destruct (bool_decide (last_char (tag +:+ more) = Some "/"%char)); [reflexivity|].
  change (">" +:+ after) with (String ">" after).
  destruct (Str.find ("</" +:+ tag +:+ ">") (String ">" after)) as [k|]; [|done].
  rewrite <- (Nat.add_assoc (Str.len sa)), (drop_add (Str.len sa)), drop_app_len. done.
Qed.

Lemma find_close_after (tag inner rest : string) :
  Str.contains_char "<" tag = false →
  Str.find ("</" +:+ tag +:+ ">") inner = None →
  Str.find ("</" +:+ tag +:+ ">") (">" +:+ inner +:+ ("</" +:+ tag +:+ ">") +:+ rest)
  = Some (S (Str.len inner)).
Proof.
  intros Htag Hinner.
  change ("</" +:+ tag +:+ ">") with (String "<" ("/" +:+ tag +:+ ">")) in *.
  change (">" +:+ inner +:+ String "<" ("/" +:+ tag +:+ ">") +:+ rest)
    with (String ">" inner +:+ String "<" ("/" +:+ tag +:+ ">") +:+ rest).
  rewrite find_unique_first; [done| |].
  - change ("/" +:+ tag +:+ ">") with (String "/" (tag +:+ ">")).
    rewrite contains_char_cons, decide_False by done.
    by rewrite contains_char_app, Htag.
  - cbn [Str.find Str.starts_with]. rewrite decide_False by done. by rewrite Hinner.
Qed.

Lemma xml_elements_eq (xml tag : string) :
  parse_xml_elements xml tag = Done (xml_elements xml tag, []).
Proof.
  destruct (parse_xml_elements_fuel_ok (S (Str.len xml)) xml tag) as (c & Hc & _); [lia|].
  fold (parse_xml_elements xml tag) in Hc. by rewrite (xml_elements_Done _ _ _ _ Hc).
Qed.

(** X23: what [parse_xml_elements] makes of an element with a
    closing tag.  Before the element the text holds no [<]; the opening tag
    is [<], the tag name and any text without [>] that does not end in [/]
    -- an attribute list, or the rest of a longer tag name -- and [>]; the
    content is the text up to the first closing tag.  The element has the
    attributes of the opening tag and the trimmed content as its text; its
    children are the elements of the content for each of the seven child
    tags in turn, so they are grouped by tag and not in document order; the
    elements that follow are those of the text after the closing tag. *)
Theorem xml_element_closed (pre tag more inner rest : string) :
  Str.contains_char "<" pre = false →
  Str.contains_char "<" tag = false →
  Str.contains_char ">" tag = false →
  Str.contains_char ">" more = false →
  last_char (tag +:+ more) ≠ Some "/"%char →
  Str.find ("</" +:+ tag +:+ ">") inner = None →
  xml_elements
    (pre +:+ "<" +:+ tag +:+ more +:+ ">" +:+ inner +:+ "</" +:+ tag +:+ ">" +:+ rest) tag
  = mkXml tag (parse_attrs ("<" +:+ tag +:+ more +:+ ">")) (trim inner)
      (mjoin ((λ child_tag, xml_elements inner child_tag) <$> child_tags))
    :: xml_elements rest tag.
Proof.
  intros Hpre Htag1 Htag2 Hmore Hlast Hinner.
  assert (Hshape : "</" +:+ tag +:+ ">" +:+ rest = ("</" +:+ tag +:+ ">") +:+ rest)
    by (by rewrite !app_assoc_str).
  rewrite Hshape.
  apply (xml_elements_Done _ _ _ []).
  unfold parse_xml_elements at 1. cbn [parse_xml_elements_fuel].
  assert (Hlen : Str.len (pre +:+ "<" +:+ tag +:+ more +:+ ">" +:+ inner
                            +:+ ("</" +:+ tag +:+ ">") +:+ rest)
                 = (Str.len pre + 1 + Str.len tag + Str.len more + 1 + Str.len inner
                    + Str.len ("</" +:+ tag +:+ ">") + Str.len rest)%nat).
  { rewrite !len_app. change (Str.len "<") with 1%nat.
    change (Str.len ">") with 1%nat. change (Str.len "</") with 2%nat. lia. }
  set (n := Str.len _) in Hlen |- *.
  rewrite (xml_loop_at _ tag pre n more _ Hpre Htag2 Hmore).
  rewrite bool_decide_eq_false_2 by done.
  rewrite (find_close_after tag inner rest Htag1 Hinner).
  replace (S (Str.len inner) - 1)%nat with (Str.len inner) by lia.
  rewrite take_app_len.
  rewrite parse_children_elements by lia.
  assert (Hdrop : Str.drop (S (Str.len inner) + Str.len ("</" +:+ tag +:+ ">"))
                    (">" +:+ inner +:+ ("</" +:+ tag +:+ ">") +:+ rest) = rest).
  { change (">" +:+ inner +:+ ("</" +:+ tag +:+ ">") +:+ rest)
      with (String ">" (inner +:+ ("</" +:+ tag +:+ ">") +:+ rest)).
    cbn [Nat.add Str.drop]. by rewrite drop_add, !drop_app_len. }
  rewrite Hdrop.
  rewrite xml_loop_part by lia. rewrite xml_elements_eq. done.
Qed.

Lemma xml_element_closed_witness :
  xml_elements
    ("  " +:+ "<" +:+ "arch" +:+ (" name=" +:+ dq +:+ "sse" +:+ dq) +:+ ">"
     +:+ "<check name=x/> <flag>-msse</flag> <check/>"
     +:+ "</" +:+ "arch" +:+ ">" +:+ "<archs>a b</archs>") "arch"
  = mkXml "arch" (parse_attrs ("<" +:+ "arch" +:+ (" name=" +:+ dq +:+ "sse" +:+ dq) +:+ ">"))
      (trim "<check name=x/> <flag>-msse</flag> <check/>")
      (mjoin ((λ child_tag,
                 xml_elements "<check name=x/> <flag>-msse</flag> <check/>" child_tag)
              <$> child_tags))
    :: xml_elements "<archs>a b</archs>" "arch".
Proof.
  apply (xml_element_closed "  " "arch" (" name=" +:+ dq +:+ "sse" +:+ dq)
           "<check name=x/> <flag>-msse</flag> <check/>" "<archs>a b</archs>");
    (reflexivity || done).
Defined.

(** X24: an opening tag that ends in [/>] gives an element with the
    attributes of the tag, no text and no children, and the reading goes on
    after the tag.  An opening tag that neither ends in [/>] nor is followed
    by a closing tag gives no element, and the reading goes on after its
    [>], inside what would be its content. *)
Theorem xml_element_not_closed (pre tag more rest : string) :
  Str.contains_char "<" pre = false →
  Str.contains_char ">" tag = false →
  Str.contains_char ">" more = false →
  xml_elements (pre +:+ "<" +:+ tag +:+ more +:+ "/>" +:+ rest) tag
  = mkXml tag (parse_attrs ("<" +:+ tag +:+ more +:+ "/>")) "" [] :: xml_elements rest tag
  ∧ (last_char (tag +:+ more) ≠ Some "/"%char →
     Str.find ("</" +:+ tag +:+ ">") rest = None →
     xml_elements (pre +:+ "<" +:+ tag +:+ more +:+ ">" +:+ rest) tag
     = xml_elements rest tag).
Proof.
  intros Hpre Htag Hmore. split.
  - apply (xml_elements_Done _ _ _ []).
    unfold parse_xml_elements at 1. cbn [parse_xml_elements_fuel].
    assert (Hlen : Str.len (pre +:+ "<" +:+ tag +:+ more +:+ "/>" +:+ rest)
                   = (Str.len pre + 1 + Str.len tag + Str.len more + 2 + Str.len rest)%nat).
    { rewrite !len_app. change (Str.len "<") with 1%nat.
      change (Str.len "/>") with 2%nat. lia. }
    set (n := Str.len _) in Hlen |- *.
    change ("/>" +:+ rest) with ("/" +:+ ">" +:+ rest).
    rewrite <- (app_assoc_str more "/").
    rewrite (xml_loop_at _ tag pre n (more +:+ "/") _ Hpre Htag).
    2:{ by rewrite contains_char_app, Hmore. }
    rewrite bool_decide_eq_true_2.
    2:{ rewrite <- app_assoc_str. by apply last_char_app. }
    rewrite xml_loop_part by lia. rewrite xml_elements_eq.
    by rewrite (app_assoc_str more "/").
  - intros Hlast Hrest.
    apply (xml_elements_Done _ _ _ []).
    unfold parse_xml_elements at 1. cbn [parse_xml_elements_fuel].
    assert (Hlen : Str.len (pre +:+ "<" +:+ tag +:+ more +:+ ">" +:+ rest)
                   = (Str.len pre + 1 + Str.len tag + Str.len more + 1 + Str.len rest)%nat).
    { rewrite !len_app. change (Str.len "<") with 1%nat.
      change (Str.len ">") with 1%nat. lia. }
    set (n := Str.len _) in Hlen |- *.
    rewrite (xml_loop_at _ tag pre n more _ Hpre Htag Hmore).
    rewrite bool_decide_eq_false_2 by done.
    assert (Str.find ("</" +:+ tag +:+ ">") (">" +:+ rest) = None) as ->.
    { change (">" +:+ rest) with (String ">" rest).
      change ("</" +:+ tag +:+ ">") with (String "<" ("/" +:+ tag +:+ ">")) in *.
      cbn [Str.find Str.starts_with]. rewrite decide_False by done. by rewrite Hrest. }
    rewrite xml_loop_part by lia. apply xml_elements_eq.
Qed.

Lemma xml_element_not_closed_witness :
  xml_elements (" " +:+ "<" +:+ "arch" +:+ (" name=" +:+ dq +:+ "a" +:+ dq +:+ " ") +:+ "/>" +:+ "<archs>x</arch>") "arch"
  = mkXml "arch" (parse_attrs ("<" +:+ "arch" +:+ (" name=" +:+ dq +:+ "a" +:+ dq +:+ " ") +:+ "/>")) "" []
    :: xml_elements "<archs>x</arch>" "arch"
  ∧ xml_elements (" " +:+ "<" +:+ "arch" +:+ (" name=" +:+ dq +:+ "a" +:+ dq) +:+ ">" +:+ "<arch/>") "arch"
    = xml_elements "<arch/>" "arch".
Proof.
  split.
  - apply (xml_element_not_closed " " "arch" (" name=" +:+ dq +:+ "a" +:+ dq +:+ " ") "<archs>x</arch>");
      reflexivity.
  - apply (xml_element_not_closed " " "arch" (" name=" +:+ dq +:+ "a" +:+ dq) "<arch/>");
      (reflexivity || done).
Defined.

(** *** [parse_archs] on the elements *)

Lemma stoi_text_outcome (s : string) :
  (∃ v, stoi_text s = Done v) ∨ stoi_text s = Thrown "stoi".
Proof.
  unfold stoi_text.
  destruct (match skip_space s with
            | String "-" s' => (true, s')
            | String "+" s' => (false, s')
            | _ => (false, skip_space s)
            end) as [negative s'].
  destruct (decide (leading_digits s' = "")); [by right|].
  destruct (_ && _); [left; eauto|by right].
Qed.

Lemma parse_arch_child_outcome (arch : Arch) (child : XmlElement) :
  match parse_arch_child arch child with
  | Done arch' => arch_name arch' = arch_name arch
  | Thrown what =>
      what = "stoi" ∧ xml_tag child = "alignment"
      ∧ stoi_text (xml_text child) = Thrown "stoi"
  | Starved => False
  end.
Proof.
  unfold parse_arch_child.
  destruct (decide (xml_tag child = "flag")); [by destruct (_ && _)|].
  destruct (decide (xml_tag child = "check")); [by destruct (negb _)|].
  destruct (decide (xml_tag child = "alignment")) as [Htag|].
  - destruct (stoi_text_outcome (xml_text child)) as [[v Hv]|Hv]; rewrite Hv; done.
  - destruct (decide (xml_tag child = "environment")); [done|].
    destruct (decide (xml_tag child = "include")); done.
Qed.

Lemma parse_arch_children_outcome (children : list XmlElement) :
  ∀ arch,
    match parse_arch_children arch children with
    | Done arch' => arch_name arch' = arch_name arch
    | Thrown what =>
        what = "stoi"
        ∧ ∃ child, child ∈ children ∧ xml_tag child = "alignment"
                   ∧ stoi_text (xml_text child) = Thrown "stoi"
    | Starved => False
    end.
Proof.
  induction children as [|child children IH]; intros arch; [done|].
  cbn [parse_arch_children].
  pose proof (parse_arch_child_outcome arch child) as Hc.
  destruct (parse_arch_child arch child) as [arch'|what|]; [|cbn|done].
  - cbn. specialize (IH arch').
    destruct (parse_arch_children arch' children) as [arch''|what|]; [congruence| |done].
    destruct IH as (-> & c & Hin & Hc'). split; [done|]. exists c. split; [by right|done].
  - destruct Hc as (-> & Hc). split; [done|]. exists child. split; [left|done].
Qed.

(** The names [parse_archs] keeps: those that are not empty. *)
Lemma parse_arch_elements_outcome (elems : list XmlElement) :
  ∀ g_archs,
    match parse_arch_elements elems g_archs with
    | Done archs =>
        arch_name <$> archs
        = (arch_name <$> g_archs)
          ++ List.filter (λ name, negb (bool_decide (name = ""))) (attr "name" <$> elems)
    | Thrown what =>
        what = "stoi"
        ∧ ∃ elem child, elem ∈ elems ∧ attr "name" elem ≠ ""
            ∧ child ∈ xml_children elem ∧ xml_tag child = "alignment"
            ∧ stoi_text (xml_text child) = Thrown "stoi"
    | Starved => False
    end.
Proof.
  induction elems as [|elem elems IH]; intros g_archs.
  - cbn. by rewrite app_nil_r.
  - cbn [parse_arch_elements fmap list_fmap List.filter].
    destruct (decide (attr "name" elem = "")) as [Hname|Hname].
    + rewrite bool_decide_eq_true_2 by done. cbn [negb]. specialize (IH g_archs).
      destruct (parse_arch_elements elems g_archs) as [archs|what|]; [done| |done].
      destruct IH as (-> & e & c & He & Hrest). split; [done|].
      exists e, c. split; [by right|done].
    + rewrite bool_decide_eq_false_2 by done. cbn [negb].
      pose proof (parse_arch_children_outcome (xml_children elem)
                    (mkArch (attr "name" elem) "" "" 1 [] ∅)) as Hc.
      destruct (parse_arch_children _ (xml_children elem)) as [arch|what|]; [|cbn|done].
      * cbn. specialize (IH (g_archs ++ [arch])).
        destruct (parse_arch_elements elems (g_archs ++ [arch])) as [archs|what|];
          [| |done].
        -- rewrite IH, fmap_app, <- app_assoc. cbn. by rewrite Hc.
        -- destruct IH as (-> & e & c & He & Hrest). split; [done|].
           exists e, c. split; [by right|done].
      * destruct Hc as (-> & c & Hin & Hc). split; [done|].
        exists elem, c. split; [left|done].
Qed.

(** X25: what [parse_archs] does with the text of [archs.xml].
    It either returns, having written nothing to [std::cerr], or throws the
    exception of [std::stoi], which [main] catches.  Where it returns, it has
    added one architecture for each [arch] element of the text without its
    comments that has a [name] attribute other than the empty one, in the
    order of the text and with the names of the elements, having skipped
    the other elements.  Where it throws, an element with a name has an
    [alignment] child whose text does not start with a number that fits an
    [int]. *)
Theorem parse_archs_outcome (xml : string) (g_archs : list Arch) :
  match parse_archs xml g_archs with
  | Done (archs, dict, cerr) =>
      cerr = [] ∧ dict = build_arch_dict archs
      ∧ arch_name <$> archs
        = (arch_name <$> g_archs)
          ++ List.filter (λ name, negb (bool_decide (name = "")))
               (attr "name" <$> xml_elements (strip_xml_comments xml) "arch")
  | Thrown what =>
      what = "stoi"
      ∧ ∃ elem child,
          elem ∈ xml_elements (strip_xml_comments xml) "arch" ∧ attr "name" elem ≠ ""
          ∧ child ∈ xml_children elem ∧ xml_tag child = "alignment"
          ∧ stoi_text (xml_text child) = Thrown "stoi"
  | Starved => False
  end.
Proof.
  unfold parse_archs. rewrite xml_elements_eq. cbn.
  pose proof (parse_arch_elements_outcome
                (xml_elements (strip_xml_comments xml) "arch") g_archs) as H.
  destruct (parse_arch_elements _ g_archs) as [archs|what|]; done.
Qed.

(** [archs.xml] with an alignment that is no number, and with one that
    starts with a number beside an element without a name. *)
Example parse_archs_alignment :
  parse_archs ("<arch name=" +:+ dq +:+ "a" +:+ dq +:+ "><alignment>x16</alignment></arch>") []
  = Thrown "stoi"
  ∧ match parse_archs ("<arch name=" +:+ dq +:+ "a" +:+ dq
                       +:+ "><alignment> 16 bytes</alignment></arch>"
                       +:+ "<arch><alignment>x</alignment></arch>"
                       +:+ "<arch name=" +:+ dq +:+ "b" +:+ dq +:+ "/>") [] with
    | Done (archs, _, _) => arch_alignment <$> archs = [16; 1]
    | _ => False
    end.
Proof. split; vm_compute; reflexivity. Qed.

(** *** [parse_machines] on the text of [machines.xml] *)

Lemma parse_machines_expansions (dict : gmap string Arch)
    (elems : list (string * list string)) :
  ∀ gm,
    parse_machines dict elems gm
    = Some (register_all dict
              (flat_map (λ e, expansions e.1 e.2)
                 (List.filter (λ e, negb (bool_decide (e.1 = ""))) elems)) gm).
Proof.
  unfold parse_machines.
  induction elems as [|e elems IH]; intros gm; [done|].
  cbn [fold_left List.filter]. destruct (decide (e.1 = "")) as [He|He].
  - rewrite bool_decide_eq_true_2 by done. cbn [negb]. apply IH.
  - rewrite bool_decide_eq_false_2 by done. cbn [negb flat_map].
    unfold register_machine. rewrite register_machine_fuel_expansions.
    2:{ pose proof (bars_le_length e.2). lia. }
    by rewrite IH, register_all_app.
Qed.

(** X26: [parse_machines], on the text of [machines.xml], always
    returns and writes nothing to [std::cerr].  Of the text without its
    comments it reads the [machine] elements that have a [name] attribute
    other than the empty one, in the order of the text; for each it takes
    the white-space separated tokens of the text of the first [archs] child,
    or no token where there is none, and registers one plain machine for
    every choice of alternatives, so that the catalog is the one these
    registrations give in this order, and the dictionary is built from
    it. *)
Theorem parse_machines_xml_catalog (dict : gmap string Arch) (xml : string)
    (g_machines : list Machine) :
  let machines :=
    fold_left (λ gm nl, register_plain dict nl.1 nl.2 gm)
      (flat_map (λ e, expansions e.1 e.2)
         (List.filter (λ e, negb (bool_decide (e.1 = "")))
            (machine_entry <$> xml_elements (strip_xml_comments xml) "machine")))
      g_machines in
  parse_machines_xml dict xml g_machines
  = Done (machines, build_machine_dict machines, []).
Proof.
  cbn zeta. unfold parse_machines_xml. rewrite xml_elements_eq. cbn.
  by rewrite parse_machines_expansions.
Qed.

(** [machines.xml] with two machines, one of them with alternatives. *)
Example parse_machines_xml_demo :
  match parse_machines_xml demo_arch_dict demo_machines_xml [] with
  | Done (machines, _, cerr) =>
      machine_name <$> machines = ["generic"; "sse_sse"; "sse"] ∧ cerr = []
  | _ => False
  end.
Proof. vm_compute. done. Qed.
